(** * gocrunch/matrix: the flat-buffer matrix engine

    A shallow embedding of [matf64.go], of its float32 twin and of
    [work_pool.go].  A matrix is a row count, a column count and one flat
    buffer; the Go methods mutate their receiver through a pointer, which is
    rendered here by explicit state passing: a method takes the receiver's
    state and returns the state it leaves behind.  [Dot], which mutates its
    argument while it reads its receiver, is given over a store of matrix
    objects so that a receiver and an argument that are one object are told
    apart from two equal objects.

    Conventions.
    - Go's [int] is 64 bits wide.  It is modelled by [Z], and every [+], [-]
      and [*] of the source goes through [GoInt.wrap].
    - A slice is modelled by the list of its elements.  Capacity is not
      modelled: it only steers allocation, and a slice expression is checked
      against the length.
    - [printErr] prints and calls [os.Exit(1)]: outcome [Exit].  A failed
      bounds check of the Go runtime is the outcome [Panic]. *)

From Stdlib Require Import ZArith Lia Floats.
From stdpp Require Import base list gmap.
Local Open Scope Z_scope.

(** ** Go's 64-bit [int] *)

Module GoInt.

Definition min_int : Z := - 2 ^ 63.
Definition max_int : Z := 2 ^ 63 - 1.

(** Two's-complement wrap-around of a mathematical integer. *)
Definition wrap (z : Z) : Z := (z + 2 ^ 63) mod 2 ^ 64 - 2 ^ 63.

Definition add (a b : Z) : Z := wrap (a + b).
Definition sub (a b : Z) : Z := wrap (a - b).
Definition mul (a b : Z) : Z := wrap (a * b).
Definition neg (a : Z) : Z := wrap (- a).

Definition in_range (z : Z) : Prop := min_int <= z <= max_int.

End GoInt.

Infix "+!" := GoInt.add (at level 50, left associativity).
Infix "-!" := GoInt.sub (at level 50, left associativity).
Infix "*!" := GoInt.mul (at level 40, left associativity).

(** ** Outcomes *)

(** The failures the library reports itself through [printErr], named as the
    specification's error taxonomy names them. *)
Inductive fatal : Set :=
| ArgumentCountError
| TypeError
| ShapeError
| ShapeMismatchError
| ColumnMismatchError
| RowMismatchError
| DimensionError
| AxisError
| IndexError
| ArityError.

(** Run-time panics of Go itself. *)
Inductive panic : Set :=
| IndexOutOfRange
| SliceBoundsOutOfRange
| MakesliceLenOutOfRange
| NilDereference.

Inductive result (A : Type) : Type :=
| Ok (a : A)
| Exit (e : fatal)
| Panic (p : panic).
Arguments Ok {A} a.
Arguments Exit {A} e.
Arguments Panic {A} p.

#[global] Instance result_bind : MBind result := λ A B f x,
  match x with
  | Ok a => f a
  | Exit e => Exit e
  | Panic p => Panic p
  end.
#[global] Instance result_ret : MRet result := λ A a, Ok a.

(** [printErr(s)]: report and leave the process. *)
Definition printErr {A} (e : fatal) : result A := Exit e.

(** ** Loops *)

(** [for i := lo; i < hi; i++ { s = body(i, s) }], the bound read once. *)
Fixpoint for_loop {S : Type} (n : nat) (i : Z) (body : Z → S → result S) (s : S)
  : result S :=
  match n with
  | O => Ok s
  | Datatypes.S n' => s' ← body i s; for_loop n' (i + 1) body s'
  end.

Definition for_range {S : Type} (lo hi : Z) (body : Z → S → result S) (s : S)
  : result S :=
  for_loop (Z.to_nat (hi - lo)) lo body s.

(** The same loop with a [return] inside its body: the body either goes on
    with a new state ([inl]) or leaves the function with a value ([inr]). *)
Fixpoint for_loop_ret {S R : Type} (n : nat) (i : Z)
    (body : Z → S → result (S + R)) (s : S) : result (S + R) :=
  match n with
  | O => Ok (inl s)
  | Datatypes.S n' =>
      x ← body i s;
      match x with
      | inl s' => for_loop_ret n' (i + 1) body s'
      | inr v => Ok (inr v)
      end
  end.

Definition for_range_ret {S R : Type} (lo hi : Z)
    (body : Z → S → result (S + R)) (s : S) : result (S + R) :=
  for_loop_ret (Z.to_nat (hi - lo)) lo body s.

(** ** Slices *)

Section Slices.
Context {A : Type}.

(** [len(s)] *)
Definition len (s : list A) : Z := Z.of_nat (length s).

(** [s[i]] as a value *)
Definition ld (s : list A) (i : Z) : result A :=
  if decide (0 <= i < len s) then
    match s !! Z.to_nat i with
    | Some v => Ok v
    | None => Panic IndexOutOfRange
    end
  else Panic IndexOutOfRange.

(** [s[i] = v] *)
Definition st (s : list A) (i : Z) (v : A) : result (list A) :=
  if decide (0 <= i < len s) then Ok (<[Z.to_nat i := v]> s)
  else Panic IndexOutOfRange.

(** [s[lo:hi]] *)
Definition slice (s : list A) (lo hi : Z) : result (list A) :=
  if decide (0 <= lo ∧ lo <= hi ∧ hi <= len s)
  then Ok (take (Z.to_nat (hi - lo)) (drop (Z.to_nat lo) s))
  else Panic SliceBoundsOutOfRange.

(** [copy(dst, src)]: the first [min(len(dst), len(src))] elements of [src]
    overwrite those of [dst]; the result is [dst] afterwards. *)
Definition copy (dst src : list A) : list A :=
  take (length dst) src ++ drop (length src) dst.

(** [make([]T, n)] with [zero] the zero value of [T]. *)
Definition make (zero : A) (n : Z) : result (list A) :=
  if decide (0 <= n) then Ok (replicate (Z.to_nat n) zero)
  else Panic MakesliceLenOutOfRange.

End Slices.

(** ** Floating-point elements *)

(** The operations the engine uses on its element type: [float64] for
    [Matf64], [float32] for [Matf32].  [of_int] is the conversion
    [float64(n)] (or [float32(n)]) of an [int]; [root_mean] is the last line
    of [Std], [math.Sqrt(sum / float64(n))], which the float32 file computes
    in float64 and converts back. *)
Class FloatOps (F : Type) : Type := {
  f0 : F;
  f1 : F;
  fadd : F → F → F;
  fsub : F → F → F;
  fmul : F → F → F;
  fdiv : F → F → F;
  flt : F → F → bool;
  feq : F → F → bool;
  of_int : Z → F;
  root_mean : F → Z → F
}.

(** [a > b] and [a != b] *)
Definition fgt {F} `{FloatOps F} (a b : F) : bool := flt b a.
Definition fne {F} `{FloatOps F} (a b : F) : bool := negb (feq a b).

(** ** The matrix engine, for either element width *)

Section Engine.
Context {F : Type} `{FloatOps F}.

(** [type Matf64 struct { r, c int; vals []float64 }] *)
Record Mat : Type := mkMat { r : Z; c : Z; vals : list F }.

Definition with_vals (m : Mat) (l : list F) : Mat :=
  {| r := m.(r); c := m.(c); vals := l |}.

(** *** Constructors *)

(** [Newf64(dims ...int)] and [Newf32(dims ...int)].  The capacity
    [2*x*y] that [Newf64] asks of [make], and [Newf32] does not, is not
    modelled: the statements in which a [Newf64] has to return assume that
    twice the length fits an [int]. *)
Definition Newf (dims : list Z) : result Mat :=
  match dims with
  | [] => Ok {| r := 0; c := 0; vals := [] |}
  | [x] => l ← make f0 (x *! x); Ok {| r := x; c := x; vals := l |}
  | [x; y] => l ← make f0 (x *! y); Ok {| r := x; c := y; vals := l |}
  | _ => printErr ArgumentCountError
  end.

(** [Eyef64(x)]: [for i := 1; i < x; i++ { m.vals[i*i-1] = 1.0 }] *)
Definition Eye (x : Z) : result Mat :=
  m ← Newf [x];
  l ← for_range 1 x (λ i l, st l (i *! i -! 1) f1) m.(vals);
  Ok (with_vals m l).

(** *** Shape and element access *)

(** [Reshape(rows, cols)] *)
Definition Reshape (m : Mat) (rows cols : Z) : result Mat :=
  if decide (rows *! cols ≠ m.(r) *! m.(c)) then printErr ShapeError
  else Ok {| r := rows; c := cols; vals := m.(vals) |}.

Definition Shape (m : Mat) : Z * Z := (m.(r), m.(c)).

(** [ToSlice1D()] *)
Definition ToSlice1D (m : Mat) : list F := copy (replicate (length m.(vals)) f0) m.(vals).

(** [ToSlice2D()]: one freshly made row per [i], filled from
    [m.vals[i*m.c+j]]. *)
Definition ToSlice2D (m : Mat) : result (list (list F)) :=
  s ← make [] m.(r);
  for_range 0 (len s) (λ i s,
    row ← make f0 m.(c);
    row ← for_range 0 (len row) (λ j row,
             v ← ld m.(vals) (i *! m.(c) +! j); st row j v) row;
    st s i row) s.

(** [Get(r, c)] and [Set(r, c, val)] *)
Definition Get (m : Mat) (row col : Z) : result F :=
  ld m.(vals) (row *! m.(c) +! col).

Definition Set_ (m : Mat) (row col : Z) (val : F) : result Mat :=
  l ← st m.(vals) (row *! m.(c) +! col) val; Ok (with_vals m l).

Definition SetAll (m : Mat) (val : F) : Mat :=
  with_vals m (replicate (length m.(vals)) val).

(** [SetCol(col, val)], the branch of the type switch for one float. *)
Definition SetCol_float (m : Mat) (col : Z) (val : F) : result Mat :=
  if decide (col >= m.(c) ∨ col < GoInt.neg m.(c)) then printErr IndexError
  else
    l ← (if decide (col >= 0) then
           for_range 0 m.(r) (λ ri l, st l (ri *! m.(c) +! col) val) m.(vals)
         else
           for_range 0 m.(r) (λ ri l, st l (ri *! m.(c) +! (m.(c) +! col)) val)
             m.(vals));
    Ok (with_vals m l).

(** [SetCol(col, val)], the branch of the type switch for a slice. *)
Definition SetCol_slice (m : Mat) (col : Z) (val : list F) : result Mat :=
  if decide (len val ≠ m.(r)) then printErr ArityError
  else
    l ← (if decide (col >= 0) then
           for_range 0 m.(r) (λ ri l,
             v ← ld val ri; st l (ri *! m.(c) +! col) v) m.(vals)
         else
           for_range 0 m.(r) (λ ri l,
             v ← ld val ri; st l (ri *! m.(c) +! (m.(c) +! col)) v) m.(vals));
    Ok (with_vals m l).

(** [SetRow(row, val)], one float. *)
Definition SetRow_float (m : Mat) (row : Z) (val : F) : result Mat :=
  if decide (row >= m.(r) ∨ row < GoInt.neg m.(r)) then printErr IndexError
  else
    l ← (if decide (row >= 0) then
           for_range 0 m.(c) (λ ci l, st l (row *! m.(c) +! ci) val) m.(vals)
         else
           for_range 0 m.(c) (λ ci l, st l ((m.(r) +! row) *! m.(c) +! ci) val)
             m.(vals));
    Ok (with_vals m l).

(** [SetRow(row, val)], a slice. *)
Definition SetRow_slice (m : Mat) (row : Z) (val : list F) : result Mat :=
  if decide (len val ≠ m.(c)) then printErr ArityError
  else
    l ← (if decide (row >= 0) then
           for_range 0 m.(c) (λ ci l,
             v ← ld val ci; st l (row *! m.(c) +! ci) v) m.(vals)
         else
           for_range 0 m.(c) (λ ci l,
             v ← ld val ci; st l ((m.(r) +! row) *! m.(c) +! ci) v) m.(vals));
    Ok (with_vals m l).

(** [Col(x)] *)
Definition Col (m : Mat) (x : Z) : result Mat :=
  if decide (x >= m.(c) ∨ x < GoInt.neg m.(c)) then printErr IndexError
  else
    v ← Newf [m.(r); 1];
    l ← (if decide (x >= 0) then
           for_range 0 m.(r) (λ ri l,
             e ← ld m.(vals) (ri *! m.(c) +! x); st l ri e) v.(vals)
         else
           for_range 0 m.(r) (λ ri l,
             e ← ld m.(vals) (ri *! m.(c) +! (m.(c) +! x)); st l ri e) v.(vals));
    Ok (with_vals v l).

(** [Row(x)] *)
Definition Row (m : Mat) (x : Z) : result Mat :=
  if decide (x >= m.(r) ∨ x < GoInt.neg m.(r)) then printErr IndexError
  else
    v ← Newf [1; m.(c)];
    l ← (if decide (x >= 0) then
           for_range 0 m.(c) (λ ci l,
             e ← ld m.(vals) (x *! m.(c) +! ci); st l ci e) v.(vals)
         else
           for_range 0 m.(c) (λ ci l,
             e ← ld m.(vals) ((m.(r) +! x) *! m.(c) +! ci); st l ci e) v.(vals));
    Ok (with_vals v l).

(** *** Search: [Min] and [Max] *)

(** [Min(args ...int)].  The named results [index] and [minVal] are the loop
    state. *)
Definition Min (m : Mat) (args : list Z) : result (Z * F) :=
  match args with
  | [] =>
      minVal ← ld m.(vals) 0;
      for_range 1 (len m.(vals)) (λ i '(index, minVal),
        x ← ld m.(vals) i;
        if flt x minVal then x ← ld m.(vals) i; Ok (i, x)
        else Ok (index, minVal)) (0, minVal)
  | [axis; slice_] =>
      if decide (axis = 0) then
        if decide (slice_ >= m.(r) ∨ slice_ < 0) then printErr IndexError
        else
          minVal ← ld m.(vals) (slice_ *! m.(c));
          for_range 1 m.(c) (λ i '(index, minVal),
            x ← ld m.(vals) (slice_ *! m.(c) +! i);
            if flt x minVal then x ← ld m.(vals) (slice_ *! m.(c) +! i); Ok (i, x)
            else Ok (index, minVal)) (0, minVal)
      else if decide (axis = 1) then
        if decide (slice_ >= m.(c) ∨ slice_ < 0) then printErr IndexError
        else
          minVal ← ld m.(vals) slice_;
          for_range 1 m.(r) (λ i '(index, minVal),
            x ← ld m.(vals) (i *! m.(c) +! slice_);
            if flt x minVal then x ← ld m.(vals) (i *! m.(c) +! slice_); Ok (i, x)
            else Ok (index, minVal)) (0, minVal)
      else printErr AxisError
  | _ => printErr ArgumentCountError
  end.

(** [Max(args ...int)] *)
Definition Max (m : Mat) (args : list Z) : result (Z * F) :=
  match args with
  | [] =>
      maxVal ← ld m.(vals) 0;
      for_range 1 (len m.(vals)) (λ i '(index, maxVal),
        x ← ld m.(vals) i;
        if fgt x maxVal then x ← ld m.(vals) i; Ok (i, x)
        else Ok (index, maxVal)) (0, maxVal)
  | [axis; slice_] =>
      if decide (axis = 0) then
        if decide (slice_ >= m.(r) ∨ slice_ < 0) then printErr IndexError
        else
          maxVal ← ld m.(vals) (slice_ *! m.(c));
          for_range 1 m.(c) (λ i '(index, maxVal),
            x ← ld m.(vals) (slice_ *! m.(c) +! i);
            if fgt x maxVal then x ← ld m.(vals) (slice_ *! m.(c) +! i); Ok (i, x)
            else Ok (index, maxVal)) (0, maxVal)
      else if decide (axis = 1) then
        if decide (slice_ >= m.(c) ∨ slice_ < 0) then printErr IndexError
        else
          maxVal ← ld m.(vals) slice_;
          for_range 1 m.(r) (λ i '(index, maxVal),
            x ← ld m.(vals) (i *! m.(c) +! slice_);
            if fgt x maxVal then x ← ld m.(vals) (i *! m.(c) +! slice_); Ok (i, x)
            else Ok (index, maxVal)) (0, maxVal)
      else printErr AxisError
  | _ => printErr ArgumentCountError
  end.

(** *** Equality and copy *)

(** [Equals(n)]: the loop returns [false] at the first difference. *)
Definition Equals (m n : Mat) : result bool :=
  if decide (m.(r) ≠ n.(r)) then Ok false
  else if decide (m.(c) ≠ n.(c)) then Ok false
  else
    x ← for_range_ret 0 (m.(r) *! m.(c)) (λ i (_ : unit),
           a ← ld m.(vals) i;
           b ← ld n.(vals) i;
           if fne a b then Ok (inr false) else Ok (inl tt)) tt;
    match x with
    | inl _ => Ok true
    | inr b => Ok b
    end.

(** [Copy()] *)
Definition Copy (m : Mat) : result Mat :=
  n ← Newf [m.(r); m.(c)];
  Ok (with_vals n (copy n.(vals) m.(vals))).

(** *** The scratch-buffer pool of [work_pool.go] *)

(** The pool is a buffered channel of ten buckets; a bucket holds one
    slice.  The channel's content is the list of its buckets, oldest
    first. *)
Definition pool_capacity : nat := 10.

(** [get()]: the oldest bucket, or a fresh empty one when the channel is
    empty. *)
Definition get (p : list (list F)) : list F * list (list F) :=
  match p with
  | b :: p' => (b, p')
  | [] => ([], [])
  end.

(** [put(m)]: enqueue unless the channel is full. *)
Definition put (p : list (list F)) (b : list F) : list (list F) :=
  if decide (length p < pool_capacity)%nat then p ++ [b] else p.

(** *** Transpose *)

Definition isRowVector (m : Mat) : bool := bool_decide (m.(r) = 1).
Definition isColVector (m : Mat) : bool := bool_decide (m.(c) = 1).

(** [T()].  The deferred [put] returns the bucket once the copy is done. *)
Definition T (p : list (list F)) (m : Mat) : result (list (list F) * Mat) :=
  if isRowVector m || isColVector m then
    Ok (p, {| r := m.(c); c := m.(r); vals := m.(vals) |})
  else
    let '(n, p) := get p in
    n ← (if decide (len n < m.(c) *! m.(r)) then make f0 (m.(c) *! m.(r))
         else Ok n);
    '(n, _) ← for_range 0 m.(c) (λ i st0,
                 for_range 0 m.(r) (λ j '(n, idx),
                   v ← ld m.(vals) (j *! m.(c) +! i);
                   n ← st n idx v;
                   Ok (n, idx +! 1)) st0) (n, 0);
    Ok (put p n, {| r := m.(c); c := m.(r); vals := copy m.(vals) n |}).

(** *** Reductions *)

(** [Sum(args ...int)] *)
Definition Sum (m : Mat) (args : list Z) : result F :=
  match args with
  | [] => Ok (foldl fadd f0 m.(vals))
  | [axis; slice_] =>
      if decide (axis = 0) then
        if decide (slice_ >= m.(r) ∨ slice_ < 0) then printErr IndexError
        else for_range 0 m.(c) (λ i sum,
               x ← ld m.(vals) (slice_ *! m.(c) +! i); Ok (fadd sum x)) f0
      else if decide (axis = 1) then
        if decide (slice_ >= m.(c) ∨ slice_ < 0) then printErr IndexError
        else for_range 0 m.(r) (λ i sum,
               x ← ld m.(vals) (i *! m.(c) +! slice_); Ok (fadd sum x)) f0
      else printErr AxisError
  | _ => printErr ArgumentCountError
  end.

(** [Avg(args ...int)] *)
Definition Avg (m : Mat) (args : list Z) : result F :=
  match args with
  | [] => Ok (fdiv (foldl fadd f0 m.(vals)) (of_int (len m.(vals))))
  | [axis; slice_] =>
      if decide (axis = 0) then
        if decide (slice_ >= m.(r) ∨ slice_ < 0) then printErr IndexError
        else
          sum ← for_range 0 m.(c) (λ i sum,
                   x ← ld m.(vals) (slice_ *! m.(c) +! i); Ok (fadd sum x)) f0;
          Ok (fdiv sum (of_int m.(c)))
      else if decide (axis = 1) then
        if decide (slice_ >= m.(c) ∨ slice_ < 0) then printErr IndexError
        else
          sum ← for_range 0 m.(r) (λ i sum,
                   x ← ld m.(vals) (i *! m.(c) +! slice_); Ok (fadd sum x)) f0;
          Ok (fdiv sum (of_int m.(r)))
      else printErr AxisError
  | _ => printErr ArgumentCountError
  end.

(** [sum += ((avg - x) * (avg - x))] *)
Definition sq_dev (avg sum x : F) : F :=
  fadd sum (fmul (fsub avg x) (fsub avg x)).

(** [Std(args ...int)] *)
Definition Std (m : Mat) (args : list Z) : result F :=
  match args with
  | [] =>
      avg ← Avg m [];
      Ok (root_mean (foldl (sq_dev avg) f0 m.(vals)) (len m.(vals)))
  | [axis; slice_] =>
      if decide (axis = 0) then
        if decide (slice_ >= m.(r) ∨ slice_ < 0) then printErr IndexError
        else
          avg ← Avg m [axis; slice_];
          sum ← for_range 0 m.(c) (λ i sum,
                   x ← ld m.(vals) (slice_ *! m.(c) +! i);
                   Ok (sq_dev avg sum x)) f0;
          Ok (root_mean sum (len m.(vals)))
      else if decide (axis = 1) then
        if decide (slice_ >= m.(c) ∨ slice_ < 0) then printErr IndexError
        else
          avg ← Avg m [axis; slice_];
          sum ← for_range 0 m.(r) (λ i sum,
                   x ← ld m.(vals) (i *! m.(c) +! slice_);
                   Ok (sq_dev avg sum x)) f0;
          Ok (root_mean sum (len m.(vals)))
      else printErr AxisError
  | _ => printErr ArgumentCountError
  end.

(** *** Matrix multiplication *)

(** [dotf64Helper(a, b)] *)
Definition dotHelper (a b : list F) : result F :=
  a ← slice a 0 (len a);
  b ← slice b 0 (len a);
  for_range 0 (len a) (λ i sum,
    v ← ld a i; w ← ld b i; Ok (fadd sum (fmul v w))) f0.

(** The two loops of [Dot], run on the states [m] and [n] have when the
    loops start, that is after [n.T()]. *)
Definition Dot_loops (m n o : Mat) : result Mat :=
  for_range 0 m.(r) (λ i o,
    let imc := i *! m.(c) in
    mrow ← slice m.(vals) imc (imc +! m.(c));
    for_range 0 n.(r) (λ j o,
      let jnc := j *! n.(c) in
      nrow ← slice n.(vals) jnc (jnc +! n.(c));
      d ← dotHelper mrow nrow;
      l ← st o.(vals) (i *! n.(r) +! j) d;
      Ok (with_vals o l)) o) o.

(** [*Matf64]: a matrix object in the store. *)
Definition deref (h : gmap nat Mat) (p : nat) : result Mat :=
  match h !! p with
  | Some m => Ok m
  | None => Panic NilDereference
  end.

(** [m.Dot(n)] for the objects at [pm] and [pn], which may be one object.
    The result [o] is a new object, returned by value; [n.T()] and the
    deferred [n.T()] write the object at [pn]. *)
Definition Dot (h : gmap nat Mat) (p : list (list F)) (pm pn : nat)
  : result (gmap nat Mat * list (list F) * Mat) :=
  m ← deref h pm;
  n ← deref h pn;
  if decide (m.(c) ≠ n.(r)) then printErr DimensionError
  else
    o ← Newf [m.(r); n.(c)];
    '(p, n') ← T p n;
    let h := <[pn := n']> h in
    m ← deref h pm;
    n ← deref h pn;
    o ← Dot_loops m n o;
    '(p, n') ← T p n;
    Ok (<[pn := n']> h, p, o).

(** *** Structural growth *)

(** [AppendCol(v)] *)
Definition AppendCol (m : Mat) (v : list F) : result Mat :=
  if decide (m.(r) ≠ len v) then printErr ArityError
  else
    q ← ToSlice2D m;
    q ← for_range 0 (len q) (λ i q,
           row ← ld q i; x ← ld v i; st q i (row ++ [x])) q;
    let c' := m.(c) +! 1 in
    l ← for_range 0 m.(r) (λ i l,
           for_range 0 c' (λ j l,
             row ← ld q i; x ← ld row j; st l (i *! c' +! j) x) l)
           (m.(vals) ++ v);
    Ok {| r := m.(r); c := c'; vals := l |}.

(** [AppendRow(v)].  Both branches of the capacity test leave
    [m.vals] followed by [v] in [m.vals]. *)
Definition AppendRow (m : Mat) (v : list F) : result Mat :=
  if decide (m.(c) ≠ len v) then printErr ArityError
  else Ok {| r := m.(r) +! 1; c := m.(c); vals := m.(vals) ++ v |}.

(** [Concat(n)] *)
Definition Concat (m n : Mat) : result Mat :=
  if decide (m.(r) ≠ n.(r)) then printErr RowMismatchError
  else
    q ← ToSlice2D m;
    let t := ToSlice1D n in
    rows ← ToSlice2D n;
    q ← for_range 0 (len q) (λ i q,
           row ← ld q i; row' ← ld rows i; st q i (row ++ row')) q;
    let c' := m.(c) +! n.(c) in
    l ← for_range 0 m.(r) (λ i l,
           for_range 0 c' (λ j l,
             row ← ld q i; x ← ld row j; st l (i *! c' +! j) x) l)
           (m.(vals) ++ t);
    Ok {| r := m.(r); c := c'; vals := l |}.

(** [Append(n)]: [m.vals = append(m.vals, n.vals...)] and nothing else. *)
Definition Append (m n : Mat) : result Mat :=
  if decide (m.(c) ≠ n.(c)) then printErr ColumnMismatchError
  else Ok (with_vals m (m.(vals) ++ n.(vals))).

(** *** Elementwise arithmetic *)

(** [for i := range m.vals { m.vals[i] op= v }] *)
Definition scalar_op (op : F → F → F) (m : Mat) (v : F) : Mat :=
  with_vals m (map (λ x, op x v) m.(vals)).

(** Modelled from the spec: the elementwise kernels [Add], [Sub], [Mul] and
    [Div] of the packages vecf64 and vecf32, which the arithmetic methods
    call and which are not among the sources.  A kernel overwrites [a] with
    [a[i] op b[i]], for every [i] below [len(a)], after cutting [b] to the
    length of [a]. *)
Definition vec_op (op : F → F → F) (a b : list F) : result (list F) :=
  b ← slice b 0 (len a);
  Ok (zip_with op a b).

(** The [*Matf64] branch of the type switch in [Add], [Sub], [Mul] and
    [Div]. *)
Definition mat_op (op : F → F → F) (m v : Mat) : result Mat :=
  if decide (v.(r) ≠ m.(r)) then printErr ShapeMismatchError
  else if decide (v.(c) ≠ m.(c)) then printErr ShapeMismatchError
  else l ← vec_op op m.(vals) v.(vals); Ok (with_vals m l).

(** *** Elementwise maps and predicates *)

(** [Map(f)]: [f] is handed a pointer to each element in turn; it is
    given here by the value it leaves in the element it was handed. *)
Definition Map (m : Mat) (f : F → F) : result Mat :=
  l ← for_range 0 (len m.(vals)) (λ i l,
         x ← ld l i; st l i (f x)) m.(vals);
  Ok (with_vals m l).

(** [All(f)], for a predicate that only reads the element it is handed. *)
Definition All (m : Mat) (f : F → bool) : result bool :=
  x ← for_range_ret 0 (len m.(vals)) (λ i (_ : unit),
         e ← ld m.(vals) i;
         if negb (f e) then Ok (inr false) else Ok (inl tt)) tt;
  match x with
  | inl _ => Ok true
  | inr b => Ok b
  end.

(** [Any(f)] *)
Definition Any (m : Mat) (f : F → bool) : result bool :=
  x ← for_range_ret 0 (len m.(vals)) (λ i (_ : unit),
         e ← ld m.(vals) i;
         if f e then Ok (inr true) else Ok (inl tt)) tt;
  match x with
  | inl _ => Ok false
  | inr b => Ok b
  end.

(** [Prd(args ...int)] *)
Definition Prd (m : Mat) (args : list Z) : result F :=
  match args with
  | [] =>
      for_range 0 (len m.(vals)) (λ i prd,
        x ← ld m.(vals) i; Ok (fmul prd x)) f1
  | [axis; slice_] =>
      if decide (axis = 0) then
        if decide (slice_ >= m.(r) ∨ slice_ < 0) then printErr IndexError
        else for_range 0 m.(c) (λ i prd,
               x ← ld m.(vals) (slice_ *! m.(c) +! i); Ok (fmul prd x)) f1
      else if decide (axis = 1) then
        if decide (slice_ >= m.(c) ∨ slice_ < 0) then printErr IndexError
        else for_range 0 m.(r) (λ i prd,
               x ← ld m.(vals) (i *! m.(c) +! slice_); Ok (fmul prd x)) f1
      else printErr AxisError
  | _ => printErr ArgumentCountError
  end.

(** *** Construction from data *)

(** [make([]T, n, cap)]: the runtime refuses a negative length and a
    capacity below the length.  Its two panics are not told apart. *)
Definition make_cap {A : Type} (zero : A) (n cap : Z) : result (list A) :=
  if decide (0 <= n ∧ n <= cap) then Ok (replicate (Z.to_nat n) zero)
  else Panic MakesliceLenOutOfRange.

(** [matf64FromOneDSliceHelper(v, dims)].  Dimensions that do not match
    the data are reported through [printHelperErr], which prints and
    leaves the process as [printErr] does; the report is given here as a
    shape error, and a wrong number of dimensions as an argument count
    error. *)
Definition FromOneDSliceHelper (v : list F) (dims : list Z) : result Mat :=
  m ← Newf [];
  match dims with
  | [] =>
      l ← make_cap f0 (len v) (len v *! 2);
      Ok {| r := 1; c := len v; vals := copy l v |}
  | [d0] =>
      if decide (d0 ≠ len v) then printErr ShapeError
      else
        l ← make_cap f0 d0 (d0 *! 2);
        Ok {| r := d0; c := 1; vals := copy l v |}
  | [d0; d1] =>
      if decide (d0 *! d1 ≠ len v) then printErr ShapeError
      else
        l ← make_cap f0 (d0 *! d1) (d0 *! d1 *! 2);
        Ok {| r := d0; c := d1; vals := copy l v |}
  | _ => printErr ArgumentCountError
  end.

(** The loops the cases of the 2D helper share:
    [for i := range v { for j := range v[i] { m.vals[i*len(v[0])+j] = v[i][j] } }] *)
Definition fill_from_rows (v : list (list F)) (l : list F) : result (list F) :=
  for_range 0 (len v) (λ i l,
    row ← ld v i;
    for_range 0 (len row) (λ j l,
      v0 ← ld v 0;
      row ← ld v i;
      x ← ld row j;
      st l (i *! len v0 +! j) x) l) l.

(** [matf64FromTwoDSliceHelper(v, dims)] *)
Definition FromTwoDSliceHelper (v : list (list F)) (dims : list Z)
  : result Mat :=
  m ← Newf [];
  match dims with
  | [] =>
      v0 ← ld v 0;
      l ← make_cap f0 (len v *! len v0) (len v *! len v0 *! 2);
      l ← fill_from_rows v l;
      Ok {| r := len v; c := len v0; vals := l |}
  | [d0] =>
      v0 ← ld v 0;
      if decide (d0 *! d0 ≠ len v *! len v0) then printErr ShapeError
      else
        l ← make_cap f0 (d0 *! d0) (d0 *! d0 *! 2);
        l ← fill_from_rows v l;
        Ok {| r := d0; c := d0; vals := l |}
  | [d0; d1] =>
      if decide (d0 ≠ len v) then printErr ShapeError
      else
        v0 ← ld v 0;
        if decide (d1 ≠ len v0) then printErr ShapeError
        else
          l ← make_cap f0 (d0 *! d1) (d0 *! d1 *! 2);
          l ← fill_from_rows v l;
          Ok {| r := len v; c := len v0; vals := l |}
  | _ => printErr ArgumentCountError
  end.

End Engine.
Arguments Mat F : clear implicits.

(** ** The two element widths *)

(** [float64] is the kernel's binary64. *)
Definition float64 : Type := float.

(** [float64(n)] for an [int] [n]. *)
Definition float64_of_int (z : Z) : float64 :=
  if decide (z < 0) then PrimFloat.opp (PrimFloat.of_uint63 (Uint63.of_Z (- z)))
  else PrimFloat.of_uint63 (Uint63.of_Z z).

#[global] Instance float64_ops : FloatOps float64 := {|
  f0 := 0%float;
  f1 := 1%float;
  fadd := PrimFloat.add;
  fsub := PrimFloat.sub;
  fmul := PrimFloat.mul;
  fdiv := PrimFloat.div;
  flt := PrimFloat.ltb;
  feq := PrimFloat.eqb;
  of_int := float64_of_int;
  (* math.Sqrt(sum / float64(len(m.vals))) *)
  root_mean := λ sum n, PrimFloat.sqrt (PrimFloat.div sum (float64_of_int n))
|}.

(** [float32] is binary32: the specification floats of the standard library
    at precision 24 and maximal exponent 128. *)
Definition float32 : Type := spec_float.
Definition prec32 : Z := 24.
Definition emax32 : Z := 128.

(** Rounding of a binary floating-point value to binary32. *)
Definition round32 (x : spec_float) : float32 :=
  match x with
  | S754_finite s m e =>
      binary_normalize prec32 emax32 (if s then Z.neg m else Z.pos m) e s
  | _ => x
  end.

(** The conversions [float32(v)] of a [float64], [float64(v)] of a
    [float32], and [float32(n)] of an [int]. *)
Definition float32_of_float64 (v : float64) : float32 := round32 (Prim2SF v).
Definition float64_of_float32 (v : float32) : float64 := SF2Prim v.
Definition float32_of_int (z : Z) : float32 :=
  binary_normalize prec32 emax32 z 0 false.

#[global] Instance float32_ops : FloatOps float32 := {|
  f0 := S754_zero false;
  f1 := float32_of_int 1;
  fadd := SFadd prec32 emax32;
  fsub := SFsub prec32 emax32;
  fmul := SFmul prec32 emax32;
  fdiv := SFdiv prec32 emax32;
  flt := SFltb;
  feq := SFeqb;
  of_int := float32_of_int;
  (* float32(math.Sqrt(float64(sum) / float64(len(m.vals)))) *)
  root_mean := λ sum n,
    float32_of_float64
      (PrimFloat.sqrt (PrimFloat.div (float64_of_float32 sum) (float64_of_int n)))
|}.

Abbreviation Matf64 := (Mat float64).
Abbreviation Matf32 := (Mat float32).

(** The dynamic values the [interface{}] parameters of the library are
    called with. *)
Inductive dyn : Type :=
| VFloat64 (x : float64)
| VFloat32 (x : float32)
| VInt (z : Z)
| VSliceFloat64 (l : list float64)
| VSliceFloat32 (l : list float32)
| VMatf64 (m : Matf64)
| VMatf32 (m : Matf32).

(** *** Methods of [*Matf64] that switch on a dynamic type *)

Module Matf64.

Definition SetCol (m : Matf64) (col : Z) (floatOrSlice : dyn) : result Matf64 :=
  match floatOrSlice with
  | VFloat64 val => SetCol_float m col val
  | VSliceFloat64 val => SetCol_slice m col val
  | _ => printErr TypeError
  end.

Definition SetRow (m : Matf64) (row : Z) (floatOrSlice : dyn) : result Matf64 :=
  match floatOrSlice with
  | VFloat64 val => SetRow_float m row val
  | VSliceFloat64 val => SetRow_slice m row val
  | _ => printErr TypeError
  end.

Definition Mul (m : Matf64) (float64OrMatf64 : dyn) : result Matf64 :=
  match float64OrMatf64 with
  | VFloat64 v => Ok (scalar_op fmul m v)
  | VMatf64 v => mat_op fmul m v
  | _ => printErr TypeError
  end.

Definition Add (m : Matf64) (float64OrMatf64 : dyn) : result Matf64 :=
  match float64OrMatf64 with
  | VFloat64 v => Ok (scalar_op fadd m v)
  | VMatf64 v => mat_op fadd m v
  | _ => printErr TypeError
  end.

Definition Sub (m : Matf64) (float64OrMatf64 : dyn) : result Matf64 :=
  match float64OrMatf64 with
  | VFloat64 v => Ok (scalar_op fsub m v)
  | VMatf64 v => mat_op fsub m v
  | _ => printErr TypeError
  end.

Definition Div (m : Matf64) (float64OrMatf64 : dyn) : result Matf64 :=
  match float64OrMatf64 with
  | VFloat64 v => Ok (scalar_op fdiv m v)
  | VMatf64 v => mat_op fdiv m v
  | _ => printErr TypeError
  end.

End Matf64.

(** *** Methods of [*Matf32] that switch on a dynamic type *)

Module Matf32.

Definition SetCol (m : Matf32) (col : Z) (floatOrSlice : dyn) : result Matf32 :=
  match floatOrSlice with
  | VFloat64 val => SetCol_float m col (float32_of_float64 val)
  | VSliceFloat32 val => SetCol_slice m col val
  | _ => printErr TypeError
  end.

Definition SetRow (m : Matf32) (row : Z) (floatOrSlice : dyn) : result Matf32 :=
  match floatOrSlice with
  | VFloat64 val => SetRow_float m row (float32_of_float64 val)
  | VSliceFloat32 val => SetRow_slice m row val
  | _ => printErr TypeError
  end.

Definition Mul (m : Matf32) (float64OrMatf32 : dyn) : result Matf32 :=
  match float64OrMatf32 with
  | VFloat64 v => let v32 := float32_of_float64 v in Ok (scalar_op fmul m v32)
  | VMatf32 v => mat_op fmul m v
  | _ => printErr TypeError
  end.

Definition Add (m : Matf32) (float64OrMatf32 : dyn) : result Matf32 :=
  match float64OrMatf32 with
  | VFloat64 v => let v32 := float32_of_float64 v in Ok (scalar_op fadd m v32)
  | VMatf32 v => mat_op fadd m v
  | _ => printErr TypeError
  end.

(** The scalar case of [Sub] is [case float32:], where [Mul], [Add] and
    [Div] have [case float64:]. *)
Definition Sub (m : Matf32) (float64OrMatf32 : dyn) : result Matf32 :=
  match float64OrMatf32 with
  | VFloat32 v => let v32 := v in Ok (scalar_op fsub m v32)
  | VMatf32 v => mat_op fsub m v
  | _ => printErr TypeError
  end.

Definition Div (m : Matf32) (float64OrMatf32 : dyn) : result Matf32 :=
  match float64OrMatf32 with
  | VFloat64 v => let v32 := float32_of_float64 v in Ok (scalar_op fdiv m v32)
  | VMatf32 v => mat_op fdiv m v
  | _ => printErr TypeError
  end.

End Matf32.

(** ** Notions the statements use *)

Section Notions.
Context {F : Type} `{FloatOps F}.

(** The data model's invariant: non-negative dimensions, and a buffer of
    [rows * cols] elements (a length that a Go slice can have). *)
Definition wf (m : Mat F) : Prop :=
  0 <= m.(r) ∧ 0 <= m.(c) ∧
  len m.(vals) = m.(r) * m.(c) ∧
  m.(r) <= GoInt.max_int ∧ m.(c) <= GoInt.max_int ∧
  m.(r) * m.(c) <= GoInt.max_int.

(** The invariant as the data model words it, and nothing more. *)
Definition len_invariant (m : Mat F) : Prop :=
  len m.(vals) = m.(r) * m.(c).

(** Element [(i, j)] of a matrix, at offset [i * cols + j]. *)
Definition entry (m : Mat F) (i j : Z) : F :=
  default f0 (m.(vals) !! Z.to_nat (i * m.(c) + j)).

(** The sum over [k] of [m(i,k) * n(k,j)], accumulated from [0.0] in
    increasing order of [k]. *)
Definition dot_entry (m n : Mat F) (i j : Z) : F :=
  foldl (λ sum k, fadd sum (fmul (entry m i k) (entry n k j))) f0
        (seqZ 0 m.(c)).

(** The buffer of the transpose of a [rows] by [cols] buffer [l]: position
    [i * rows + j] holds [l[j * cols + i]]. *)
Definition transpose_vals (rows cols : Z) (l : list F) : list F :=
  (λ k, default f0 (l !! Z.to_nat (k `mod` rows * cols + k `div` rows)))
    <$> seqZ 0 (rows * cols).

Definition transpose (m : Mat F) : Mat F :=
  {| r := m.(c); c := m.(r); vals := transpose_vals m.(r) m.(c) m.(vals) |}.

(** No element differs from itself (none is a NaN). *)
Definition self_equal (l : list F) : Prop :=
  Forall (λ x, feq x x = true) l.

(** The population standard deviation of a list of [n] elements, with the
    operations and in the order [Std] uses for a whole matrix: the mean is
    the sum divided by [n], and the result is the root of the sum of the
    squared deviations from that mean divided by [n]. *)
Definition population_std (l : list F) : F :=
  let avg := fdiv (foldl fadd f0 l) (of_int (len l)) in
  root_mean (foldl (sq_dev avg) f0 l) (len l).

(** The elements of row [i], and of column [j]. *)
Definition row_elems (m : Mat F) (i : Z) : list F :=
  (λ k, entry m i k) <$> seqZ 0 m.(c).
Definition col_elems (m : Mat F) (j : Z) : list F :=
  (λ k, entry m k j) <$> seqZ 0 m.(r).

(** What the two loops of [T] have written once [idx] positions are
    filled. *)
Definition T_filled (m : Mat F) (size : Z) (idx : Z) (st0 : list F * Z) : Prop :=
  st0.2 = idx ∧ len st0.1 = size ∧
  ∀ k, 0 <= k < idx →
    st0.1 !! Z.to_nat k =
      Some (default f0 (m.(vals) !! Z.to_nat (k `mod` m.(r) * m.(c) + k `div` m.(r)))).

(** The accumulation [dotf64Helper] performs on two slices of [n]
    elements. *)
Definition row_dot (a b : list F) (n : Z) : F :=
  foldl (λ sum k,
           fadd sum (fmul (default f0 (a !! Z.to_nat k))
                          (default f0 (b !! Z.to_nat k)))) f0 (seqZ 0 n).

(** What the two loops of [Dot] have written into the result once its
    first [idx] positions are filled: position [q] holds [g] of its row
    and column. *)
Definition Dot_filled (g : Z → Z → F) (rows cols size idx : Z) (o : Mat F)
  : Prop :=
  o.(r) = rows ∧ o.(c) = cols ∧ len o.(vals) = size ∧
  ∀ q, 0 <= q < idx → o.(vals) !! Z.to_nat q = Some (g (q `div` cols) (q `mod` cols)).

(** The matrix [m'] is [m] with row [i] replaced by the elements [g]. *)
Definition row_replaced (m m' : Mat F) (i : Z) (g : Z → F) : Prop :=
  Shape m' = Shape m ∧ len_invariant m' ∧
  (∀ b, 0 <= b < m.(c) → entry m' i b = g b) ∧
  (∀ a b, 0 <= a < m.(r) → 0 <= b < m.(c) → a ≠ i →
          entry m' a b = entry m a b).

(** The matrix [m'] is [m] with column [j] replaced by the elements [g]. *)
Definition col_replaced (m m' : Mat F) (j : Z) (g : Z → F) : Prop :=
  Shape m' = Shape m ∧ len_invariant m' ∧
  (∀ a, 0 <= a < m.(r) → entry m' a j = g a) ∧
  (∀ a b, 0 <= a < m.(r) → 0 <= b < m.(c) → b ≠ j →
          entry m' a b = entry m a b).

(** The matrix [m'] is [m] with the columns of the rows [extra] put to
    the right of its own: row [i] of [m'] is row [i] of [m] followed by
    [extra i]. *)
Definition widened (m m' : Mat F) (width : Z) (extra : Z → Z → F) : Prop :=
  m'.(r) = m.(r) ∧ m'.(c) = m.(c) + width ∧ len_invariant m' ∧
  ∀ i, 0 <= i < m.(r) →
    (∀ j, 0 <= j < m.(c) → entry m' i j = entry m i j) ∧
    (∀ j, 0 <= j < width → entry m' i (m.(c) + j) = extra i j).

End Notions.

(** ** Inputs of the worked examples *)

(** The result of [Dot] alone. *)
Definition Dot_result {F : Type} `{FloatOps F} (h : gmap nat (Mat F))
    (p : list (list F)) (pm pn : nat) : result (Mat F) :=
  x ← Dot h p pm pn; Ok x.2.

(** [Newf64(rows, cols).SetAll(v)], and the same for float32. *)
Definition filled64 (rows cols : Z) (v : float64) : result Matf64 :=
  m ← Newf [rows; cols]; Ok (SetAll m v).
Definition filled32 (rows cols : Z) (v : float64) : result Matf32 :=
  m ← Newf [rows; cols]; Ok (SetAll m (float32_of_float64 v)).

Arguments filled64 (rows cols)%_Z v%_float.
Arguments filled32 (rows cols)%_Z v%_float.

(** [[1, 2], [3, 4]] *)
Definition square22 : Matf64 := {| r := 2; c := 2; vals := [1; 2; 3; 4]%float |}.

(** [[1, 2, 3], [4, 5, 6]] *)
Definition rect23 : Matf64 :=
  {| r := 2; c := 3; vals := [1; 2; 3; 4; 5; 6]%float |}.

(** [[1, 2], [3, 4], [5, 6]] *)
Definition rect32 : Matf64 :=
  {| r := 3; c := 2; vals := [1; 2; 3; 4; 5; 6]%float |}.

(** Four rows of two columns, the first row [1, 3]. *)
Definition tall42 : Matf64 :=
  {| r := 4; c := 2; vals := [1; 3; 0; 0; 0; 0; 0; 0]%float |}.
Definition tall42_f32 : Matf32 :=
  {| r := 4; c := 2; vals := float32_of_int <$> [1; 3; 0; 0; 0; 0; 0; 0] |}.

(** Two rows of four columns, the first column [1, 3]. *)
Definition wide24 : Matf64 :=
  {| r := 2; c := 4; vals := [1; 0; 0; 0; 3; 0; 0; 0]%float |}.

(** A computation that reports no fatal error: it returns or it panics. *)
Definition quiet {A : Type} (x : result A) : Prop := ∀ e, x ≠ Exit e.

(** The fatal errors of a call with an axis and an index: the index is
    outside [[0, dimension)] of the axis, or the axis is neither 0 nor
    1. *)
Definition axis_error {F : Type} (m : Mat F) (axis i : Z) (e : fatal) : Prop :=
  (e = IndexError ∧
     (axis = 0 ∧ ¬ (0 <= i < m.(r)) ∨ axis = 1 ∧ ¬ (0 <= i < m.(c)))) ∨
  (e = AxisError ∧ axis ≠ 0 ∧ axis ≠ 1).

(** [[1, 2, 3]] as one row, and as one column. *)
Definition rowvec3 : Matf64 := {| r := 1; c := 3; vals := [1; 2; 3]%float |}.
Definition colvec3 : Matf64 := {| r := 3; c := 1; vals := [1; 2; 3]%float |}.

(** The rows of [rect23] as a slice of slices. *)
Definition rows23 : list (list float64) := [[1; 2; 3]; [4; 5; 6]]%float.

(** Position [k] of a line of [n] elements [g 0], ..., [g (n - 1)] holds
    [v], no element of the line comes before [v] in the order [cmp], and
    no earlier position holds [v]. *)
Definition line_extreme {F : Type} (cmp : F → F → bool) (g : Z → F) (n k : Z)
    (v : F) : Prop :=
  0 <= k < n ∧ g k = v ∧
  (∀ q, 0 <= q < n → cmp (g q) v = false) ∧
  (∀ q, 0 <= q < k → g q ≠ v).

(** An order that is irreflexive and transitive. *)
Definition strict {F : Type} (cmp : F → F → bool) : Prop :=
  (∀ x, cmp x x = false) ∧
  (∀ x y z, cmp x y = true → cmp y z = true → cmp x z = true).

(** [[NaN, 2], [3, 4]] *)
Definition square22_nan : Matf64 :=
  {| r := 2; c := 2; vals := [nan; 2; 3; 4]%float |}.

(** * Facts *)

(** ** Integers that do not wrap *)

Lemma wrap_id z : GoInt.in_range z → GoInt.wrap z = z.
Proof.
  unfold GoInt.in_range, GoInt.wrap, GoInt.min_int, GoInt.max_int.
  intros Hz. rewrite Z.mod_small; lia.
Qed.

Lemma add_id a b : GoInt.in_range (a + b) → a +! b = a + b.
Proof. apply wrap_id. Qed.

Lemma sub_id a b : GoInt.in_range (a - b) → a -! b = a - b.
Proof. apply wrap_id. Qed.

Lemma mul_id a b : GoInt.in_range (a * b) → a *! b = a * b.
Proof. apply wrap_id. Qed.

Lemma neg_id a : GoInt.in_range (- a) → GoInt.neg a = - a.
Proof. apply wrap_id. Qed.

Lemma in_range_between lo hi z :
  GoInt.in_range lo → GoInt.in_range hi → lo <= z <= hi → GoInt.in_range z.
Proof. unfold GoInt.in_range. lia. Qed.

Lemma in_range_nonneg z : 0 <= z <= GoInt.max_int → GoInt.in_range z.
Proof. unfold GoInt.in_range, GoInt.min_int, GoInt.max_int. lia. Qed.

(** Offsets inside a [rows] by [cols] buffer. *)
Lemma offset_bounds rows cols i j :
  0 <= i < rows → 0 <= j < cols → 0 <= i * cols + j < rows * cols.
Proof. intros. nia. Qed.

Lemma offset_mul_bounds rows cols i :
  0 <= i < rows → 0 <= cols → 0 <= i * cols ∧ i * cols + cols <= rows * cols.
Proof. intros. nia. Qed.

Lemma offset_mod a b q : 0 <= b < q → (a * q + b) `mod` q = b.
Proof. intros Hb. symmetry. apply (Z.mod_unique_pos _ _ a); lia. Qed.

Lemma offset_div a b q : 0 <= b < q → (a * q + b) `div` q = a.
Proof. intros Hb. symmetry. apply (Z.div_unique_pos _ _ _ b); lia. Qed.

(** ** Loops *)

Section LoopFacts.
Context {S : Type}.
Implicit Types (body : Z → S → result S) (I : Z → S → Prop).

Lemma for_loop_inv I body n : ∀ i s,
  I i s →
  (∀ k t, i <= k < i + Z.of_nat n → I k t →
          ∃ t', body k t = Ok t' ∧ I (k + 1) t') →
  ∃ s', for_loop n i body s = Ok s' ∧ I (i + Z.of_nat n) s'.
Proof.
  induction n as [|n IH]; intros i s Hs Hstep; simpl.
  - exists s. by rewrite Z.add_0_r.
  - destruct (Hstep i s) as (t & Hb & Ht); [lia | done |].
    rewrite Hb. simpl.
    destruct (IH (i + 1) t Ht) as (s' & Hl & Hs').
    { intros k u Hk. apply Hstep. lia. }
    exists s'. split; [done|].
    by replace (i + Z.of_nat (Datatypes.S n)) with (i + 1 + Z.of_nat n) by lia.
Qed.

Lemma for_range_inv I body lo hi s :
  lo <= hi →
  I lo s →
  (∀ k t, lo <= k < hi → I k t → ∃ t', body k t = Ok t' ∧ I (k + 1) t') →
  ∃ s', for_range lo hi body s = Ok s' ∧ I hi s'.
Proof.
  intros Hle Hs Hstep. unfold for_range.
  destruct (for_loop_inv I body (Z.to_nat (hi - lo)) lo s Hs) as (s' & Hl & Hs').
  { intros k t Hk. apply Hstep. lia. }
  exists s'. split; [done|].
  by replace (lo + Z.of_nat (Z.to_nat (hi - lo))) with hi in Hs' by lia.
Qed.

Lemma for_range_empty body lo hi s : hi <= lo → for_range lo hi body s = Ok s.
Proof.
  intros Hle. unfold for_range.
  by replace (Z.to_nat (hi - lo)) with 0%nat by lia.
Qed.

(** A loop whose first iteration fails fails the same way. *)
Lemma for_range_first_panic body lo hi s p :
  lo < hi → body lo s = Panic p → for_range lo hi body s = Panic p.
Proof.
  intros Hlt Hb. unfold for_range.
  destruct (Z.to_nat (hi - lo)) as [|n] eqn:E; [lia|].
  simpl. by rewrite Hb.
Qed.

(** Two loops whose bodies agree on the range agree. *)
Lemma for_loop_ext body1 body2 n : ∀ i s,
  (∀ k t, i <= k < i + Z.of_nat n → body1 k t = body2 k t) →
  for_loop n i body1 s = for_loop n i body2 s.
Proof.
  induction n as [|n IH]; intros i s Hext; simpl; [done|].
  rewrite Hext by lia. destruct (body2 i s) as [t| |]; simpl; [|done|done].
  apply IH. intros k u Hk. apply Hext. lia.
Qed.

Lemma for_range_ext body1 body2 lo hi s :
  (∀ k t, lo <= k < hi → body1 k t = body2 k t) →
  for_range lo hi body1 s = for_range lo hi body2 s.
Proof.
  intros Hext. unfold for_range. apply for_loop_ext.
  intros k t Hk. apply Hext. lia.
Qed.

End LoopFacts.

(** ** Slices *)

Section SliceFacts.
Context {A : Type}.
Implicit Types (s : list A).

Lemma len_nonneg s : 0 <= len s.
Proof. unfold len. lia. Qed.

Lemma ld_Ok s i v :
  0 <= i → s !! Z.to_nat i = Some v → ld s i = Ok v.
Proof.
  intros Hi Hv. unfold ld.
  pose proof (lookup_lt_Some _ _ _ Hv) as Hlt.
  rewrite decide_True by (unfold len; lia). by rewrite Hv.
Qed.

Lemma ld_lookup s i :
  0 <= i < len s → ∃ v, ld s i = Ok v ∧ s !! Z.to_nat i = Some v.
Proof.
  intros Hi. unfold len in Hi.
  destruct (lookup_lt_is_Some_2 s (Z.to_nat i)) as [v Hv]; [lia|].
  exists v. split; [|done]. apply ld_Ok; [lia|done].
Qed.

Lemma ld_out_of_range s i : ¬ (0 <= i < len s) → ld s i = Panic IndexOutOfRange.
Proof. intros Hi. unfold ld. by rewrite decide_False. Qed.

Lemma ld_Ok_inv s i v : ld s i = Ok v → 0 <= i < len s ∧ s !! Z.to_nat i = Some v.
Proof.
  unfold ld. case_decide; [|done].
  destruct (s !! Z.to_nat i) eqn:E; [|done]. intros [= ->]. done.
Qed.

Lemma st_Ok s i v : 0 <= i < len s → st s i v = Ok (<[Z.to_nat i := v]> s).
Proof. intros Hi. unfold st. by rewrite decide_True. Qed.

Lemma st_out_of_range s i v :
  ¬ (0 <= i < len s) → st s i v = Panic IndexOutOfRange.
Proof. intros Hi. unfold st. by rewrite decide_False. Qed.

Lemma len_insert s (k : nat) v : len (<[k := v]> s) = len s.
Proof. unfold len. by rewrite length_insert. Qed.

Lemma len_app s t : len (s ++ t) = len s + len t.
Proof. unfold len. rewrite length_app. lia. Qed.

Lemma len_replicate (n : nat) (x : A) : len (replicate n x) = Z.of_nat n.
Proof. unfold len. by rewrite length_replicate. Qed.

Lemma make_Ok (zero : A) n :
  0 <= n → make zero n = Ok (replicate (Z.to_nat n) zero).
Proof. intros Hn. unfold make. by rewrite decide_True. Qed.

Lemma slice_Ok s lo hi :
  0 <= lo → lo <= hi → hi <= len s →
  slice s lo hi = Ok (take (Z.to_nat (hi - lo)) (drop (Z.to_nat lo) s)).
Proof. intros. unfold slice. by rewrite decide_True. Qed.

Lemma slice_whole s : slice s 0 (len s) = Ok s.
Proof.
  rewrite slice_Ok by (pose proof (len_nonneg s); lia).
  rewrite Z.sub_0_r. simpl. unfold len. rewrite Nat2Z.id.
  rewrite drop_0. by rewrite take_ge.
Qed.

Lemma len_slice_take s lo n :
  0 <= lo → 0 <= n → lo + n <= len s →
  len (take (Z.to_nat n) (drop (Z.to_nat lo) s)) = n.
Proof.
  intros. unfold len in *. rewrite length_take, length_drop. lia.
Qed.

Lemma lookup_slice_take s lo n (k : nat) :
  0 <= lo → Z.of_nat k < n →
  take (Z.to_nat n) (drop (Z.to_nat lo) s) !! k = s !! Z.to_nat (lo + Z.of_nat k).
Proof.
  intros Hlo Hk. rewrite lookup_take. rewrite decide_True by lia.
  rewrite lookup_drop. f_equal. lia.
Qed.

(** [copy] into a destination no longer than the source. *)
Lemma copy_short (dst src : list A) :
  (length dst <= length src)%nat → copy dst src = take (length dst) src.
Proof.
  intros Hle. unfold copy. rewrite drop_ge by done. by rewrite app_nil_r.
Qed.

Lemma copy_same_length (dst src : list A) : length dst = length src → copy dst src = src.
Proof.
  intros Hl. rewrite copy_short by lia. rewrite Hl. by apply take_ge.
Qed.

End SliceFacts.

(** ** Transpose *)

Section TransposeFacts.
Context {F : Type} `{FloatOps F}.
Implicit Types (m : Mat F) (l : list F) (p : list (list F)).

Lemma wf_in_range m :
  wf m → GoInt.in_range m.(r) ∧ GoInt.in_range m.(c) ∧
         GoInt.in_range (m.(r) * m.(c)).
Proof.
  intros (Hr & Hc & Hl & Hrm & Hcm & Hm).
  repeat split; apply in_range_nonneg; nia.
Qed.

Lemma length_transpose_vals rows cols l :
  length (transpose_vals rows cols l) = Z.to_nat (rows * cols).
Proof. unfold transpose_vals. by rewrite length_fmap, length_seqZ. Qed.

Lemma lookup_transpose_vals rows cols l k :
  0 <= k < rows * cols →
  transpose_vals rows cols l !! Z.to_nat k =
    Some (default f0 (l !! Z.to_nat (k `mod` rows * cols + k `div` rows))).
Proof.
  intros Hk. unfold transpose_vals. rewrite list_lookup_fmap.
  rewrite lookup_seqZ_lt by lia. simpl. by rewrite Z2Nat.id by lia.
Qed.

Lemma wf_transpose m : wf m → wf (transpose m).
Proof.
  intros (Hr & Hc & Hl & Hrm & Hcm & Hm). unfold wf, transpose; simpl.
  repeat split; try lia.
  unfold len. rewrite length_transpose_vals. lia.
Qed.

(** The transpose of a row or column vector has the buffer it had. *)
Lemma transpose_vals_vector rows cols l :
  len l = rows * cols → 0 <= rows → 0 <= cols → rows = 1 ∨ cols = 1 →
  transpose_vals rows cols l = l.
Proof.
  intros Hl Hr Hc Hv. apply list_eq. intros k.
  destruct (decide (Z.of_nat k < rows * cols)) as [Hk|Hk].
  - replace k with (Z.to_nat (Z.of_nat k)) at 1 by lia.
    rewrite lookup_transpose_vals by lia.
    assert (Z.of_nat k `mod` rows * cols + Z.of_nat k `div` rows = Z.of_nat k)
      as ->.
    { destruct Hv as [-> | ->].
      - rewrite Z.mod_1_r, Z.div_1_r. lia.
      - rewrite Z.mod_small, Z.div_small by lia. lia. }
    rewrite Nat2Z.id.
    destruct (lookup_lt_is_Some_2 l k) as [v ->]; [unfold len in Hl; lia|done].
  - rewrite !lookup_ge_None_2; [done| |].
    + unfold len in Hl. lia.
    + rewrite length_transpose_vals. lia.
Qed.

(** Transposing twice gives the buffer back. *)
Lemma transpose_vals_involutive rows cols l :
  len l = rows * cols → 0 <= rows → 0 <= cols →
  transpose_vals cols rows (transpose_vals rows cols l) = l.
Proof.
  intros Hl Hr Hc. apply list_eq. intros k.
  destruct (decide (Z.of_nat k < rows * cols)) as [Hk|Hk].
  - assert (0 < rows ∧ 0 < cols) as [Hr0 Hc0] by nia.
    replace k with (Z.to_nat (Z.of_nat k)) at 1 by lia.
    rewrite lookup_transpose_vals by lia.
    set (z := Z.of_nat k).
    assert (0 <= z `mod` cols < cols) as Hmod by (apply Z.mod_pos_bound; lia).
    assert (0 <= z `div` cols < rows) as Hdiv.
    { split; [apply Z.div_pos; lia|]. apply Z.div_lt_upper_bound; lia. }
    rewrite lookup_transpose_vals by nia.
    simpl.
    rewrite offset_mod, offset_div by lia.
    assert (z `div` cols * cols + z `mod` cols = z) as ->.
    { pose proof (Z.div_mod z cols). lia. }
    subst z. rewrite Nat2Z.id.
    destruct (lookup_lt_is_Some_2 l k) as [v ->]; [unfold len in Hl; lia|done].
  - rewrite !lookup_ge_None_2; [done| |].
    + unfold len in Hl. lia.
    + rewrite length_transpose_vals. lia.
Qed.

Lemma transpose_involutive m : wf m → transpose (transpose m) = m.
Proof.
  intros (Hr & Hc & Hl & _). destruct m as [rows cols l]; simpl in *.
  unfold transpose; simpl. f_equal. by apply transpose_vals_involutive.
Qed.

(** The fast path: a row or column vector only swaps its dimensions. *)
Lemma T_vector p m :
  wf m → m.(r) = 1 ∨ m.(c) = 1 → T p m = Ok (p, transpose m).
Proof.
  intros (Hr & Hc & Hl & _) Hv. unfold T, isRowVector, isColVector.
  assert (bool_decide (m.(r) = 1) || bool_decide (m.(c) = 1) = true) as ->.
  { destruct Hv as [E|E]; rewrite (bool_decide_eq_true_2 _ E);
      [done | by rewrite orb_true_r]. }
  unfold transpose. by rewrite transpose_vals_vector.
Qed.

Lemma T_inner_loop m size i st0 :
  wf m → m.(r) * m.(c) <= size → 0 <= i < m.(c) →
  T_filled m size (i * m.(r)) st0 →
  ∃ st1,
    for_range 0 m.(r) (λ j '(n, idx),
      v ← ld m.(vals) (j *! m.(c) +! i);
      n ← st n idx v;
      Ok (n, idx +! 1)) st0 = Ok st1 ∧
    T_filled m size ((i + 1) * m.(r)) st1.
Proof.
  intros Hwf Hsize Hi Hst.
  pose proof Hwf as (Hr & Hc & Hl & Hrm & Hcm & Hm).
  destruct (for_range_inv (λ j, T_filled m size (i * m.(r) + j))
    (λ j '(n, idx),
      v ← ld m.(vals) (j *! m.(c) +! i);
      n ← st n idx v;
      Ok (n, idx +! 1)) 0 m.(r) st0) as (st1 & Hrun & Hfin); [done| | |].
  - by rewrite Z.add_0_r.
  - intros j [n idx] Hj (Hidx & Hn & Hfill); simpl in *. subst idx.
    pose proof (offset_bounds m.(r) m.(c) j i Hj Hi) as Hoff.
    rewrite (mul_id j) by (apply in_range_nonneg; nia).
    rewrite (add_id (j * m.(c))) by (apply in_range_nonneg; nia).
    rewrite (add_id (i * m.(r) + j)) by (apply in_range_nonneg; nia).
    destruct (ld_lookup m.(vals) (j * m.(c) + i)) as (v & -> & Hv); [lia|].
    simpl. rewrite st_Ok by nia. simpl.
    eexists. split; [done|]. split; [simpl; lia|]. split; [simpl|].
    { by rewrite len_insert. }
    intros k Hk; simpl.
    destruct (decide (k = i * m.(r) + j)) as [->|Hne].
    + rewrite list_lookup_insert_eq by (unfold len in Hn; nia).
      rewrite offset_mod, offset_div by lia. by rewrite Hv.
    + rewrite list_lookup_insert_ne by lia. apply Hfill. lia.
  - exists st1. split; [done|].
    by replace ((i + 1) * m.(r)) with (i * m.(r) + m.(r)) by lia.
Qed.

(** The general path: through the pool, whatever the pool holds. *)
Lemma T_general p m :
  wf m → m.(r) ≠ 1 → m.(c) ≠ 1 → ∃ p', T p m = Ok (p', transpose m).
Proof.
  intros Hwf Hr1 Hc1.
  pose proof Hwf as (Hr & Hc & Hl & Hrm & Hcm & Hm).
  unfold T, isRowVector, isColVector.
  rewrite !bool_decide_eq_false_2 by done. simpl.
  destruct (get p) as [n0 p0].
  rewrite (mul_id m.(c)) by (apply in_range_nonneg; nia).
  set (n1 := if decide (len n0 < m.(c) * m.(r))
             then make f0 (m.(c) * m.(r)) else Ok n0).
  assert (∃ n, n1 = Ok n ∧ m.(r) * m.(c) <= len n) as (n & -> & Hn).
  { subst n1. case_decide.
    - rewrite make_Ok by nia. eexists. split; [done|].
      rewrite len_replicate. lia.
    - exists n0. split; [done|lia]. }
  simpl.
  destruct (for_range_inv (λ i, T_filled m (len n) (i * m.(r)))
    (λ i st0, for_range 0 m.(r) (λ j '(n, idx),
      v ← ld m.(vals) (j *! m.(c) +! i);
      n ← st n idx v;
      Ok (n, idx +! 1)) st0) 0 m.(c) (n, 0)) as ([n' idx] & -> & Hfin);
    [done| | |].
  - split; [simpl; lia|]. split; [done|]. intros k Hk. lia.
  - intros i st0 Hi Hst. apply T_inner_loop; [done|lia|done|done].
  - simpl. exists (put p0 n').
    destruct Hfin as (_ & Hlen & Hfill); simpl in *.
    unfold transpose. do 3 f_equal.
    rewrite copy_short by (unfold len in *; lia).
    apply list_eq. intros k.
    destruct (decide (Z.of_nat k < m.(r) * m.(c))) as [Hk|Hk].
    + rewrite lookup_take, decide_True by (unfold len in Hl; lia).
      replace k with (Z.to_nat (Z.of_nat k)) by lia.
      rewrite lookup_transpose_vals by lia. apply Hfill. lia.
    + rewrite !lookup_ge_None_2; [done| |].
      * rewrite length_transpose_vals. lia.
      * rewrite length_take. unfold len in *. lia.
Qed.

Lemma T_spec p m : wf m → ∃ p', T p m = Ok (p', transpose m).
Proof.
  intros Hwf.
  destruct (decide (m.(r) = 1)) as [E1|N1];
    [eexists; apply T_vector; auto|].
  destruct (decide (m.(c) = 1)) as [E2|N2];
    [eexists; apply T_vector; auto|].
  by apply T_general.
Qed.

End TransposeFacts.

(** ** Equality and copy *)

Section EqualityFacts.
Context {F : Type} `{FloatOps F}.
Implicit Types (m : Mat F) (l : list F).

Lemma for_loop_ret_all {S R : Type} (body : Z → S → result (S + R)) s n : ∀ i,
  (∀ k, i <= k < i + Z.of_nat n → body k s = Ok (inl s)) →
  for_loop_ret n i body s = Ok (inl s).
Proof.
  induction n as [|n IH]; intros i Hall; simpl; [done|].
  rewrite Hall by lia. simpl. apply IH. intros k Hk. apply Hall. lia.
Qed.

Lemma for_range_ret_all {S R : Type} (body : Z → S → result (S + R)) s lo hi :
  (∀ k, lo <= k < hi → body k s = Ok (inl s)) →
  for_range_ret lo hi body s = Ok (inl s).
Proof.
  intros Hall. unfold for_range_ret. apply for_loop_ret_all.
  intros k Hk. apply Hall. lia.
Qed.

Lemma Newf_2 rows cols :
  0 <= rows * cols <= GoInt.max_int →
  Newf (F:=F) [rows; cols] =
    Ok {| r := rows; c := cols; vals := replicate (Z.to_nat (rows * cols)) f0 |}.
Proof.
  intros Hb. unfold Newf. rewrite mul_id by (by apply in_range_nonneg).
  rewrite make_Ok by lia. done.
Qed.

(** A copy of a well-formed matrix has its shape and its elements. *)
Lemma Copy_wf m : wf m → Copy m = Ok m.
Proof.
  intros (Hr & Hc & Hl & Hrm & Hcm & Hm). unfold Copy.
  rewrite Newf_2 by nia. simpl. unfold with_vals; simpl.
  rewrite copy_same_length.
  - by destruct m.
  - rewrite length_replicate. unfold len in Hl. lia.
Qed.

(** A matrix without NaN equals itself. *)
Lemma Equals_refl m : wf m → self_equal m.(vals) → Equals m m = Ok true.
Proof.
  intros (Hr & Hc & Hl & Hrm & Hcm & Hm) Hself. unfold Equals.
  rewrite !decide_False by (intros E; by apply E).
  rewrite mul_id by (apply in_range_nonneg; nia).
  rewrite for_range_ret_all; [done|].
  intros k Hk.
  destruct (ld_lookup m.(vals) k) as (v & -> & Hv); [lia|]. simpl.
  unfold fne. unfold self_equal in Hself.
  rewrite Forall_lookup in Hself. by rewrite (Hself _ _ Hv).
Qed.

End EqualityFacts.

(** ** Matrix multiplication *)

Section DotFacts.
Context {F : Type} `{FloatOps F}.
Implicit Types (m n o : Mat F) (a b l : list F) (p : list (list F)).

Lemma foldl_ext_in {A B} (f g : A → B → A) (xs : list B) : ∀ acc : A,
  (∀ s k, k ∈ xs → f s k = g s k) → foldl f acc xs = foldl g acc xs.
Proof.
  induction xs as [|x xs IH]; intros acc Hext; simpl; [done|].
  rewrite Hext by apply list_elem_of_here.
  apply IH. intros s k Hk. apply Hext. by apply list_elem_of_further.
Qed.

Lemma dotHelper_spec a b :
  len a <= len b → dotHelper a b = Ok (row_dot a b (len a)).
Proof.
  intros Hab. pose proof (len_nonneg a) as Ha. unfold dotHelper.
  rewrite slice_whole. simpl.
  rewrite slice_Ok by lia. simpl. rewrite Z.sub_0_r, drop_0.
  set (b' := take (Z.to_nat (len a)) b).
  destruct (for_range_inv (λ k (sum : F), sum = row_dot a b k)
    (λ i sum, v ← ld a i; w ← ld b' i; Ok (fadd sum (fmul v w)))
    0 (len a) f0) as (s' & -> & ->); [done|done| |done].
  intros k sum Hk ->.
  destruct (ld_lookup a k) as (v & -> & Hv); [lia|]. simpl.
  assert (b' !! Z.to_nat k = b !! Z.to_nat k) as Hb'.
  { subst b'. rewrite lookup_take. by rewrite decide_True by lia. }
  destruct (ld_lookup b' k) as (w & -> & Hw).
  { subst b'. unfold len in *. rewrite length_take. lia. }
  simpl. eexists. split; [done|].
  unfold row_dot. rewrite (seqZ_app 0 k 1) by lia.
  rewrite foldl_app. simpl.
  replace (Z.of_nat 0 + (0 + k)) with k by lia.
  rewrite Hv, <- Hb', Hw. done.
Qed.

(** A row of a well-formed matrix, as a slice of its buffer. *)
Lemma slice_row m i :
  wf m → 0 <= i < m.(r) →
  ∃ row, slice m.(vals) (i *! m.(c)) (i *! m.(c) +! m.(c)) = Ok row ∧
         len row = m.(c) ∧
         ∀ k, 0 <= k < m.(c) → row !! Z.to_nat k = Some (entry m i k).
Proof.
  intros (Hr & Hc & Hl & Hrm & Hcm & Hm) Hi.
  pose proof (offset_mul_bounds m.(r) m.(c) i Hi Hc) as [Hlo Hhi].
  rewrite (mul_id i) by (apply in_range_nonneg; nia).
  rewrite add_id by (apply in_range_nonneg; nia).
  rewrite slice_Ok by lia.
  replace (i * m.(c) + m.(c) - i * m.(c)) with m.(c) by lia.
  eexists. split; [done|]. split.
  - apply len_slice_take; lia.
  - intros k Hk.
    rewrite lookup_slice_take by lia.
    replace (Z.of_nat (Z.to_nat k)) with k by lia.
    unfold entry.
    destruct (lookup_lt_is_Some_2 m.(vals) (Z.to_nat (i * m.(c) + k)))
      as [v Hv]; [unfold len in Hl; nia|]. by rewrite Hv.
Qed.

Lemma row_dot_entries m n i j a b :
  (∀ k, 0 <= k < m.(c) → a !! Z.to_nat k = Some (entry m i k)) →
  (∀ k, 0 <= k < m.(c) → b !! Z.to_nat k = Some (entry n j k)) →
  row_dot a b m.(c) =
    foldl (λ sum k, fadd sum (fmul (entry m i k) (entry n j k))) f0
          (seqZ 0 m.(c)).
Proof.
  intros Ha Hb. unfold row_dot. apply foldl_ext_in.
  intros s k Hk. apply elem_of_seqZ in Hk.
  rewrite Ha, Hb by lia. done.
Qed.

(** The two loops of [Dot], on a receiver [m] and an argument [n] that is
    already transposed: entry [(i, j)] of the result pairs row [i] of [m]
    with row [j] of [n]. *)
Lemma Dot_loops_spec m n o :
  wf m → wf n → n.(c) = m.(c) →
  o.(r) = m.(r) → o.(c) = n.(r) → len o.(vals) = m.(r) * n.(r) →
  m.(r) * n.(r) <= GoInt.max_int →
  ∃ o',
    Dot_loops m n o = Ok o' ∧
    Dot_filled
      (λ i j, foldl (λ sum k, fadd sum (fmul (entry m i k) (entry n j k))) f0
                    (seqZ 0 m.(c)))
      m.(r) n.(r) (m.(r) * n.(r)) (m.(r) * n.(r)) o'.
Proof.
  intros Hwm Hwn Hcc Hor Hoc Hol Hfit.
  pose proof Hwm as (Hr & Hc & Hl & Hrm & Hcm & Hm).
  pose proof Hwn as (Hnr & Hnc & Hnl & Hnrm & Hncm & Hnm).
  set (g := λ i j, foldl (λ sum k, fadd sum (fmul (entry m i k) (entry n j k)))
                         f0 (seqZ 0 m.(c))).
  set (J := Dot_filled g m.(r) n.(r) (m.(r) * n.(r))).
  unfold Dot_loops.
  destruct (for_range_inv (λ i, J (i * n.(r))) (λ i o,
    let imc := i *! m.(c) in
    mrow ← slice m.(vals) imc (imc +! m.(c));
    for_range 0 n.(r) (λ j o,
      let jnc := j *! n.(c) in
      nrow ← slice n.(vals) jnc (jnc +! n.(c));
      d ← dotHelper mrow nrow;
      l ← st o.(vals) (i *! n.(r) +! j) d;
      Ok (with_vals o l)) o) 0 m.(r) o) as (o' & Hrun & Hfin); [done| | |].
  - repeat split; [done..|]. intros q Hq. lia.
  - intros i o1 Hi Ho1. simpl.
    destruct (slice_row m i Hwm Hi) as (mrow & -> & Hmlen & Hmrow). simpl.
    destruct (for_range_inv (λ j, J (i * n.(r) + j)) (λ j o,
      let jnc := j *! n.(c) in
      nrow ← slice n.(vals) jnc (jnc +! n.(c));
      d ← dotHelper mrow nrow;
      l ← st o.(vals) (i *! n.(r) +! j) d;
      Ok (with_vals o l)) 0 n.(r) o1) as (o2 & Hrun2 & Hfin2); [done| | |].
    + by rewrite Z.add_0_r.
    + intros j o3 Hj (Ho3r & Ho3c & Ho3l & Ho3f). simpl.
      destruct (slice_row n j Hwn Hj) as (nrow & -> & Hnlen & Hnrow). simpl.
      rewrite dotHelper_spec by lia. simpl.
      pose proof (offset_bounds m.(r) n.(r) i j Hi Hj) as Hoff.
      rewrite (mul_id i) by (apply in_range_nonneg; nia).
      rewrite add_id by (apply in_range_nonneg; nia).
      rewrite st_Ok by lia. simpl.
      eexists. split; [done|]. unfold J, Dot_filled, with_vals; simpl.
      split; [done|]. split; [done|]. split; [by rewrite len_insert|].
      intros q Hq. destruct (decide (q = i * n.(r) + j)) as [->|Hne].
      * rewrite list_lookup_insert_eq by (unfold len in Ho3l; lia).
        rewrite offset_div, offset_mod by lia. f_equal.
        rewrite Hmlen. subst g; simpl. apply row_dot_entries; [done|].
        rewrite <- Hcc. done.
      * rewrite list_lookup_insert_ne by lia. apply Ho3f. lia.
    + exists o2. split; [done|].
      by replace ((i + 1) * n.(r)) with (i * n.(r) + n.(r)) by lia.
  - exists o'. split; [done|]. done.
Qed.

(** Rows of the transpose are columns of the matrix. *)
Lemma entry_transpose n j k :
  wf n → 0 <= j < n.(c) → 0 <= k < n.(r) →
  entry (transpose n) j k = entry n k j.
Proof.
  intros (Hnr & Hnc & Hnl & _) Hj Hk. unfold entry, transpose; simpl.
  rewrite lookup_transpose_vals by nia.
  rewrite offset_mod, offset_div by lia. done.
Qed.

Lemma dot_entry_transpose m n i j :
  wf n → m.(c) = n.(r) → 0 <= j < n.(c) →
  foldl (λ sum k, fadd sum (fmul (entry m i k) (entry (transpose n) j k))) f0
        (seqZ 0 m.(c)) = dot_entry m n i j.
Proof.
  intros Hwn Hcr Hj. unfold dot_entry. apply foldl_ext_in.
  intros s k Hk. apply elem_of_seqZ in Hk.
  rewrite entry_transpose by (done || lia). done.
Qed.

(** [m.Dot(n)] on two objects: the product, and a store left as it was. *)
Lemma Dot_distinct (h : gmap nat (Mat F)) p pm pn m n :
  h !! pm = Some m → h !! pn = Some n → pm ≠ pn →
  wf m → wf n → m.(c) = n.(r) → m.(r) * n.(c) <= GoInt.max_int →
  ∃ p' o,
    Dot h p pm pn = Ok (h, p', o) ∧
    o.(r) = m.(r) ∧ o.(c) = n.(c) ∧ len o.(vals) = m.(r) * n.(c) ∧
    ∀ i j, 0 <= i < m.(r) → 0 <= j < n.(c) →
      o.(vals) !! Z.to_nat (i * n.(c) + j) = Some (dot_entry m n i j).
Proof.
  intros Hm Hn Hne Hwm Hwn Hcr Hfit.
  pose proof Hwm as (Hr & Hc & Hl & Hrm & Hcm & Hmm).
  pose proof Hwn as (Hnr & Hnc & Hnl & Hnrm & Hncm & Hnm).
  unfold Dot, deref. rewrite Hm, Hn. cbn [mbind result_bind].
  rewrite decide_False by (intros E; by apply E).
  rewrite Newf_2 by nia. cbn [mbind result_bind].
  destruct (T_spec p n Hwn) as (p1 & ->). simpl.
  rewrite (lookup_insert_ne _ pn pm) by (intros E; apply Hne; symmetry; exact E).
  rewrite Hm. simpl.
  rewrite lookup_insert_eq. simpl.
  pose proof (wf_transpose n Hwn) as Hwt.
  destruct (Dot_loops_spec m (transpose n)
              {| r := m.(r); c := n.(c);
                 vals := replicate (Z.to_nat (m.(r) * n.(c))) f0 |})
    as (o & -> & Hor & Hoc & Hol & Hof); simpl; try done.
  { rewrite len_replicate. nia. }
  simpl in *.
  destruct (T_spec p1 (transpose n) Hwt) as (p2 & ->). simpl.
  rewrite transpose_involutive by done.
  rewrite insert_insert_eq, insert_id by done.
  exists p2, o. repeat split; try done.
  intros i j Hi Hj.
  pose proof (offset_bounds m.(r) n.(c) i j Hi Hj) as Hoff.
  rewrite Hof by lia. rewrite offset_div, offset_mod by lia.
  f_equal. by apply dot_entry_transpose.
Qed.

Lemma Dot_dimension_mismatch (h : gmap nat (Mat F)) p pm pn m n :
  h !! pm = Some m → h !! pn = Some n → m.(c) ≠ n.(r) →
  Dot h p pm pn = Exit DimensionError.
Proof.
  intros Hm Hn Hne. unfold Dot, deref. rewrite Hm, Hn.
  cbn [mbind result_bind]. by rewrite decide_True.
Qed.

End DotFacts.

(** ** Search *)

Section SearchFacts.
Context {F : Type} `{FloatOps F}.
Implicit Types (m : Mat F) (l : list F).

(** The scan of [Min()] and [Max()] over a buffer, with either
    comparison: every read is inside the buffer, and the result is a
    position of the buffer with the element it holds. *)
Lemma scan_in_bounds (cmp : F → F → bool) l v0 :
  l !! 0%nat = Some v0 →
  ∃ i v,
    for_range 1 (len l) (λ i '(index, best),
      x ← ld l i;
      if cmp x best then x ← ld l i; Ok (i, x) else Ok (index, best))
      (0, v0) = Ok (i, v) ∧
    0 <= i < len l ∧ l !! Z.to_nat i = Some v.
Proof.
  intros H0. pose proof (lookup_lt_Some _ _ _ H0) as Hlen.
  destruct (for_range_inv
    (λ (_ : Z) (s : Z * F), 0 <= s.1 < len l ∧ l !! Z.to_nat s.1 = Some s.2)
    (λ i '(index, best),
      x ← ld l i;
      if cmp x best then x ← ld l i; Ok (i, x) else Ok (index, best))
    1 (len l) (0, v0)) as ([i v] & Hrun & Hi & Hv).
  - unfold len. lia.
  - simpl. split; [unfold len; lia|done].
  - intros k [index best] Hk [Hidx Hbest]; cbn [fst snd] in *.
    destruct (ld_lookup l k) as (x & Hx & Hlx); [lia|].
    rewrite Hx. cbn [mbind result_bind]. destruct (cmp x best).
    + cbn [mbind result_bind]. eexists. split; [done|].
      cbn [fst snd]. split; [lia|done].
    + eexists. split; [done|]. done.
  - exists i, v. done.
Qed.

Lemma Min_nonempty m :
  0 < len m.(vals) →
  ∃ i v, Min m [] = Ok (i, v) ∧
         0 <= i < len m.(vals) ∧ m.(vals) !! Z.to_nat i = Some v.
Proof.
  intros Hlen. unfold Min.
  destruct (ld_lookup m.(vals) 0) as (v0 & -> & Hv0); [lia|]. simpl.
  by apply scan_in_bounds.
Qed.

Lemma Max_nonempty m :
  0 < len m.(vals) →
  ∃ i v, Max m [] = Ok (i, v) ∧
         0 <= i < len m.(vals) ∧ m.(vals) !! Z.to_nat i = Some v.
Proof.
  intros Hlen. unfold Max.
  destruct (ld_lookup m.(vals) 0) as (v0 & -> & Hv0); [lia|]. simpl.
  by apply (scan_in_bounds fgt).
Qed.

Lemma Min_empty m : len m.(vals) = 0 → Min m [] = Panic IndexOutOfRange.
Proof. intros Hlen. unfold Min. rewrite ld_out_of_range by lia. done. Qed.

Lemma Max_empty m : len m.(vals) = 0 → Max m [] = Panic IndexOutOfRange.
Proof. intros Hlen. unfold Max. rewrite ld_out_of_range by lia. done. Qed.

End SearchFacts.

(** ** Rows and columns *)

Section RowColFacts.
Context {F : Type} `{FloatOps F}.
Implicit Types (m : Mat F) (l : list F).

Lemma neg_rows m : wf m → GoInt.neg m.(r) = - m.(r).
Proof.
  intros (Hr & Hc & Hl & Hrm & Hcm & Hm). apply neg_id.
  unfold GoInt.in_range, GoInt.min_int, GoInt.max_int in *. lia.
Qed.

Lemma neg_cols m : wf m → GoInt.neg m.(c) = - m.(c).
Proof.
  intros (Hr & Hc & Hl & Hrm & Hcm & Hm). apply neg_id.
  unfold GoInt.in_range, GoInt.min_int, GoInt.max_int in *. lia.
Qed.

Lemma add_rows m i : wf m → - m.(r) <= i < 0 → m.(r) +! i = m.(r) + i.
Proof.
  intros (Hr & Hc & Hl & Hrm & Hcm & Hm) Hi. apply add_id.
  apply in_range_nonneg. lia.
Qed.

Lemma add_cols m j : wf m → - m.(c) <= j < 0 → m.(c) +! j = m.(c) + j.
Proof.
  intros (Hr & Hc & Hl & Hrm & Hcm & Hm) Hj. apply add_id.
  apply in_range_nonneg. lia.
Qed.

(** A negative row index selects the row it resolves to. *)
Lemma Row_negative m i :
  wf m → - m.(r) <= i < 0 → Row m i = Row m (m.(r) + i).
Proof.
  intros Hwf Hi. unfold Row. rewrite neg_rows by done.
  rewrite !decide_False by lia.
  destruct (decide (i >= 0)); [lia|].
  destruct (decide (m.(r) + i >= 0)); [|lia].
  by rewrite add_rows.
Qed.

Lemma Col_negative m j :
  wf m → - m.(c) <= j < 0 → Col m j = Col m (m.(c) + j).
Proof.
  intros Hwf Hj. unfold Col. rewrite neg_cols by done.
  rewrite !decide_False by lia.
  destruct (decide (j >= 0)); [lia|].
  destruct (decide (m.(c) + j >= 0)); [|lia].
  by rewrite add_cols.
Qed.

Lemma SetRow_float_negative m i v :
  wf m → - m.(r) <= i < 0 → SetRow_float m i v = SetRow_float m (m.(r) + i) v.
Proof.
  intros Hwf Hi. unfold SetRow_float. rewrite neg_rows by done.
  rewrite !decide_False by lia.
  destruct (decide (i >= 0)); [lia|].
  destruct (decide (m.(r) + i >= 0)); [|lia].
  by rewrite add_rows.
Qed.

Lemma SetCol_float_negative m j v :
  wf m → - m.(c) <= j < 0 → SetCol_float m j v = SetCol_float m (m.(c) + j) v.
Proof.
  intros Hwf Hj. unfold SetCol_float. rewrite neg_cols by done.
  rewrite !decide_False by lia.
  destruct (decide (j >= 0)); [lia|].
  destruct (decide (m.(c) + j >= 0)); [|lia].
  by rewrite add_cols.
Qed.

Lemma SetRow_slice_negative m i l :
  wf m → - m.(r) <= i < 0 → SetRow_slice m i l = SetRow_slice m (m.(r) + i) l.
Proof.
  intros Hwf Hi. unfold SetRow_slice.
  destruct (decide (i >= 0)); [lia|].
  destruct (decide (m.(r) + i >= 0)); [|lia].
  by rewrite add_rows.
Qed.

Lemma SetCol_slice_negative m j l :
  wf m → - m.(c) <= j < 0 → SetCol_slice m j l = SetCol_slice m (m.(c) + j) l.
Proof.
  intros Hwf Hj. unfold SetCol_slice.
  destruct (decide (j >= 0)); [lia|].
  destruct (decide (m.(c) + j >= 0)); [|lia].
  by rewrite add_cols.
Qed.

(** The index check of [Row], [Col] and of the float branches of [SetRow]
    and [SetCol]. *)
Lemma Row_out_of_range m i :
  wf m → i >= m.(r) ∨ i < - m.(r) → Row m i = Exit IndexError.
Proof.
  intros Hwf Hi. unfold Row. rewrite neg_rows by done.
  by rewrite decide_True.
Qed.

Lemma Col_out_of_range m j :
  wf m → j >= m.(c) ∨ j < - m.(c) → Col m j = Exit IndexError.
Proof.
  intros Hwf Hj. unfold Col. rewrite neg_cols by done.
  by rewrite decide_True.
Qed.

Lemma SetRow_float_out_of_range m i v :
  wf m → i >= m.(r) ∨ i < - m.(r) → SetRow_float m i v = Exit IndexError.
Proof.
  intros Hwf Hi. unfold SetRow_float. rewrite neg_rows by done.
  by rewrite decide_True.
Qed.

Lemma SetCol_float_out_of_range m j v :
  wf m → j >= m.(c) ∨ j < - m.(c) → SetCol_float m j v = Exit IndexError.
Proof.
  intros Hwf Hj. unfold SetCol_float. rewrite neg_cols by done.
  by rewrite decide_True.
Qed.

(** Filling a fresh slice of [n] elements from a function of the
    position. *)
Lemma fill_loop (g : Z → F) (src : list F) (off : Z → Z) n :
  0 <= n → 
  (∀ k, 0 <= k < n → ld src (off k) = Ok (g k)) →
  for_range 0 n (λ k l, e ← ld src (off k); st l k e)
    (replicate (Z.to_nat n) f0) = Ok (g <$> seqZ 0 n).
Proof.
  intros Hn Hsrc.
  destruct (for_range_inv
    (λ k l, len l = n ∧ ∀ q, 0 <= q < k → l !! Z.to_nat q = Some (g q))
    (λ k l, e ← ld src (off k); st l k e) 0 n (replicate (Z.to_nat n) f0))
    as (l' & -> & Hlen & Hl'); [done| | |].
  - split; [rewrite len_replicate; lia|]. intros q Hq. lia.
  - intros k l Hk [Hlen Hl]. rewrite Hsrc by done. simpl.
    rewrite st_Ok by lia. eexists. split; [done|].
    split; [by rewrite len_insert|].
    intros q Hq. destruct (decide (q = k)) as [->|Hne].
    + rewrite list_lookup_insert_eq by (unfold len in Hlen; lia). done.
    + rewrite list_lookup_insert_ne by lia. apply Hl. lia.
  - f_equal. apply list_eq. intros q.
    destruct (decide (Z.of_nat q < n)) as [Hq|Hq].
    + rewrite list_lookup_fmap, lookup_seqZ_lt by lia. simpl.
      rewrite <- (Nat2Z.id q) at 1. apply Hl'. lia.
    + rewrite !lookup_ge_None_2; [done| |].
      * rewrite length_fmap, length_seqZ. lia.
      * unfold len in Hlen. lia.
Qed.

(** [Row(i)] is a new 1 by [cols] matrix with the elements of row [i]. *)
Lemma Row_spec m i :
  wf m → 0 <= i < m.(r) →
  Row m i = Ok {| r := 1; c := m.(c); vals := row_elems m i |}.
Proof.
  intros Hwf Hi. pose proof Hwf as (Hr & Hc & Hl & Hrm & Hcm & Hm).
  unfold Row. rewrite neg_rows by done. rewrite decide_False by lia.
  rewrite Newf_2 by lia. cbn [mbind result_bind vals].
  rewrite decide_True by lia. rewrite Z.mul_1_l.
  rewrite (for_range_ext _
    (λ k l, e ← ld m.(vals) (i * m.(c) + k); st l k e)).
  2:{ intros k l Hk. pose proof (offset_bounds _ _ _ _ Hi Hk).
      rewrite (mul_id i) by (apply in_range_nonneg; nia).
      by rewrite add_id by (apply in_range_nonneg; nia). }
  rewrite (fill_loop (λ k, entry m i k)); [done|done|].
  intros k Hk. pose proof (offset_bounds _ _ _ _ Hi Hk).
  destruct (ld_lookup m.(vals) (i * m.(c) + k)) as (v & -> & Hv); [lia|].
  unfold entry. by rewrite Hv.
Qed.

(** [Col(j)] is a new [rows] by 1 matrix with the elements of column
    [j]. *)
Lemma Col_spec m j :
  wf m → 0 <= j < m.(c) →
  Col m j = Ok {| r := m.(r); c := 1; vals := col_elems m j |}.
Proof.
  intros Hwf Hj. pose proof Hwf as (Hr & Hc & Hl & Hrm & Hcm & Hm).
  unfold Col. rewrite neg_cols by done. rewrite decide_False by lia.
  rewrite Newf_2 by lia. cbn [mbind result_bind vals].
  rewrite decide_True by lia. rewrite Z.mul_1_r.
  rewrite (for_range_ext _
    (λ k l, e ← ld m.(vals) (k * m.(c) + j); st l k e)).
  2:{ intros k l Hk. pose proof (offset_bounds _ _ _ _ Hk Hj).
      rewrite (mul_id k) by (apply in_range_nonneg; nia).
      by rewrite add_id by (apply in_range_nonneg; nia). }
  rewrite (fill_loop (λ k, entry m k j)); [done|done|].
  intros k Hk. pose proof (offset_bounds _ _ _ _ Hk Hj).
  destruct (ld_lookup m.(vals) (k * m.(c) + j)) as (v & -> & Hv); [lia|].
  unfold entry. by rewrite Hv.
Qed.

End RowColFacts.

(** ** Arithmetic, growth and the length invariant *)

Section InvariantFacts.
Context {F : Type} `{FloatOps F}.
Implicit Types (m n v : Mat F) (l : list F).

(** What every iteration that completes preserves, the loop preserves. *)
Lemma for_loop_preserves {S : Type} (P : S → Prop) (body : Z → S → result S) k :
  ∀ i s s',
  (∀ j t t', i <= j < i + Z.of_nat k → body j t = Ok t' → P t → P t') →
  for_loop k i body s = Ok s' → P s → P s'.
Proof.
  induction k as [|k IH]; intros i s s' Hstep; simpl.
  - by intros [= <-].
  - destruct (body i s) as [t| |] eqn:Hb; simpl; [|done..].
    intros Hrun Hs. apply (IH (i + 1) t s'); [|done|].
    + intros j u u' Hj. apply Hstep. lia.
    + apply (Hstep i s t); [lia|done|done].
Qed.

Lemma for_range_preserves {S : Type} (P : S → Prop) (body : Z → S → result S)
    lo hi s s' :
  (∀ j t t', lo <= j < hi → body j t = Ok t' → P t → P t') →
  for_range lo hi body s = Ok s' → P s → P s'.
Proof.
  intros Hstep. unfold for_range. apply for_loop_preserves.
  intros j t t' Hj. apply Hstep. lia.
Qed.

Lemma st_len l i x l' : st l i x = Ok l' → len l' = len l.
Proof.
  unfold st. case_decide; [|done]. intros [= <-]. apply len_insert.
Qed.

Lemma len_map (f : F → F) l : len (f <$> l) = len l.
Proof. unfold len. by rewrite length_fmap. Qed.

(** The kernel on two buffers of one length. *)
Lemma vec_op_same_length (op : F → F → F) (a b : list F) :
  len a = len b → vec_op op a b = Ok (zip_with op a b).
Proof.
  intros Hab. unfold vec_op. rewrite Hab, slice_whole. done.
Qed.

Lemma mat_op_same_shape (op : F → F → F) m v :
  len_invariant m → len_invariant v → Shape v = Shape m →
  mat_op op m v = Ok (with_vals m (zip_with op m.(vals) v.(vals))).
Proof.
  unfold len_invariant, Shape. intros Hm Hv [= Hr Hc]. unfold mat_op.
  rewrite !decide_False by (intros E; by apply E).
  rewrite vec_op_same_length by (rewrite Hm, Hv, Hr, Hc; done). done.
Qed.

Lemma vec_op_never_exits (op : F → F → F) (a b : list F) e :
  vec_op op a b ≠ Exit e.
Proof. unfold vec_op, slice. by case_decide. Qed.

(** The matrix branch reports a shape mismatch exactly when the shapes
    differ. *)
Lemma mat_op_mismatch_exact (op : F → F → F) m v :
  mat_op op m v = Exit ShapeMismatchError ↔ Shape v ≠ Shape m.
Proof.
  unfold mat_op, Shape. repeat case_decide.
  - split; [intros _; congruence|done].
  - split; [intros _; congruence|done].
  - split; [|intros Hne; exfalso; apply Hne; congruence].
    destruct (vec_op op m.(vals) v.(vals)) as [l|e|q] eqn:Hv;
      cbn [mbind result_bind]; [done| |done].
    by apply vec_op_never_exits in Hv.
Qed.

Lemma zip_with_len (op : F → F → F) (a b : list F) :
  len a = len b → len (zip_with op a b) = len a.
Proof. unfold len. intros Hab. rewrite length_zip_with. lia. Qed.

(** Loops whose iterations keep the length of a buffer keep it. *)
Lemma loop_len {A : Type} (body : Z → list A → result (list A)) lo hi
    (s s' : list A) :
  (∀ k t t', body k t = Ok t' → len t' = len t) →
  for_range lo hi body s = Ok s' → len s' = len s.
Proof.
  intros Hbody Hrun.
  eapply (for_range_preserves (λ t, len t = len s)); [|exact Hrun|done].
  intros k t t' _ Hk Ht. by rewrite (Hbody _ _ _ Hk).
Qed.

Lemma loops_len {A : Type} (body : Z → Z → list A → result (list A))
    rows cols (s s' : list A) :
  (∀ i j t t', body i j t = Ok t' → len t' = len t) →
  for_range 0 rows (λ i t, for_range 0 cols (body i) t) s = Ok s' →
  len s' = len s.
Proof.
  intros Hbody. apply loop_len. intros i t t'. apply loop_len.
  intros j u u'. apply Hbody.
Qed.

Lemma st_len' {A : Type} (s : list A) i x s' : st s i x = Ok s' → len s' = len s.
Proof.
  unfold st. case_decide; [|done]. intros [= <-]. apply len_insert.
Qed.

(** Binding a value and then storing it keeps the length. *)
Lemma bind_st_len {A B : Type} (src : result B) (f : B → A) (s s' : list A) i :
  (x ← src; st s i (f x)) = Ok s' → len s' = len s.
Proof.
  destruct src as [x| |]; cbn [mbind result_bind]; [|done..]. apply st_len'.
Qed.

Lemma len_ToSlice1D m : len (ToSlice1D m) = len m.(vals).
Proof.
  unfold ToSlice1D. rewrite copy_same_length; [done|].
  by rewrite length_replicate.
Qed.

End InvariantFacts.

Section KeptInvariant.
Context {F : Type} `{FloatOps F}.
Implicit Types (m n v : Mat F) (l : list F).

Lemma Newf_len_invariant dims m :
  Newf dims = Ok m →
  match dims with
  | [x] => GoInt.in_range (x * x)
  | [x; y] => GoInt.in_range (x * y)
  | _ => True
  end →
  len_invariant m.
Proof.
  unfold Newf, len_invariant, make.
  destruct dims as [|x [|y [|z dims]]]; [| | |done].
  - by intros [= <-].
  - intros Hrun Hfit. rewrite mul_id in Hrun by done.
    case_decide; [|done]. injection Hrun as <-. simpl.
    rewrite len_replicate. lia.
  - intros Hrun Hfit. rewrite mul_id in Hrun by done.
    case_decide; [|done]. injection Hrun as <-. simpl.
    rewrite len_replicate. lia.
Qed.

Lemma Reshape_len_invariant m rows cols m' :
  len_invariant m → GoInt.in_range (rows * cols) →
  GoInt.in_range (m.(r) * m.(c)) →
  Reshape m rows cols = Ok m' → len_invariant m' ∧ m'.(vals) = m.(vals).
Proof.
  unfold len_invariant, Reshape. intros Hm Hfit Hfit'.
  rewrite !mul_id by done. case_decide as Hne; [done|].
  intros [= <-]. simpl. split; [|done].
  destruct (decide (rows * cols = m.(r) * m.(c))); [lia|done].
Qed.

Lemma Set_len_invariant m i j x m' :
  len_invariant m → Set_ m i j x = Ok m' → len_invariant m' ∧ Shape m' = Shape m.
Proof.
  unfold len_invariant, Set_. intros Hm.
  destruct (st _ _ _) as [l| |] eqn:Hst; cbn [mbind result_bind]; [|done..].
  intros [= <-]. simpl. by rewrite (st_len' _ _ _ _ Hst).
Qed.

Lemma SetAll_len_invariant m x :
  len_invariant m → len_invariant (SetAll m x) ∧ Shape (SetAll m x) = Shape m.
Proof.
  unfold len_invariant, SetAll. simpl. intros Hm. split; [|done].
  rewrite len_replicate. by rewrite <- Hm.
Qed.

(** The loops of [SetRow] and [SetCol], in both branches of the type
    switch. *)
Lemma SetRow_float_len_invariant m i x m' :
  len_invariant m → SetRow_float m i x = Ok m' →
  len_invariant m' ∧ Shape m' = Shape m.
Proof.
  unfold len_invariant, SetRow_float. intros Hm. case_decide; [done|].
  destruct (if decide (i >= 0) then _ else _) as [l| |] eqn:Hl;
    cbn [mbind result_bind]; [|done..].
  intros [= <-]. simpl. split; [|done]. rewrite <- Hm.
  case_decide; eapply loop_len; try exact Hl; intros k t t'; apply st_len'.
Qed.

Lemma SetCol_float_len_invariant m j x m' :
  len_invariant m → SetCol_float m j x = Ok m' →
  len_invariant m' ∧ Shape m' = Shape m.
Proof.
  unfold len_invariant, SetCol_float. intros Hm. case_decide; [done|].
  destruct (if decide (j >= 0) then _ else _) as [l| |] eqn:Hl;
    cbn [mbind result_bind]; [|done..].
  intros [= <-]. simpl. split; [|done]. rewrite <- Hm.
  case_decide; eapply loop_len; try exact Hl; intros k t t'; apply st_len'.
Qed.

Lemma SetRow_slice_len_invariant m i val m' :
  len_invariant m → SetRow_slice m i val = Ok m' →
  len_invariant m' ∧ Shape m' = Shape m.
Proof.
  unfold len_invariant, SetRow_slice. intros Hm. case_decide; [done|].
  destruct (if decide (i >= 0) then _ else _) as [l| |] eqn:Hl;
    cbn [mbind result_bind]; [|done..].
  intros [= <-]. simpl. split; [|done]. rewrite <- Hm.
  case_decide; eapply loop_len; try exact Hl; intros k t t';
    apply (bind_st_len _ (λ x, x)).
Qed.

Lemma SetCol_slice_len_invariant m j val m' :
  len_invariant m → SetCol_slice m j val = Ok m' →
  len_invariant m' ∧ Shape m' = Shape m.
Proof.
  unfold len_invariant, SetCol_slice. intros Hm. case_decide; [done|].
  destruct (if decide (j >= 0) then _ else _) as [l| |] eqn:Hl;
    cbn [mbind result_bind]; [|done..].
  intros [= <-]. simpl. split; [|done]. rewrite <- Hm.
  case_decide; eapply loop_len; try exact Hl; intros k t t';
    apply (bind_st_len _ (λ x, x)).
Qed.

Lemma scalar_op_len_invariant (op : F → F → F) m x :
  len_invariant m →
  len_invariant (scalar_op op m x) ∧ Shape (scalar_op op m x) = Shape m.
Proof.
  unfold len_invariant, scalar_op. simpl. intros Hm. split; [|done].
  by rewrite len_map.
Qed.

Lemma mat_op_len_invariant (op : F → F → F) m v m' :
  len_invariant m → len_invariant v → mat_op op m v = Ok m' →
  len_invariant m' ∧ Shape m' = Shape m.
Proof.
  intros Hm Hv Hrun.
  destruct (decide (Shape v = Shape m)) as [Hs|Hs].
  - rewrite mat_op_same_shape in Hrun by done. injection Hrun as <-.
    unfold len_invariant in *. simpl. split; [|done].
    injection Hs as Hr Hc.
    rewrite zip_with_len; [done|]. rewrite Hm, Hv. by rewrite Hr, Hc.
  - apply mat_op_mismatch_exact with (op := op) in Hs. congruence.
Qed.

Lemma T_len_invariant p m p' m' :
  wf m → T p m = Ok (p', m') → wf m' ∧ Shape m' = (m.(c), m.(r)).
Proof.
  intros Hwf Hrun. destruct (T_spec p m Hwf) as (p1 & Hspec).
  rewrite Hspec in Hrun. injection Hrun as <- <-.
  split; [by apply wf_transpose|done].
Qed.

Lemma Copy_len_invariant m m' :
  wf m → Copy m = Ok m' → wf m' ∧ Shape m' = Shape m.
Proof. intros Hwf. rewrite Copy_wf by done. by intros [= <-]. Qed.

Lemma AppendRow_len_invariant m val m' :
  wf m → len (m.(vals) ++ val) <= GoInt.max_int →
  AppendRow m val = Ok m' →
  len_invariant m' ∧ m'.(c) = m.(c) ∧ (0 < m.(c) → m'.(r) = m.(r) + 1).
Proof.
  intros (Hr & Hc & Hl & Hrm & Hcm & Hm) Hfit. unfold AppendRow, len_invariant.
  case_decide as Hlen; [done|]. intros [= <-]. simpl.
  rewrite len_app in *.
  assert (len val = m.(c)) as Hv by (destruct (decide (m.(c) = len val)); [done|tauto]).
  destruct (decide (m.(c) = 0)) as [E|E].
  - rewrite E in *. split; [lia|]. split; [done|lia].
  - rewrite add_id by (apply in_range_nonneg; nia).
    split; [lia|]. split; [done|lia].
Qed.

(** The rewriting loops of [AppendCol] and [Concat] keep the length of the
    buffer they rewrite. *)
Lemma rewrite_loops_len (q : list (list F)) (rows cols width : Z) l l' :
  for_range 0 rows (λ i l,
    for_range 0 cols (λ j l,
      row ← ld q i; x ← ld row j; st l (i *! width +! j) x) l) l = Ok l' →
  len l' = len l.
Proof.
  apply (loops_len (λ i j t,
    row ← ld q i; x ← ld row j; st t (i *! width +! j) x)).
  intros i j t t'. destruct (ld q i) as [row| |]; cbn [mbind result_bind];
    [|done..].
  apply (bind_st_len _ (λ x, x)).
Qed.

Lemma AppendCol_len_invariant m val m' :
  wf m → len (m.(vals) ++ val) <= GoInt.max_int →
  AppendCol m val = Ok m' →
  len_invariant m' ∧ m'.(r) = m.(r) ∧ (0 < m.(r) → m'.(c) = m.(c) + 1).
Proof.
  intros (Hr & Hc & Hl & Hrm & Hcm & Hm) Hfit. unfold AppendCol, len_invariant.
  case_decide as Hlen; [done|].
  assert (len val = m.(r)) as Hv
    by (destruct (decide (m.(r) = len val)); [done|tauto]).
  destruct (ToSlice2D m) as [q0| |]; cbn [mbind result_bind]; [|done..].
  destruct (for_range 0 (len q0) _ q0) as [q| |]; cbn [mbind result_bind];
    [|done..].
  destruct (for_range 0 m.(r) _ _) as [l| |] eqn:Hloops;
    cbn [mbind result_bind]; [|done..].
  intros [= <-]. simpl. apply rewrite_loops_len in Hloops.
  rewrite Hloops. rewrite len_app in *.
  destruct (decide (m.(r) = 0)) as [E|E].
  - rewrite E in *. split; [lia|]. split; [done|lia].
  - rewrite add_id by (apply in_range_nonneg; nia).
    split; [lia|]. split; [done|lia].
Qed.

Lemma Concat_len_invariant m n m' :
  wf m → wf n → len (m.(vals) ++ n.(vals)) <= GoInt.max_int →
  Concat m n = Ok m' →
  len_invariant m' ∧ m'.(r) = m.(r) ∧ (0 < m.(r) → m'.(c) = m.(c) + n.(c)).
Proof.
  intros (Hr & Hc & Hl & Hrm & Hcm & Hm) (Hnr & Hnc & Hnl & _) Hfit.
  unfold Concat, len_invariant.
  case_decide as Hrows; [done|].
  assert (m.(r) = n.(r)) as Hrn
    by (destruct (decide (m.(r) = n.(r))); [done|tauto]).
  destruct (ToSlice2D m) as [q0| |]; cbn [mbind result_bind]; [|done..].
  destruct (ToSlice2D n) as [rows| |]; cbn [mbind result_bind]; [|done..].
  destruct (for_range 0 (len q0) _ q0) as [q| |]; cbn [mbind result_bind];
    [|done..].
  destruct (for_range 0 m.(r) _ _) as [l| |] eqn:Hloops;
    cbn [mbind result_bind]; [|done..].
  intros [= <-]. simpl. apply rewrite_loops_len in Hloops.
  rewrite Hloops. rewrite len_app in *. rewrite len_ToSlice1D.
  destruct (decide (m.(r) = 0)) as [E|E].
  - rewrite E in *. split; [lia|]. split; [done|lia].
  - rewrite add_id by (apply in_range_nonneg; nia).
    split; [nia|]. split; [done|lia].
Qed.

End KeptInvariant.

(** ** Writing a row or a column *)

Section ScatterFacts.
Context {A : Type}.

(** A loop that stores [g k] at offset [off k], the offsets distinct and
    inside the buffer. *)
Lemma scatter_loop (g : Z → A) (off : Z → Z)
    (body : Z → list A → result (list A)) (n : Z) (l0 : list A) :
  0 <= n →
  (∀ k l, 0 <= k < n → body k l = st l (off k) (g k)) →
  (∀ k, 0 <= k < n → 0 <= off k < len l0) →
  (∀ k k', 0 <= k < n → 0 <= k' < n → off k = off k' → k = k') →
  ∃ l',
    for_range 0 n body l0 = Ok l' ∧ len l' = len l0 ∧
    (∀ k, 0 <= k < n → l' !! Z.to_nat (off k) = Some (g k)) ∧
    (∀ q : nat, (∀ k, 0 <= k < n → q ≠ Z.to_nat (off k)) → l' !! q = l0 !! q).
Proof.
  intros Hn Hbody Hoff Hinj.
  destruct (for_range_inv
    (λ k l, len l = len l0 ∧
            (∀ k', 0 <= k' < k → l !! Z.to_nat (off k') = Some (g k')) ∧
            (∀ q : nat, (∀ k', 0 <= k' < k → q ≠ Z.to_nat (off k')) →
                        l !! q = l0 !! q))
    body 0 n l0) as (l' & Hrun & Hlen & Hset & Hrest); [done| | |].
  - split; [done|]. split; [intros k' Hk'; lia|done].
  - intros k l Hk (Hlen & Hset & Hrest).
    rewrite Hbody by done. pose proof (Hoff k Hk) as Hok.
    rewrite st_Ok by lia. eexists. split; [done|].
    split; [by rewrite len_insert|]. split.
    + intros k' Hk'. destruct (decide (k' = k)) as [->|Hne].
      * apply list_lookup_insert_eq. unfold len in *. lia.
      * rewrite list_lookup_insert_ne; [apply Hset; lia|].
        intros E. apply Hne. symmetry. apply Hinj; [lia..|].
        pose proof (Hoff k' ltac:(lia)). lia.
    + intros q Hq. rewrite list_lookup_insert_ne.
      * apply Hrest. intros k' Hk'. apply Hq. lia.
      * intros E. apply (Hq k); [lia|done].
  - by exists l'.
Qed.

End ScatterFacts.

Section SetFacts.
Context {F : Type} `{FloatOps F}.
Implicit Types (m : Mat F) (l val : list F).

Lemma row_loop m i (g : Z → F) (body : Z → list F → result (list F)) :
  wf m → 0 <= i < m.(r) →
  (∀ k l, 0 <= k < m.(c) → body k l = st l (i * m.(c) + k) (g k)) →
  ∃ l', for_range 0 m.(c) body m.(vals) = Ok l' ∧
        row_replaced m (with_vals m l') i g.
Proof.
  intros (Hr & Hc & Hl & Hrm & Hcm & Hm) Hi Hbody.
  destruct (scatter_loop g (λ k, i * m.(c) + k) body m.(c) m.(vals))
    as (l' & Hrun & Hlen & Hset & Hrest); [done|done| | |].
  - intros k Hk. pose proof (offset_bounds _ _ _ _ Hi Hk). lia.
  - intros k k' _ _ E. lia.
  - exists l'. split; [done|]. unfold row_replaced, len_invariant, entry; simpl.
    split; [done|]. split; [lia|]. split.
    + intros b Hb. by rewrite Hset.
    + intros a b Ha Hb Hne. rewrite Hrest; [done|].
      intros k Hk E.
      pose proof (offset_bounds _ _ _ _ Ha Hb).
      pose proof (offset_bounds _ _ _ _ Hi Hk).
      assert (a * m.(c) + b = i * m.(c) + k) as E' by lia.
      apply Hne. nia.
Qed.

Lemma col_loop m j (g : Z → F) (body : Z → list F → result (list F)) :
  wf m → 0 <= j < m.(c) →
  (∀ k l, 0 <= k < m.(r) → body k l = st l (k * m.(c) + j) (g k)) →
  ∃ l', for_range 0 m.(r) body m.(vals) = Ok l' ∧
        col_replaced m (with_vals m l') j g.
Proof.
  intros (Hr & Hc & Hl & Hrm & Hcm & Hm) Hj Hbody.
  destruct (scatter_loop g (λ k, k * m.(c) + j) body m.(r) m.(vals))
    as (l' & Hrun & Hlen & Hset & Hrest); [done|done| | |].
  - intros k Hk. pose proof (offset_bounds _ _ _ _ Hk Hj). lia.
  - intros k k' _ _ E. nia.
  - exists l'. split; [done|]. unfold col_replaced, len_invariant, entry; simpl.
    split; [done|]. split; [lia|]. split.
    + intros a Ha. by rewrite Hset.
    + intros a b Ha Hb Hne. rewrite Hrest; [done|].
      intros k Hk E.
      pose proof (offset_bounds _ _ _ _ Ha Hb).
      pose proof (offset_bounds _ _ _ _ Hk Hj).
      assert (a * m.(c) + b = k * m.(c) + j) as E' by lia.
      apply Hne.
      assert (a = k) by nia. subst a. lia.
Qed.

Lemma row_offset m i k :
  wf m → 0 <= i < m.(r) → 0 <= k < m.(c) →
  i *! m.(c) +! k = i * m.(c) + k.
Proof.
  intros (Hr & Hc & Hl & Hrm & Hcm & Hm) Hi Hk.
  pose proof (offset_bounds _ _ _ _ Hi Hk).
  rewrite (mul_id i) by (apply in_range_nonneg; nia).
  apply add_id. apply in_range_nonneg. nia.
Qed.

Lemma SetRow_float_spec m i x :
  wf m → 0 <= i < m.(r) →
  ∃ m', SetRow_float m i x = Ok m' ∧ row_replaced m m' i (λ _, x).
Proof.
  intros Hwf Hi. unfold SetRow_float. rewrite neg_rows by done.
  rewrite decide_False by lia. rewrite decide_True by lia.
  destruct (row_loop m i (λ _, x)
    (λ ci l, st l (i *! m.(c) +! ci) x) Hwf Hi) as (l' & -> & Hrep).
  { intros k l Hk. by rewrite row_offset. }
  by exists (with_vals m l').
Qed.

Lemma SetCol_float_spec m j x :
  wf m → 0 <= j < m.(c) →
  ∃ m', SetCol_float m j x = Ok m' ∧ col_replaced m m' j (λ _, x).
Proof.
  intros Hwf Hj. unfold SetCol_float. rewrite neg_cols by done.
  rewrite decide_False by lia. rewrite decide_True by lia.
  destruct (col_loop m j (λ _, x)
    (λ ri l, st l (ri *! m.(c) +! j) x) Hwf Hj) as (l' & -> & Hrep).
  { intros k l Hk. by rewrite row_offset. }
  by exists (with_vals m l').
Qed.

Lemma SetRow_slice_spec m i val :
  wf m → 0 <= i < m.(r) → len val = m.(c) →
  ∃ m', SetRow_slice m i val = Ok m' ∧
        row_replaced m m' i (λ b, default f0 (val !! Z.to_nat b)).
Proof.
  intros Hwf Hi Hval. unfold SetRow_slice.
  rewrite decide_False by (intros E; by apply E). rewrite decide_True by lia.
  destruct (row_loop m i (λ b, default f0 (val !! Z.to_nat b))
    (λ ci l, v ← ld val ci; st l (i *! m.(c) +! ci) v) Hwf Hi)
    as (l' & -> & Hrep).
  { intros k l Hk. rewrite row_offset by done.
    destruct (ld_lookup val k) as (v & -> & Hv); [lia|]. by rewrite Hv. }
  by exists (with_vals m l').
Qed.

Lemma SetCol_slice_spec m j val :
  wf m → 0 <= j < m.(c) → len val = m.(r) →
  ∃ m', SetCol_slice m j val = Ok m' ∧
        col_replaced m m' j (λ a, default f0 (val !! Z.to_nat a)).
Proof.
  intros Hwf Hj Hval. unfold SetCol_slice.
  rewrite decide_False by (intros E; by apply E). rewrite decide_True by lia.
  destruct (col_loop m j (λ a, default f0 (val !! Z.to_nat a))
    (λ ri l, v ← ld val ri; st l (ri *! m.(c) +! j) v) Hwf Hj)
    as (l' & -> & Hrep).
  { intros k l Hk. rewrite row_offset by done.
    destruct (ld_lookup val k) as (v & -> & Hv); [lia|]. by rewrite Hv. }
  by exists (with_vals m l').
Qed.

End SetFacts.

(** ** Growing to the right *)

Section GrowFacts.
Context {F : Type} `{FloatOps F}.
Implicit Types (m n : Mat F) (l val : list F).

(** Filling a slice of [n] elements, position [k] with [g k]. *)
Lemma fill_loop_gen {A : Type} (g : Z → A)
    (body : Z → list A → result (list A)) (n : Z) (l0 : list A) :
  len l0 = n →
  (∀ k t, 0 <= k < n → body k t = st t k (g k)) →
  for_range 0 n body l0 = Ok (g <$> seqZ 0 n).
Proof.
  intros Hlen Hbody. pose proof (len_nonneg l0) as Hn.
  destruct (scatter_loop g (λ k, k) body n l0)
    as (l' & -> & Hlen' & Hset & _); [lia|done|lia|done|].
  f_equal. apply list_eq. intros q.
  destruct (decide (Z.of_nat q < n)) as [Hq|Hq].
  - rewrite list_lookup_fmap, lookup_seqZ_lt by lia. simpl.
    rewrite <- (Nat2Z.id q) at 1. apply Hset. lia.
  - rewrite !lookup_ge_None_2; [done| |].
    + rewrite length_fmap, length_seqZ. lia.
    + unfold len in *. lia.
Qed.

(** Rewriting a slice in place, position [k] from what it holds. *)
Lemma map_in_place {A : Type} (g : Z → A)
    (body : Z → list A → result (list A)) (n : Z) (l0 : list A) :
  len l0 = n →
  (∀ k t, 0 <= k < n → len t = n →
          t !! Z.to_nat k = l0 !! Z.to_nat k → body k t = st t k (g k)) →
  for_range 0 n body l0 = Ok (g <$> seqZ 0 n).
Proof.
  intros Hlen Hbody. pose proof (len_nonneg l0) as Hn.
  destruct (for_range_inv
    (λ k t, len t = n ∧
            (∀ k', 0 <= k' < k → t !! Z.to_nat k' = Some (g k')) ∧
            (∀ k', k <= k' → t !! Z.to_nat k' = l0 !! Z.to_nat k'))
    body 0 n l0) as (l' & -> & Hlen' & Hset & _); [lia| | |].
  - split; [done|]. split; [intros k' Hk'; lia|done].
  - intros k t Hk (Ht & Hset & Hrest).
    rewrite Hbody by (done || apply Hrest; lia).
    rewrite st_Ok by lia. eexists. split; [done|].
    split; [by rewrite len_insert|]. split.
    + intros k' Hk'. destruct (decide (k' = k)) as [->|Hne].
      * apply list_lookup_insert_eq. unfold len in *. lia.
      * rewrite list_lookup_insert_ne by lia. apply Hset. lia.
    + intros k' Hk'. rewrite list_lookup_insert_ne by lia. apply Hrest. lia.
  - f_equal. apply list_eq. intros q.
    destruct (decide (Z.of_nat q < n)) as [Hq|Hq].
    + rewrite list_lookup_fmap, lookup_seqZ_lt by lia. simpl.
      rewrite <- (Nat2Z.id q) at 1. apply Hset. lia.
    + rewrite !lookup_ge_None_2; [done| |].
      * rewrite length_fmap, length_seqZ. lia.
      * unfold len in *. lia.
Qed.

(** Two loops that store [g i j] at offset [i * cols + j] of a buffer of
    [rows * cols] elements. *)
Lemma fill_grid {A : Type} (g : Z → Z → A)
    (body : Z → Z → list A → result (list A)) (rows cols : Z) (l0 : list A) :
  0 <= rows → 0 <= cols → len l0 = rows * cols →
  (∀ i j t, 0 <= i < rows → 0 <= j < cols →
            body i j t = st t (i * cols + j) (g i j)) →
  ∃ t' : list A,
    for_range 0 rows (λ i t, for_range 0 cols (body i) t) l0 = Ok t' ∧
    len t' = rows * cols ∧
    ∀ i j, 0 <= i < rows → 0 <= j < cols →
      t' !! Z.to_nat (i * cols + j) = Some (g i j).
Proof.
  intros Hrows Hcols Hlen Hbody.
  destruct (for_range_inv
    (λ i t, len t = rows * cols ∧
            ∀ i' j, 0 <= i' < i → 0 <= j < cols →
              t !! Z.to_nat (i' * cols + j) = Some (g i' j))
    (λ i t, for_range 0 cols (body i) t) 0 rows l0)
    as (l' & Hrun & Hlen' & Hset); [done| | |].
  - split; [done|]. intros i' j Hi'. lia.
  - intros i t Hi (Ht & Hset).
    destruct (scatter_loop (g i) (λ j, i * cols + j) (body i) cols t)
      as (t' & -> & Hlen' & Hrow & Hrest); [done| | | |].
    + intros j u Hj. by apply Hbody.
    + intros j Hj. pose proof (offset_bounds _ _ _ _ Hi Hj). lia.
    + intros j j' _ _ E. lia.
    + exists t'. split; [done|]. split; [lia|].
      intros i' j Hi' Hj. destruct (decide (i' = i)) as [->|Hne].
      * by apply Hrow.
      * rewrite Hrest; [apply Hset; [lia|done]|].
        intros k Hk E.
        assert (0 <= i' < rows) as Hi'' by lia.
        pose proof (offset_bounds _ _ _ _ Hi'' Hj).
        pose proof (offset_bounds _ _ _ _ Hi Hk).
        assert (i' * cols + j = i * cols + k) as E' by lia.
        apply Hne. nia.
  - by exists l'.
Qed.

(** [ToSlice2D()] of a well-formed matrix: its rows. *)
Lemma ToSlice2D_spec m :
  wf m → ToSlice2D m = Ok ((λ i, row_elems m i) <$> seqZ 0 m.(r)).
Proof.
  intros Hwf. pose proof Hwf as (Hr & Hc & Hl & Hrm & Hcm & Hm).
  unfold ToSlice2D. rewrite (make_Ok (A:=list F)) by done.
  cbn [mbind result_bind].
  rewrite len_replicate, Z2Nat.id by done.
  apply fill_loop_gen; [rewrite len_replicate; lia|].
  intros i t Hi. rewrite (make_Ok f0) by done. cbn [mbind result_bind].
  rewrite len_replicate, Z2Nat.id by done.
  rewrite (fill_loop_gen (λ j, entry m i j)); [done| |].
  - rewrite len_replicate. lia.
  - intros j u Hj. rewrite row_offset by done.
    pose proof (offset_bounds _ _ _ _ Hi Hj).
    destruct (ld_lookup m.(vals) (i * m.(c) + j)) as (v & -> & Hv); [lia|].
    unfold entry. by rewrite Hv.
Qed.

Lemma len_row_elems m i : 0 <= m.(c) → len (row_elems m i) = m.(c).
Proof.
  intros Hc. unfold row_elems, len. rewrite length_fmap, length_seqZ. lia.
Qed.

Lemma lookup_row_elems m i j :
  0 <= j < m.(c) → row_elems m i !! Z.to_nat j = Some (entry m i j).
Proof.
  intros Hj. unfold row_elems. rewrite list_lookup_fmap.
  rewrite lookup_seqZ_lt by lia. simpl. f_equal. f_equal. lia.
Qed.

Lemma lookup_rows {A : Type} (g : Z → A) (n i : Z) :
  0 <= i < n → (g <$> seqZ 0 n) !! Z.to_nat i = Some (g i).
Proof.
  intros Hi. rewrite list_lookup_fmap, lookup_seqZ_lt by lia. simpl.
  f_equal. f_equal. lia.
Qed.

Lemma len_rows {A : Type} (g : Z → A) (n : Z) :
  0 <= n → len (g <$> seqZ 0 n) = n.
Proof. intros Hn. unfold len. rewrite length_fmap, length_seqZ. lia. Qed.

(** The common end of [AppendCol] and [Concat]: the widened rows [q] are
    written back, row after row, into a buffer of the new size. *)
Lemma widen_loops m (width : Z) (extra : Z → list F) (l0 : list F) :
  wf m → 0 <= width →
  (∀ i, 0 <= i < m.(r) → len (extra i) = width) →
  len l0 = m.(r) * (m.(c) + width) →
  m.(c) + width <= GoInt.max_int →
  m.(r) * (m.(c) + width) <= GoInt.max_int →
  ∃ l',
    for_range 0 m.(r) (λ i l,
      for_range 0 (m.(c) + width) (λ j l,
        row ← ld ((λ i, row_elems m i ++ extra i) <$> seqZ 0 m.(r)) i;
        x ← ld row j;
        st l (i *! (m.(c) + width) +! j) x) l) l0 = Ok l' ∧
    widened m {| r := m.(r); c := m.(c) + width; vals := l' |} width
      (λ i j, default f0 (extra i !! Z.to_nat j)).
Proof.
  intros Hwf Hw Hextra Hl0 Hfitc Hfit.
  pose proof Hwf as (Hr & Hc & Hl & Hrm & Hcm & Hm).
  set (q := (λ i, row_elems m i ++ extra i) <$> seqZ 0 m.(r)).
  destruct (fill_grid
    (λ i j, default f0 ((row_elems m i ++ extra i) !! Z.to_nat j))
    (λ i j l, row ← ld q i; x ← ld row j;
              st l (i *! (m.(c) + width) +! j) x)
    m.(r) (m.(c) + width) l0) as (l' & Hrun & Hlen & Hset);
    [done|lia|done| |].
  - intros i j t Hi Hj.
    rewrite (ld_Ok q i (row_elems m i ++ extra i)); [|lia|].
    2:{ subst q. by apply (lookup_rows (λ i, row_elems m i ++ extra i)). }
    cbn [mbind result_bind].
    destruct (ld_lookup (row_elems m i ++ extra i) j) as (x & -> & Hx).
    { rewrite len_app, len_row_elems, Hextra by done. lia. }
    cbn [mbind result_bind]. rewrite Hx. simpl.
    pose proof (offset_bounds _ _ _ _ Hi Hj).
    rewrite (mul_id i) by (apply in_range_nonneg; nia).
    by rewrite add_id by (apply in_range_nonneg; nia).
  - exists l'. split; [exact Hrun|].
    unfold widened, len_invariant, entry; simpl.
    split; [done|]. split; [done|]. split; [done|].
    intros i Hi. split.
    + intros j Hj. rewrite Hset by lia. simpl.
      rewrite lookup_app_l.
      2:{ pose proof (len_row_elems m i Hc). unfold len in *. lia. }
      by rewrite lookup_row_elems.
    + intros j Hj. rewrite Hset by lia. simpl.
      rewrite lookup_app_r.
      2:{ pose proof (len_row_elems m i Hc). unfold len in *. lia. }
      pose proof (len_row_elems m i Hc) as Hre. unfold len in Hre.
      do 2 f_equal. lia.
Qed.

Lemma widened_ext m m' width (e1 e2 : Z → Z → F) :
  (∀ i j, 0 <= i < m.(r) → 0 <= j < width → e1 i j = e2 i j) →
  widened m m' width e1 → widened m m' width e2.
Proof.
  intros Hext (Hr & Hc & Hinv & Hrows). repeat split; try done.
  - intros j Hj. by apply Hrows.
  - intros j Hj. rewrite <- Hext by done. by apply Hrows.
Qed.

(** [AppendCol(v)] puts [v] to the right of the matrix as a new column. *)
Lemma AppendCol_spec m val :
  wf m → len val = m.(r) →
  m.(c) < GoInt.max_int → m.(r) * (m.(c) + 1) <= GoInt.max_int →
  ∃ m', AppendCol m val = Ok m' ∧
        widened m m' 1 (λ i _, default f0 (val !! Z.to_nat i)).
Proof.
  intros Hwf Hval Hfitc Hfit.
  pose proof Hwf as (Hr & Hc & Hl & Hrm & Hcm & Hm).
  unfold AppendCol. rewrite decide_False by (intros E; apply E; done).
  rewrite ToSlice2D_spec by done. cbn [mbind result_bind].
  rewrite len_rows by done.
  rewrite (map_in_place
             (λ i, row_elems m i ++ [default f0 (val !! Z.to_nat i)])).
  2:{ by apply len_rows. }
  2:{ intros i t Hi Ht Hti.
      rewrite (lookup_rows (λ i, row_elems m i)) in Hti by done.
      rewrite (ld_Ok t i (row_elems m i)) by (lia || done).
      cbn [mbind result_bind].
      destruct (ld_lookup val i) as (x & -> & Hx); [lia|].
      cbn [mbind result_bind]. by rewrite Hx. }
  cbn [mbind result_bind].
  rewrite (add_id m.(c) 1) by (apply in_range_nonneg; lia).
  destruct (widen_loops m 1 (λ i, [default f0 (val !! Z.to_nat i)])
              (m.(vals) ++ val)) as (l' & -> & Hw); try done.
  - rewrite len_app. lia.
  - lia.
  - cbn [mbind result_bind]. eexists. split; [done|].
    eapply widened_ext; [|exact Hw].
    intros i j Hi Hj. by replace j with 0 by lia.
Qed.

(** [Concat(n)] puts the rows of [n] to the right of the rows of the
    receiver. *)
Lemma Concat_spec m n :
  wf m → wf n → m.(r) = n.(r) →
  m.(c) + n.(c) <= GoInt.max_int →
  m.(r) * (m.(c) + n.(c)) <= GoInt.max_int →
  ∃ m', Concat m n = Ok m' ∧ widened m m' n.(c) (λ i j, entry n i j).
Proof.
  intros Hwf Hwn Hrows Hfitc Hfit.
  pose proof Hwf as (Hr & Hc & Hl & Hrm & Hcm & Hm).
  pose proof Hwn as (Hnr & Hnc & Hnl & _).
  unfold Concat. rewrite decide_False by (intros E; apply E; done).
  rewrite !ToSlice2D_spec by done. cbn [mbind result_bind].
  rewrite len_rows by done.
  rewrite (map_in_place (λ i, row_elems m i ++ row_elems n i)).
  2:{ by apply len_rows. }
  2:{ intros i t Hi Ht Hti.
      rewrite (lookup_rows (λ i, row_elems m i)) in Hti by done.
      rewrite (ld_Ok t i (row_elems m i)) by (lia || done).
      cbn [mbind result_bind].
      rewrite (ld_Ok _ i (row_elems n i)); [done|lia|].
      apply (lookup_rows (λ i, row_elems n i)). lia. }
  cbn [mbind result_bind].
  rewrite (add_id m.(c) n.(c)) by (apply in_range_nonneg; lia).
  destruct (widen_loops m n.(c) (λ i, row_elems n i)
              (m.(vals) ++ ToSlice1D n)) as (l' & -> & Hw); try done.
  - intros i Hi. by apply len_row_elems.
  - rewrite len_app, len_ToSlice1D. lia.
  - cbn [mbind result_bind]. eexists. split; [done|].
    eapply widened_ext; [|exact Hw].
    intros i j Hi Hj. simpl. by rewrite lookup_row_elems.
Qed.

End GrowFacts.

(** ** Loops that leave early, and loops that only panic *)

Section LoopFacts2.
Context {S : Type}.

(** A loop whose body never reports a fatal error reports none. *)
Lemma for_loop_no_exit (body : Z → S → result S) n : ∀ i s e,
  (∀ k t e', body k t ≠ Exit e') → for_loop n i body s ≠ Exit e.
Proof.
  induction n as [|n IH]; intros i s e Hbody; simpl; [done|].
  destruct (body i s) as [s'| e' |q] eqn:Hb; simpl; [by apply IH| |done].
  by destruct (Hbody i s e').
Qed.

Lemma for_range_no_exit (body : Z → S → result S) lo hi s e :
  (∀ k t e', body k t ≠ Exit e') → for_range lo hi body s ≠ Exit e.
Proof. apply for_loop_no_exit. Qed.

(** A loop from [lo] is the loop from 0 over the shifted body. *)
Lemma for_loop_shift (body : Z → S → result S) d n : ∀ i s,
  for_loop n (i + d) body s = for_loop n i (λ k, body (k + d)) s.
Proof.
  induction n as [|n IH]; intros i s; simpl; [done|].
  destruct (body (i + d) s) as [s'| |]; simpl; [|done..].
  rewrite <- IH. f_equal. lia.
Qed.

Lemma for_range_shift (body : Z → S → result S) lo hi s :
  for_range lo hi body s = for_range 0 (hi - lo) (λ k, body (k + lo)) s.
Proof.
  unfold for_range. rewrite <- for_loop_shift.
  by replace (hi - lo - 0) with (hi - lo) by lia.
Qed.

(** A fold written as a loop that reads its operands. *)
Lemma fold_loop {A : Type} (f : S → A → S) (g : Z → A)
    (body : Z → S → result S) n : ∀ s,
  (∀ k t, 0 <= k < n → body k t = Ok (f t (g k))) →
  for_range 0 n body s = Ok (foldl f s (g <$> seqZ 0 n)).
Proof.
  intros s Hbody. unfold for_range. rewrite Z.sub_0_r.
  destruct (decide (0 <= n)) as [Hn|Hn].
  2: { replace (Z.to_nat n) with 0%nat by lia.
       rewrite seqZ_nil by lia. done. }
  assert (∀ k i s, 0 <= i → i + Z.of_nat k <= n →
            for_loop k i body s = Ok (foldl f s (g <$> seqZ i (Z.of_nat k))))
    as Hgen.
  { induction k as [|k IH]; intros i t Hi Hk; [done|].
    cbn [for_loop]. rewrite Hbody by lia. cbn [mbind result_bind].
    rewrite IH by lia.
    replace (Z.of_nat (Datatypes.S k)) with (Z.succ (Z.of_nat k)) by lia.
    rewrite (seqZ_cons i) by lia.
    replace (Z.pred (Z.succ (Z.of_nat k))) with (Z.of_nat k) by lia.
    rewrite fmap_cons. cbn [foldl].
    by replace (Z.succ i) with (i + 1) by lia. }
  rewrite Hgen by lia. by rewrite Z2Nat.id by lia.
Qed.

End LoopFacts2.

(** A scan that leaves with [v] at the first index that [stop] accepts. *)
Lemma for_loop_ret_scan {R : Type} (body : Z → unit → result (unit + R))
    (stop : Z → bool) (v : R) n : ∀ i,
  (∀ k, i <= k < i + Z.of_nat n →
        body k tt = Ok (if stop k then inr v else inl tt)) →
  for_loop_ret n i body tt =
    Ok (if forallb (λ k, negb (stop k)) (seqZ i (Z.of_nat n))
        then inl tt else inr v).
Proof.
  induction n as [|n IH]; intros i Hbody; [done|].
  cbn [for_loop_ret]. rewrite Hbody by lia.
  replace (Z.of_nat (Datatypes.S n)) with (Z.succ (Z.of_nat n)) by lia.
  rewrite (seqZ_cons i) by lia.
  replace (Z.pred (Z.succ (Z.of_nat n))) with (Z.of_nat n) by lia.
  cbn [forallb mbind result_bind].
  destruct (stop i); cbn [negb andb]; [done|].
  replace (Z.succ i) with (i + 1) by lia.
  apply IH. intros k Hk. apply Hbody. lia.
Qed.

Lemma for_range_ret_scan {R : Type} (body : Z → unit → result (unit + R))
    (stop : Z → bool) (v : R) n :
  0 <= n →
  (∀ k, 0 <= k < n → body k tt = Ok (if stop k then inr v else inl tt)) →
  for_range_ret 0 n body tt =
    Ok (if forallb (λ k, negb (stop k)) (seqZ 0 n) then inl tt else inr v).
Proof.
  intros Hn Hbody. unfold for_range_ret. rewrite Z.sub_0_r.
  rewrite (for_loop_ret_scan body stop v) by (intros k Hk; apply Hbody; lia).
  by rewrite Z2Nat.id by lia.
Qed.

(** The indices of a list, read back, are the list. *)
Lemma fmap_lookup_seqZ {A : Type} (d : A) (l : list A) :
  (λ k, default d (l !! Z.to_nat k)) <$> seqZ 0 (len l) = l.
Proof.
  apply list_eq. intros k. rewrite list_lookup_fmap.
  destruct (decide (k < length l)%nat) as [Hk|Hk].
  - rewrite lookup_seqZ_lt by (unfold len; lia). simpl.
    replace (Z.to_nat (0 + Z.of_nat k)) with k by lia.
    by destruct (lookup_lt_is_Some_2 l k Hk) as [x ->].
  - rewrite lookup_seqZ_ge by (unfold len; lia). simpl.
    by rewrite lookup_ge_None_2 by lia.
Qed.

Lemma forallb_fmap {A B : Type} (f : A → B) (P : B → bool) (l : list A) :
  forallb P (f <$> l) = forallb (λ x, P (f x)) l.
Proof.
  induction l as [|x l IH]; [done|].
  rewrite fmap_cons. cbn [forallb]. by rewrite IH.
Qed.

Lemma forallb_negb_existsb {A : Type} (P : A → bool) (l : list A) :
  forallb (λ x, negb (P x)) l = negb (existsb P l).
Proof.
  induction l as [|x l IH]; simpl; [done|]. rewrite IH.
  by destruct (P x), (existsb P l).
Qed.

(** ** Predicates, maps and equality over the whole buffer *)

Section WholeBufferFacts.
Context {F : Type} `{FloatOps F}.
Implicit Types (m n : Mat F).

Lemma forallb_indices {A : Type} (d : A) (P : A → bool) (s : list A) :
  forallb (λ k, P (default d (s !! Z.to_nat k))) (seqZ 0 (len s)) = forallb P s.
Proof.
  transitivity (forallb P ((λ k, default d (s !! Z.to_nat k)) <$> seqZ 0 (len s))).
  - symmetry. apply forallb_fmap.
  - by rewrite fmap_lookup_seqZ.
Qed.

Lemma forallb_ext_all {A : Type} (P Q : A → bool) (s : list A) :
  (∀ x, P x = Q x) → forallb P s = forallb Q s.
Proof.
  intros HPQ. induction s as [|x s IH]; [done|].
  cbn [forallb]. by rewrite HPQ, IH.
Qed.

Lemma ld_default {A : Type} (d : A) (s : list A) k :
  0 <= k < len s → ld s k = Ok (default d (s !! Z.to_nat k)).
Proof.
  intros Hk. destruct (ld_lookup s k Hk) as (v & -> & ->). done.
Qed.

Lemma All_spec m (f : F → bool) : All m f = Ok (forallb f m.(vals)).
Proof.
  unfold All.
  rewrite (for_range_ret_scan _
             (λ k, negb (f (default f0 (m.(vals) !! Z.to_nat k)))) false).
  - rewrite (forallb_ext_all _ (λ k, f (default f0 (m.(vals) !! Z.to_nat k))))
      by (intros x; apply negb_involutive).
    rewrite (forallb_indices f0 f).
    by destruct (forallb f m.(vals)).
  - apply len_nonneg.
  - intros k Hk. rewrite (ld_default f0) by done. cbn [mbind result_bind].
    by destruct (f _).
Qed.

Lemma Any_spec m (f : F → bool) : Any m f = Ok (existsb f m.(vals)).
Proof.
  unfold Any.
  rewrite (for_range_ret_scan _
             (λ k, f (default f0 (m.(vals) !! Z.to_nat k))) true).
  - rewrite (forallb_indices f0 (λ x, negb (f x))).
    rewrite forallb_negb_existsb.
    by destruct (existsb f m.(vals)).
  - apply len_nonneg.
  - intros k Hk. rewrite (ld_default f0) by done. cbn [mbind result_bind].
    by destruct (f _).
Qed.

Lemma Map_spec m (f : F → F) : Map m f = Ok (with_vals m (f <$> m.(vals))).
Proof.
  unfold Map.
  rewrite (map_in_place (λ k, f (default f0 (m.(vals) !! Z.to_nat k)))
             _ (len m.(vals)) m.(vals)).
  - cbn [mbind result_bind]. do 2 f_equal.
    rewrite <- (fmap_lookup_seqZ f0 m.(vals)) at 2.
    by rewrite <- list_fmap_compose.
  - done.
  - intros k t Hk Ht Hsame.
    rewrite (ld_default f0) by lia. cbn [mbind result_bind].
    by rewrite Hsame.
Qed.

Lemma Equals_other_shape m n : Shape m ≠ Shape n → Equals m n = Ok false.
Proof.
  unfold Shape, Equals. intros Hs.
  destruct (decide (m.(r) ≠ n.(r))); [done|].
  destruct (decide (m.(c) ≠ n.(c))); [done|].
  destruct Hs. f_equal; by apply dec_stable.
Qed.

Lemma Equals_same_shape m n :
  wf m → wf n → Shape m = Shape n →
  Equals m n =
    Ok (forallb (λ k, feq (default f0 (m.(vals) !! Z.to_nat k))
                          (default f0 (n.(vals) !! Z.to_nat k)))
                (seqZ 0 (len m.(vals)))).
Proof.
  intros (Hr & Hc & Hl & Hrm & Hcm & Hm) (Hr' & Hc' & Hl' & _) [= Hsr Hsc].
  unfold Equals.
  rewrite !decide_False by (intros E; by apply E).
  rewrite mul_id by (apply in_range_nonneg; nia).
  rewrite (for_range_ret_scan _
     (λ k, fne (default f0 (m.(vals) !! Z.to_nat k))
               (default f0 (n.(vals) !! Z.to_nat k))) false).
  - unfold fne.
    rewrite (forallb_ext_all _
      (λ k, feq (default f0 (m.(vals) !! Z.to_nat k))
                (default f0 (n.(vals) !! Z.to_nat k))))
      by (intros x; apply negb_involutive).
    rewrite Hl.
    by destruct (forallb _ _).
  - nia.
  - intros k Hk.
    rewrite (ld_default f0 m.(vals)) by lia. cbn [mbind result_bind].
    rewrite (ld_default f0 n.(vals)) by (rewrite Hl', <- Hsr, <- Hsc; lia).
    cbn [mbind result_bind]. by destruct (fne _ _).
Qed.

(** Element for element: what the scan of [Equals] decides. *)
Lemma forallb_indices_Forall2 (s t : list F) :
  len s = len t →
  forallb (λ k, feq (default f0 (s !! Z.to_nat k)) (default f0 (t !! Z.to_nat k)))
          (seqZ 0 (len s)) = true ↔
  Forall2 (λ x y, feq x y = true) s t.
Proof.
  intros Hlen. rewrite forallb_forall. rewrite Forall2_same_length_lookup.
  unfold len in Hlen. split.
  - intros Hall. split; [lia|]. intros i x y Hx Hy.
    specialize (Hall (Z.of_nat i)).
    rewrite Nat2Z.id, Hx, Hy in Hall. apply Hall.
    apply list_elem_of_In, elem_of_seqZ.
    apply lookup_lt_Some in Hx. unfold len. lia.
  - intros [_ Hall] k [Hk0 Hk]%list_elem_of_In%elem_of_seqZ.
    unfold len in Hk.
    destruct (lookup_lt_is_Some_2 s (Z.to_nat k)) as [x Hx]; [lia|].
    destruct (lookup_lt_is_Some_2 t (Z.to_nat k)) as [y Hy]; [lia|].
    rewrite Hx, Hy. simpl. by apply (Hall (Z.to_nat k)).
Qed.

End WholeBufferFacts.

(** ** The pool, element access, reshaping and appended rows *)

Section AccessFacts.
Context {F : Type} `{FloatOps F}.
Implicit Types (m n : Mat F) (p : list (list F)).

Lemma get_length p : (length (get p).2 <= length p)%nat.
Proof. destruct p; simpl; lia. Qed.

Lemma put_capacity p b :
  (length p <= pool_capacity)%nat → (length (put p b) <= pool_capacity)%nat.
Proof.
  intros Hp. unfold put. case_decide; [|done].
  rewrite length_app. simpl. lia.
Qed.

(** [T] takes at most one bucket and returns at most one. *)
Lemma T_pool_bound p m p' m' :
  T p m = Ok (p', m') →
  (length p <= pool_capacity)%nat → (length p' <= pool_capacity)%nat.
Proof.
  unfold T. destruct (isRowVector m || isColVector m).
  { by intros [= <- _]. }
  pose proof (get_length p) as Hget.
  destruct (get p) as [b p0]. cbn [snd] in Hget.
  destruct (if decide (len b < m.(c) *! m.(r)) then _ else _) as [b'| |];
    cbn [mbind result_bind]; [|done..].
  destruct (for_range 0 m.(c) _ (b', 0)) as [[b'' idx]| |];
    cbn [mbind result_bind]; [|done..].
  intros [= <- _] Hp. apply put_capacity. lia.
Qed.

Lemma offset_inj q a b a' b' :
  0 <= b < q → 0 <= b' < q → a * q + b = a' * q + b' → a = a' ∧ b = b'.
Proof.
  intros Hb Hb' Heq.
  pose proof (offset_div a b q Hb) as Hd.
  pose proof (offset_div a' b' q Hb') as Hd'.
  rewrite Heq, Hd' in Hd. split; [done|]. subst a'. lia.
Qed.

Lemma ld_entry m i k :
  wf m → 0 <= i < m.(r) → 0 <= k < m.(c) →
  ld m.(vals) (i *! m.(c) +! k) = Ok (entry m i k).
Proof.
  intros Hwf Hi Hk. rewrite row_offset by done.
  destruct Hwf as (Hr & Hc & Hl & _).
  pose proof (offset_bounds _ _ _ _ Hi Hk).
  unfold entry. apply ld_default. lia.
Qed.

(** [Get] and [Set] check the flat offset, and nothing else. *)
Lemma Get_flat m i j :
  GoInt.in_range (i * m.(c)) → GoInt.in_range (i * m.(c) + j) →
  Get m i j = ld m.(vals) (i * m.(c) + j).
Proof. intros Hi Hj. unfold Get. by rewrite mul_id, add_id. Qed.

Lemma Set_flat m i j x :
  GoInt.in_range (i * m.(c)) → GoInt.in_range (i * m.(c) + j) →
  Set_ m i j x = (l ← st m.(vals) (i * m.(c) + j) x; Ok (with_vals m l)).
Proof. intros Hi Hj. unfold Set_. by rewrite mul_id, add_id. Qed.

Lemma entry_with_vals m (l : list F) a b :
  entry (with_vals m l) a b = default f0 (l !! Z.to_nat (a * m.(c) + b)).
Proof. done. Qed.

Lemma wf_with_vals m (l : list F) : wf m → len l = len m.(vals) → wf (with_vals m l).
Proof.
  intros (Hr & Hc & Hl & Hrm & Hcm & Hm) Hlen.
  unfold wf, with_vals; simpl. repeat split; try done. by rewrite Hlen.
Qed.

Lemma Set_spec m i j x :
  wf m → 0 <= i < m.(r) → 0 <= j < m.(c) →
  ∃ m', Set_ m i j x = Ok m' ∧ wf m' ∧ Shape m' = Shape m ∧
        entry m' i j = x ∧
        ∀ a b, 0 <= a < m.(r) → 0 <= b < m.(c) → (a, b) ≠ (i, j) →
               entry m' a b = entry m a b.
Proof.
  intros Hwf Hi Hj. pose proof Hwf as (Hr & Hc & Hl & Hrm & Hcm & Hm).
  pose proof (offset_bounds _ _ _ _ Hi Hj) as Hoff.
  rewrite Set_flat by (apply in_range_nonneg; nia).
  rewrite st_Ok by lia. cbn [mbind result_bind].
  eexists. split; [done|]. split; [|split; [done|split]].
  - apply wf_with_vals; [done|]. apply len_insert.
  - rewrite entry_with_vals.
    rewrite list_lookup_insert_eq; [done|]. unfold len in Hl. lia.
  - intros a b Ha Hb Hne. rewrite entry_with_vals.
    rewrite list_lookup_insert_ne; [done|].
    pose proof (offset_bounds _ _ _ _ Ha Hb).
    intros Heq. apply Hne.
    assert (i * m.(c) + j = a * m.(c) + b) as Heq' by lia.
    apply offset_inj in Heq' as [-> ->]; [done|lia..].
Qed.

Lemma row_elems_last m (v : list F) :
  wf m → len v = m.(c) →
  row_elems {| r := m.(r) + 1; c := m.(c); vals := m.(vals) ++ v |} m.(r) = v.
Proof.
  intros (Hr & Hc & Hl & _) Hv. unfold row_elems. cbn [c].
  transitivity ((λ k, default f0 (v !! Z.to_nat k)) <$> seqZ 0 (len v));
    [|apply fmap_lookup_seqZ].
  rewrite Hv. apply list_fmap_ext. intros k z [Hz0 Hz]%lookup_seqZ.
  unfold entry. cbn [vals c].
  rewrite lookup_app_r by (unfold len in *; lia).
  do 2 f_equal. unfold len in *. lia.
Qed.

Lemma row_elems_kept m (v : list F) rows i :
  wf m → 0 <= i < m.(r) →
  row_elems {| r := rows; c := m.(c); vals := m.(vals) ++ v |} i = row_elems m i.
Proof.
  intros (Hr & Hc & Hl & _) Hi. unfold row_elems. cbn [c].
  apply list_fmap_ext. intros k z [Hz0 Hz]%lookup_seqZ.
  unfold entry. cbn [vals c].
  assert (0 <= z < m.(c)) as Hzc by lia.
  pose proof (offset_bounds _ _ _ _ Hi Hzc).
  rewrite lookup_app_l by (unfold len in *; lia). done.
Qed.

Lemma AppendRow_spec m (v : list F) :
  wf m → len v = m.(c) →
  m.(r) < GoInt.max_int → (m.(r) + 1) * m.(c) <= GoInt.max_int →
  AppendRow m v =
    Ok {| r := m.(r) + 1; c := m.(c); vals := m.(vals) ++ v |} ∧
  wf {| r := m.(r) + 1; c := m.(c); vals := m.(vals) ++ v |}.
Proof.
  intros (Hr & Hc & Hl & Hrm & Hcm & Hm) Hv Hfit Hfit'. split.
  - unfold AppendRow. rewrite decide_False by (intros E; apply E; done).
    by rewrite add_id by (apply in_range_nonneg; lia).
  - unfold wf; cbn [r c vals]. rewrite len_app.
    repeat split; try lia.
Qed.

Lemma Reshape_spec m rows cols :
  wf m → 0 <= rows <= GoInt.max_int → 0 <= cols <= GoInt.max_int →
  rows * cols = m.(r) * m.(c) →
  Reshape m rows cols = Ok {| r := rows; c := cols; vals := m.(vals) |} ∧
  wf {| r := rows; c := cols; vals := m.(vals) |}.
Proof.
  intros (Hr & Hc & Hl & Hrm & Hcm & Hm) Hrows Hcols Heq. split.
  - unfold Reshape.
    rewrite (mul_id rows) by (apply in_range_nonneg; lia).
    rewrite (mul_id m.(r)) by (apply in_range_nonneg; lia).
    by rewrite decide_False by (intros E; by apply E).
  - unfold wf; cbn [r c vals]. repeat split; lia.
Qed.

Lemma Reshape_mismatch m rows cols :
  GoInt.in_range (rows * cols) → GoInt.in_range (m.(r) * m.(c)) →
  rows * cols ≠ m.(r) * m.(c) →
  Reshape m rows cols = Exit ShapeError.
Proof.
  intros Hin Hin' Hne. unfold Reshape. rewrite !mul_id by done.
  by rewrite decide_True.
Qed.

(** The test is on the product alone: two negative dimensions pass it. *)
Lemma Reshape_negated m :
  wf m →
  Reshape m (- m.(r)) (- m.(c)) =
    Ok {| r := - m.(r); c := - m.(c); vals := m.(vals) |}.
Proof.
  intros (Hr & Hc & Hl & Hrm & Hcm & Hm). unfold Reshape.
  rewrite (mul_id (- m.(r))).
  2:{ replace (- m.(r) * - m.(c)) with (m.(r) * m.(c)) by lia.
      apply in_range_nonneg. lia. }
  rewrite (mul_id m.(r)) by (apply in_range_nonneg; lia).
  by rewrite decide_False by lia.
Qed.

End AccessFacts.

(** ** Reductions along a row or a column *)

Section ReductionFacts.
Context {F : Type} `{FloatOps F}.
Implicit Types (m : Mat F).

Lemma row_reduce (f : F → F → F) init m i :
  wf m → 0 <= i < m.(r) →
  for_range 0 m.(c) (λ k acc,
    x ← ld m.(vals) (i *! m.(c) +! k); Ok (f acc x)) init =
  Ok (foldl f init (row_elems m i)).
Proof.
  intros Hwf Hi. unfold row_elems. apply fold_loop.
  intros k t Hk. by rewrite ld_entry.
Qed.

Lemma col_reduce (f : F → F → F) init m j :
  wf m → 0 <= j < m.(c) →
  for_range 0 m.(r) (λ k acc,
    x ← ld m.(vals) (k *! m.(c) +! j); Ok (f acc x)) init =
  Ok (foldl f init (col_elems m j)).
Proof.
  intros Hwf Hj. unfold col_elems. apply fold_loop.
  intros k t Hk. by rewrite ld_entry.
Qed.

Lemma whole_reduce (f : F → F → F) init (l : list F) :
  for_range 0 (len l) (λ i acc, x ← ld l i; Ok (f acc x)) init =
  Ok (foldl f init l).
Proof.
  rewrite (fold_loop f (λ k, default f0 (l !! Z.to_nat k))).
  - by rewrite fmap_lookup_seqZ.
  - intros k t Hk. by rewrite (ld_default f0).
Qed.

(** The one row of a row vector, and the one column of a column vector,
    are the buffer. *)
Lemma row_elems_vector m : wf m → m.(r) = 1 → row_elems m 0 = m.(vals).
Proof.
  intros (Hr & Hc & Hl & _) Hr1. unfold row_elems.
  transitivity ((λ k, default f0 (m.(vals) !! Z.to_nat k)) <$> seqZ 0 (len m.(vals)));
    [|apply fmap_lookup_seqZ].
  replace (len m.(vals)) with m.(c) by lia.
  apply list_fmap_ext. intros k z _. unfold entry. do 3 f_equal; lia.
Qed.

Lemma col_elems_vector m : wf m → m.(c) = 1 → col_elems m 0 = m.(vals).
Proof.
  intros (Hr & Hc & Hl & _) Hc1. unfold col_elems.
  transitivity ((λ k, default f0 (m.(vals) !! Z.to_nat k)) <$> seqZ 0 (len m.(vals)));
    [|apply fmap_lookup_seqZ].
  replace (len m.(vals)) with m.(r) by lia.
  apply list_fmap_ext. intros k z _. unfold entry. do 3 f_equal; lia.
Qed.

End ReductionFacts.

(** ** The identity constructor, a product with itself, construction from data *)

Section ConstructionFacts.
Context {F : Type} `{FloatOps F}.
Implicit Types (m : Mat F) (p : list (list F)).

(** What the loop of [Eye] writes: 1.0 at the offsets [i*i - 1] for [i]
    from 1 below [x], and nothing else. *)
Lemma Eye_spec x :
  1 <= x → x * x <= GoInt.max_int →
  ∃ m, Eye x = Ok m ∧ Shape m = (x, x) ∧ len_invariant m ∧
       (∀ i, 1 <= i < x → m.(vals) !! Z.to_nat (i * i - 1) = Some f1) ∧
       (∀ k, 0 <= k < x * x → (∀ i, 1 <= i < x → k ≠ i * i - 1) →
             m.(vals) !! Z.to_nat k = Some f0).
Proof.
  intros Hx Hfit. unfold Eye, Newf.
  rewrite mul_id by (apply in_range_nonneg; nia).
  rewrite make_Ok by nia. cbn [mbind result_bind vals].
  rewrite for_range_shift.
  destruct (scatter_loop (λ _, f1) (λ k, (k + 1) * (k + 1) - 1)
    (λ k l, st l ((k + 1) *! (k + 1) -! 1) f1) (x - 1)
    (replicate (Z.to_nat (x * x)) f0))
    as (l' & -> & Hlen & Hset & Hkeep).
  - lia.
  - intros k l Hk.
    rewrite mul_id by (apply in_range_nonneg; nia).
    by rewrite sub_id by (apply in_range_nonneg; nia).
  - intros k Hk. rewrite len_replicate. nia.
  - intros k k' Hk Hk' Heq. nia.
  - cbn [mbind result_bind]. eexists. split; [done|].
    rewrite len_replicate in Hlen.
    unfold Shape, len_invariant, with_vals; cbn [r c vals].
    split; [done|]. split; [lia|]. split.
    + intros i Hi. specialize (Hset (i - 1)).
      replace (i - 1 + 1) with i in Hset by lia. apply Hset. lia.
    + intros k Hk Hne.
      replace (Z.to_nat k) with (Z.to_nat k) by done.
      rewrite Hkeep.
      * apply lookup_replicate_2. lia.
      * intros i Hi Heq. apply (Hne (i + 1)); [lia|].
        apply Z2Nat.inj in Heq; nia.
Qed.

(** [m.Dot(m)]: the argument is the receiver, so the transposition of the
    argument transposes the receiver as well, and the loops multiply the
    transpose by itself. *)
Lemma Dot_self (h : gmap nat (Mat F)) p pm m :
  h !! pm = Some m → wf m → m.(r) = m.(c) →
  m.(r) * m.(c) <= GoInt.max_int →
  ∃ p' o,
    Dot h p pm pm = Ok (h, p', o) ∧
    o.(r) = m.(r) ∧ o.(c) = m.(c) ∧ len o.(vals) = m.(r) * m.(c) ∧
    ∀ i j, 0 <= i < m.(r) → 0 <= j < m.(c) →
      o.(vals) !! Z.to_nat (i * m.(c) + j) =
        Some (foldl (λ sum k, fadd sum (fmul (entry m k i) (entry m k j))) f0
                    (seqZ 0 m.(r))).
Proof.
  intros Hm Hwm Hsq Hfit.
  pose proof Hwm as (Hr & Hc & Hl & Hrm & Hcm & Hmm).
  unfold Dot, deref. rewrite Hm. cbn [mbind result_bind].
  rewrite decide_False by (intros E; apply E; lia).
  rewrite Newf_2 by nia. cbn [mbind result_bind].
  destruct (T_spec p m Hwm) as (p1 & ->). cbn [mbind result_bind].
  rewrite lookup_insert_eq. cbn [mbind result_bind].
  pose proof (wf_transpose m Hwm) as Hwt.
  destruct (Dot_loops_spec (transpose m) (transpose m)
              {| r := m.(r); c := m.(c);
                 vals := replicate (Z.to_nat (m.(r) * m.(c))) f0 |})
    as (o & -> & Hor & Hoc & Hol & Hof); cbn [r c vals transpose]; try done.
  { rewrite len_replicate. nia. }
  { nia. }
  cbn [r c vals transpose] in *. cbn [mbind result_bind].
  destruct (T_spec p1 (transpose m) Hwt) as (p2 & ->).
  cbn [mbind result_bind].
  rewrite transpose_involutive by done.
  rewrite insert_insert_eq, insert_id by done.
  exists p2, o. repeat split; try done; try lia.
  intros i j Hi Hj.
  pose proof (offset_bounds m.(r) m.(c) i j Hi Hj) as Hoff.
  rewrite Hof by nia. rewrite offset_div, offset_mod by lia.
  f_equal. apply foldl_ext_in.
  intros s k [Hk0 Hk]%elem_of_seqZ.
  by rewrite !entry_transpose by (done || lia).
Qed.

End ConstructionFacts.

Section FromDataFacts.
Context {F : Type} `{FloatOps F}.
Implicit Types (m : Mat F) (v : list (list F)).

Lemma make_cap_Ok {A : Type} (zero : A) n cap :
  0 <= n → n <= cap → make_cap zero n cap = Ok (replicate (Z.to_nat n) zero).
Proof. intros Hn Hcap. unfold make_cap. by rewrite decide_True. Qed.

Lemma double_id n : 0 <= n → 2 * n <= GoInt.max_int → n *! 2 = n * 2.
Proof. intros Hn Hfit. apply mul_id. apply in_range_nonneg. lia. Qed.

Lemma copy_fresh (s : list F) : copy (replicate (Z.to_nat (len s)) f0) s = s.
Proof.
  apply copy_same_length. rewrite length_replicate. unfold len. lia.
Qed.

Lemma FromOneD_row (s : list F) :
  2 * len s <= GoInt.max_int →
  FromOneDSliceHelper s [] = Ok {| r := 1; c := len s; vals := s |}.
Proof.
  intros Hfit. pose proof (len_nonneg s). unfold FromOneDSliceHelper.
  cbn [Newf mbind result_bind].
  rewrite double_id by done. rewrite make_cap_Ok by lia.
  cbn [mbind result_bind]. by rewrite copy_fresh.
Qed.

Lemma FromOneD_column (s : list F) :
  2 * len s <= GoInt.max_int →
  FromOneDSliceHelper s [len s] = Ok {| r := len s; c := 1; vals := s |}.
Proof.
  intros Hfit. pose proof (len_nonneg s). unfold FromOneDSliceHelper.
  cbn [Newf mbind result_bind].
  rewrite decide_False by (intros E; by apply E).
  rewrite double_id by done. rewrite make_cap_Ok by lia.
  cbn [mbind result_bind]. by rewrite copy_fresh.
Qed.

Lemma FromOneD_shaped (s : list F) rows cols :
  2 * len s <= GoInt.max_int → rows * cols = len s →
  FromOneDSliceHelper s [rows; cols] =
    Ok {| r := rows; c := cols; vals := s |}.
Proof.
  intros Hfit Hprod. pose proof (len_nonneg s). unfold FromOneDSliceHelper.
  cbn [Newf mbind result_bind].
  rewrite mul_id by (apply in_range_nonneg; lia). rewrite Hprod.
  rewrite decide_False by (intros E; by apply E).
  rewrite double_id by done. rewrite make_cap_Ok by lia.
  cbn [mbind result_bind]. by rewrite copy_fresh.
Qed.

Lemma FromOneD_mismatch (s : list F) rows cols :
  GoInt.in_range (rows * cols) → rows * cols ≠ len s →
  FromOneDSliceHelper s [rows; cols] = Exit ShapeError.
Proof.
  intros Hin Hne. unfold FromOneDSliceHelper. cbn [Newf mbind result_bind].
  rewrite mul_id by done. by rewrite decide_True.
Qed.

Lemma join_length_same {A : Type} (n : nat) (ls : list (list A)) :
  Forall (λ l, length l = n) ls → length (mjoin ls) = (length ls * n)%nat.
Proof.
  induction 1 as [|l ls Hl _ IH]; [done|].
  change (mjoin (l :: ls)) with (l ++ mjoin ls).
  rewrite length_app, IH, Hl. simpl. lia.
Qed.

(** The loops of the 2D helper on a rectangular slice of slices: the rows
    one behind the other. *)
Lemma fill_from_rows_join v w (l0 : list F) :
  0 < len v → Forall (λ row, len row = w) v →
  len l0 = len v * w → len v * w <= GoInt.max_int →
  fill_from_rows v l0 = Ok (mjoin v).
Proof.
  intros Hne Hrect Hlen Hfit.
  assert (0 <= w) as Hw.
  { destruct v as [|row v]; [unfold len in Hne; simpl in Hne; lia|].
    apply Forall_cons in Hrect as [<- _]. apply len_nonneg. }
  assert (∀ i, 0 <= i < len v →
            ∃ row, v !! Z.to_nat i = Some row ∧ ld v i = Ok row ∧ len row = w)
    as Hrow.
  { intros i Hi. destruct (ld_lookup v i Hi) as (row & Hld & Hlk).
    exists row. split; [done|]. split; [done|].
    rewrite Forall_lookup in Hrect. by apply (Hrect _ _ Hlk). }
  unfold fill_from_rows.
  rewrite (for_range_ext _
    (λ i t, for_range 0 w (λ j t,
       v0 ← ld v 0; row ← ld v i; x ← ld row j;
       st t (i *! len v0 +! j) x) t)).
  2:{ intros i t Hi. destruct (Hrow i Hi) as (row & _ & -> & Hrw).
      cbn [mbind result_bind]. by rewrite Hrw. }
  set (g := λ i j : Z,
         default f0 (default [] (v !! Z.to_nat i) !! Z.to_nat j)).
  destruct (fill_grid g
    (λ i j t, v0 ← ld v 0; row ← ld v i; x ← ld row j;
              st t (i *! len v0 +! j) x) (len v) w l0)
    as (t' & -> & Hlen' & Hset); [lia|done|done| |].
  - intros i j t Hi Hj.
    destruct (Hrow 0) as (v0 & _ & -> & Hv0); [lia|].
    destruct (Hrow i Hi) as (row & Hlk & -> & Hrw).
    cbn [mbind result_bind]. rewrite Hv0.
    rewrite (ld_default f0) by lia. cbn [mbind result_bind].
    pose proof (offset_bounds _ _ _ _ Hi Hj).
    rewrite (mul_id i) by (apply in_range_nonneg; nia).
    rewrite add_id by (apply in_range_nonneg; nia).
    unfold g. by rewrite Hlk.
  - f_equal.
    assert (Forall (λ l : list F, length l = Z.to_nat w) v) as Hrect'.
    { eapply Forall_impl; [exact Hrect|]. intros l Hl. unfold len in Hl. lia. }
    apply (list_eq_same_length _ _ (length v * Z.to_nat w)).
    + by apply join_length_same.
    + unfold len in Hlen'. nia.
    + intros q x y Hq Hx Hy.
      apply (join_lookup_Some_same_length (Z.to_nat w)) in Hy
        as (j & l & i' & Hl & Hi' & ->); [|done].
      pose proof (lookup_lt_Some _ _ _ Hl) as Hj.
      pose proof (lookup_lt_Some _ _ _ Hi') as Hi''.
      rewrite Forall_lookup in Hrect'. rewrite (Hrect' _ _ Hl) in Hi''.
      specialize (Hset (Z.of_nat j) (Z.of_nat i')).
      replace (Z.to_nat (Z.of_nat j * w + Z.of_nat i'))
        with (j * Z.to_nat w + i')%nat in Hset by nia.
      rewrite Hset in Hx by (unfold len; lia).
      unfold g in Hx. rewrite !Nat2Z.id, Hl in Hx. simpl in Hx.
      rewrite Hi' in Hx. simpl in Hx. congruence.
Qed.

(** The rows of the matrix laid over the joined rows are the rows. *)
Lemma rows_of_join v w :
  0 <= w → Forall (λ row, len row = w) v →
  (λ i, row_elems {| r := len v; c := w; vals := mjoin v |} i)
    <$> seqZ 0 (len v) = v.
Proof.
  intros Hw Hrect.
  transitivity ((λ i, default [] (v !! Z.to_nat i)) <$> seqZ 0 (len v));
    [|apply fmap_lookup_seqZ].
  assert (Forall (λ l : list F, length l = Z.to_nat w) v) as Hrect'.
  { eapply Forall_impl; [exact Hrect|]. intros l Hl. unfold len in Hl. lia. }
  apply list_fmap_ext. intros k i [Hi0 Hi]%lookup_seqZ.
  destruct (ld_lookup v i) as (row & _ & Hlk); [lia|].
  rewrite Hlk. simpl.
  rewrite Forall_lookup in Hrect. pose proof (Hrect _ _ Hlk) as Hrw.
  unfold row_elems. cbn [c].
  transitivity ((λ k, default f0 (row !! Z.to_nat k)) <$> seqZ 0 (len row));
    [|apply fmap_lookup_seqZ].
  rewrite Hrw. apply list_fmap_ext. intros k' j [Hj0 Hj]%lookup_seqZ.
  unfold entry. cbn [c vals]. f_equal.
  destruct (lookup_lt_is_Some_2 row (Z.to_nat j)) as [x Hx];
    [unfold len in Hrw; lia|].
  rewrite Hx.
  replace (Z.to_nat (i * w + j)) with (Z.to_nat i * Z.to_nat w + Z.to_nat j)%nat
    by nia.
  apply (join_lookup_Some_same_length' (Z.to_nat w)); [done|lia|].
  by exists row.
Qed.

Lemma FromTwoD_spec v w :
  0 < len v → Forall (λ row, len row = w) v →
  2 * (len v * w) <= GoInt.max_int →
  FromTwoDSliceHelper v [] = Ok {| r := len v; c := w; vals := mjoin v |}.
Proof.
  intros Hne Hrect Hfit.
  destruct (ld_lookup v 0) as (v0 & Hld & Hlk); [lia|].
  rewrite Forall_lookup in Hrect. pose proof (Hrect _ _ Hlk) as Hv0.
  rewrite <- Forall_lookup in Hrect.
  pose proof (len_nonneg v0).
  unfold FromTwoDSliceHelper. cbn [Newf mbind result_bind].
  rewrite Hld. cbn [mbind result_bind]. rewrite Hv0.
  rewrite (mul_id (len v)) by (apply in_range_nonneg; nia).
  rewrite double_id by nia. rewrite make_cap_Ok by nia.
  cbn [mbind result_bind].
  rewrite (fill_from_rows_join v w); [done|done|done| |nia].
  rewrite len_replicate. nia.
Qed.

End FromDataFacts.

(** ** What is reported, and what only panics *)

Section ReportFacts.
Context {F : Type} `{FloatOps F}.
Implicit Types (m n : Mat F) (p : list (list F)).

Lemma quiet_Ok {A : Type} (a : A) : quiet (Ok a).
Proof. intros e. discriminate. Qed.

Lemma quiet_Panic {A : Type} (q : panic) : quiet (Panic q : result A).
Proof. intros e. discriminate. Qed.

Lemma quiet_bind {A B : Type} (x : result A) (f : A → result B) :
  quiet x → (∀ a, quiet (f a)) → quiet (x ≫= f).
Proof.
  intros Hx Hf e. destruct x as [a|e'|q]; cbn [mbind result_bind].
  - apply Hf.
  - destruct (Hx e'). done.
  - discriminate.
Qed.

Lemma quiet_for_range {S : Type} (body : Z → S → result S) lo hi s :
  (∀ k t, quiet (body k t)) → quiet (for_range lo hi body s).
Proof. intros Hbody e. apply for_range_no_exit. intros k t e'. apply Hbody. Qed.

Lemma quiet_ld {A : Type} (s : list A) i : quiet (ld s i).
Proof.
  intros e. unfold ld. case_decide; [|discriminate].
  destruct (s !! Z.to_nat i); discriminate.
Qed.

Lemma quiet_st {A : Type} (s : list A) i x : quiet (st s i x).
Proof. intros e. unfold st. case_decide; discriminate. Qed.

Lemma quiet_slice {A : Type} (s : list A) lo hi : quiet (slice s lo hi).
Proof. intros e. unfold slice. case_decide; discriminate. Qed.

Lemma quiet_make {A : Type} (z : A) k : quiet (make z k).
Proof. intros e. unfold make. case_decide; discriminate. Qed.

Lemma quiet_Newf_2 x y : quiet (Newf (F:=F) [x; y]).
Proof.
  unfold Newf. apply quiet_bind; [apply quiet_make|]. intros l. apply quiet_Ok.
Qed.

Lemma quiet_T p m : quiet (T p m).
Proof.
  unfold T. destruct (isRowVector m || isColVector m); [apply quiet_Ok|].
  destruct (get p) as [b p0].
  apply quiet_bind.
  { case_decide; [apply quiet_make|apply quiet_Ok]. }
  intros b'. apply quiet_bind.
  - apply quiet_for_range. intros i st0. apply quiet_for_range.
    intros j [b'' idx]. apply quiet_bind; [apply quiet_ld|]. intros x.
    apply quiet_bind; [apply quiet_st|]. intros l. apply quiet_Ok.
  - intros [b'' idx]. apply quiet_Ok.
Qed.

Lemma quiet_dotHelper (a b : list F) : quiet (dotHelper a b).
Proof.
  unfold dotHelper. apply quiet_bind; [apply quiet_slice|]. intros a'.
  apply quiet_bind; [apply quiet_slice|]. intros b'.
  apply quiet_for_range. intros i sum.
  apply quiet_bind; [apply quiet_ld|]. intros x.
  apply quiet_bind; [apply quiet_ld|]. intros y. apply quiet_Ok.
Qed.

Lemma quiet_Dot_loops m n o : quiet (Dot_loops m n o).
Proof.
  unfold Dot_loops. apply quiet_for_range. intros i o1.
  apply quiet_bind; [apply quiet_slice|]. intros mrow.
  apply quiet_for_range. intros j o2.
  apply quiet_bind; [apply quiet_slice|]. intros nrow.
  apply quiet_bind; [apply quiet_dotHelper|]. intros d.
  apply quiet_bind; [apply quiet_st|]. intros l. apply quiet_Ok.
Qed.

(** [Dot] reports a dimension error or nothing. *)
Lemma Dot_exit (h : gmap nat (Mat F)) p pm pn m n e :
  h !! pm = Some m → h !! pn = Some n →
  Dot h p pm pn = Exit e → e = DimensionError ∧ m.(c) ≠ n.(r).
Proof.
  intros Hm Hn. unfold Dot, deref. rewrite Hm, Hn. cbn [mbind result_bind].
  case_decide as Hcr; [by intros [= <-]|].
  intros Hrun. exfalso. revert Hrun.
  apply quiet_bind; [apply quiet_Newf_2|]. intros o.
  apply quiet_bind; [apply quiet_T|]. intros [p1 n1].
  apply quiet_bind.
  { destruct (<[pn:=n1]> h !! pm); [apply quiet_Ok|apply quiet_Panic]. }
  intros m2. apply quiet_bind.
  { destruct (<[pn:=n1]> h !! pn); [apply quiet_Ok|apply quiet_Panic]. }
  intros n2. apply quiet_bind; [apply quiet_Dot_loops|]. intros o2.
  apply quiet_bind; [apply quiet_T|]. intros [p2 n3]. apply quiet_Ok.
Qed.

(** An index inside [[-dimension, dimension)] is accepted. *)
Lemma Row_in_range m i :
  wf m → - m.(r) <= i < m.(r) → ∃ v, Row m i = Ok v.
Proof.
  intros Hwf Hi. destruct (decide (0 <= i)).
  - rewrite Row_spec by (done || lia). by eexists.
  - rewrite Row_negative by (done || lia).
    rewrite Row_spec by (done || lia). by eexists.
Qed.

Lemma Col_in_range m j :
  wf m → - m.(c) <= j < m.(c) → ∃ v, Col m j = Ok v.
Proof.
  intros Hwf Hj. destruct (decide (0 <= j)).
  - rewrite Col_spec by (done || lia). by eexists.
  - rewrite Col_negative by (done || lia).
    rewrite Col_spec by (done || lia). by eexists.
Qed.

Lemma SetRow_float_in_range m i x :
  wf m → - m.(r) <= i < m.(r) → ∃ m', SetRow_float m i x = Ok m'.
Proof.
  intros Hwf Hi. destruct (decide (0 <= i)).
  - destruct (SetRow_float_spec m i x) as (m' & -> & _); [done|lia|].
    by eexists.
  - rewrite SetRow_float_negative by (done || lia).
    destruct (SetRow_float_spec m (m.(r) + i) x) as (m' & -> & _); [done|lia|].
    by eexists.
Qed.

Lemma SetCol_float_in_range m j x :
  wf m → - m.(c) <= j < m.(c) → ∃ m', SetCol_float m j x = Ok m'.
Proof.
  intros Hwf Hj. destruct (decide (0 <= j)).
  - destruct (SetCol_float_spec m j x) as (m' & -> & _); [done|lia|].
    by eexists.
  - rewrite SetCol_float_negative by (done || lia).
    destruct (SetCol_float_spec m (m.(c) + j) x) as (m' & -> & _); [done|lia|].
    by eexists.
Qed.

(** A replaced row, read back. *)
Lemma row_replaced_wf m m' i (g : Z → F) :
  wf m → row_replaced m m' i g → wf m'.
Proof.
  intros (Hr & Hc & Hl & Hrm & Hcm & Hm) ([= Hsr Hsc] & Hinv & _).
  unfold wf. unfold len_invariant in Hinv. rewrite Hsr, Hsc in *.
  repeat split; done.
Qed.

Lemma col_replaced_wf m m' j (g : Z → F) :
  wf m → col_replaced m m' j g → wf m'.
Proof.
  intros (Hr & Hc & Hl & Hrm & Hcm & Hm) ([= Hsr Hsc] & Hinv & _).
  unfold wf. unfold len_invariant in Hinv. rewrite Hsr, Hsc in *.
  repeat split; done.
Qed.

Lemma row_replaced_elems m m' i (val : list F) :
  len val = m.(c) →
  row_replaced m m' i (λ b, default f0 (val !! Z.to_nat b)) →
  row_elems m' i = val.
Proof.
  intros Hval ([= Hsr Hsc] & _ & Hrow & _). unfold row_elems. rewrite Hsc.
  transitivity ((λ k, default f0 (val !! Z.to_nat k)) <$> seqZ 0 (len val));
    [|apply fmap_lookup_seqZ].
  rewrite Hval. apply list_fmap_ext. intros k z [Hz0 Hz]%lookup_seqZ.
  apply Hrow. lia.
Qed.

Lemma col_replaced_elems m m' j (val : list F) :
  len val = m.(r) →
  col_replaced m m' j (λ a, default f0 (val !! Z.to_nat a)) →
  col_elems m' j = val.
Proof.
  intros Hval ([= Hsr Hsc] & _ & Hcol & _). unfold col_elems. rewrite Hsr.
  transitivity ((λ k, default f0 (val !! Z.to_nat k)) <$> seqZ 0 (len val));
    [|apply fmap_lookup_seqZ].
  rewrite Hval. apply list_fmap_ext. intros k z [Hz0 Hz]%lookup_seqZ.
  apply Hcol. lia.
Qed.

Lemma Get_entry m i j :
  wf m → 0 <= i < m.(r) → 0 <= j < m.(c) → Get m i j = Ok (entry m i j).
Proof. intros Hwf Hi Hj. unfold Get. by apply ld_entry. Qed.

Lemma ToSlice1D_vals m : ToSlice1D m = m.(vals).
Proof.
  unfold ToSlice1D. apply copy_same_length. by rewrite length_replicate.
Qed.

Lemma forallb_Forall {A : Type} (P : A → bool) (l : list A) :
  forallb P l = true ↔ Forall (λ x, P x = true) l.
Proof.
  rewrite forallb_forall, Forall_forall.
  split; intros Hall x Hx; apply Hall; by apply list_elem_of_In.
Qed.

(** A well-formed matrix [Equals] itself exactly when it holds no NaN. *)
Lemma Equals_self m :
  wf m → ∃ b, Equals m m = Ok b ∧ (b = true ↔ self_equal m.(vals)).
Proof.
  intros Hwf. eexists. split; [by apply Equals_same_shape|].
  rewrite (forallb_indices f0 (λ x, feq x x)). apply forallb_Forall.
Qed.

End ReportFacts.

(** ** The calls with an axis and an index *)

Section AxisFacts.
Context {F : Type} `{FloatOps F}.
Implicit Types (m : Mat F).

Lemma quiet_reduce (f : F → F → F) (l : list F) (off : Z → Z) lo hi init :
  quiet (for_range lo hi (λ k acc, x ← ld l (off k); Ok (f acc x)) init).
Proof.
  apply quiet_for_range. intros k t.
  apply quiet_bind; [apply quiet_ld|]. intros x. apply quiet_Ok.
Qed.

Lemma quiet_scan (cmp : F → F → bool) (l : list F) (off : Z → Z) lo hi s :
  quiet (for_range lo hi (λ k '(index, best),
           x ← ld l (off k);
           if cmp x best then x ← ld l (off k); Ok (k, x)
           else Ok (index, best)) s).
Proof.
  apply quiet_for_range. intros k [index best].
  apply quiet_bind; [apply quiet_ld|]. intros x.
  destruct (cmp x best); [|apply quiet_Ok].
  apply quiet_bind; [apply quiet_ld|]. intros y. apply quiet_Ok.
Qed.

(** The shape of the proofs below: the two tests report, the loops do
    not. *)
Lemma axis_error_inside_0 m i e : ¬ (i >= m.(r) ∨ i < 0) → ¬ axis_error m 0 i e.
Proof. intros Hi [[_ [[_ ?]|[? _]]]|(_ & ? & _)]; [lia|done|done]. Qed.

Lemma axis_error_inside_1 m i e : ¬ (i >= m.(c) ∨ i < 0) → ¬ axis_error m 1 i e.
Proof. intros Hi [[_ [[? _]|[_ ?]]]|(_ & _ & ?)]; [done|lia|done]. Qed.

Lemma axis_error_index_0 {A : Type} m i e :
  i >= m.(r) ∨ i < 0 → Exit (A:=A) IndexError = Exit e ↔ axis_error m 0 i e.
Proof.
  intros Hi. split.
  - intros [= <-]. left. split; [done|]. left. split; [done|lia].
  - intros [[-> _]|(_ & ? & _)]; done.
Qed.

Lemma axis_error_index_1 {A : Type} m i e :
  i >= m.(c) ∨ i < 0 → Exit (A:=A) IndexError = Exit e ↔ axis_error m 1 i e.
Proof.
  intros Hi. split.
  - intros [= <-]. left. split; [done|]. right. split; [done|lia].
  - intros [[-> _]|(_ & _ & ?)]; done.
Qed.

Lemma axis_error_axis {A : Type} m axis i e :
  axis ≠ 0 → axis ≠ 1 → Exit (A:=A) AxisError = Exit e ↔ axis_error m axis i e.
Proof.
  intros Ha0 Ha1. split.
  - intros [= <-]. by right.
  - intros [[_ [[? _]|[? _]]]|[-> _]]; done.
Qed.

Lemma axis_error_quiet_0 {A : Type} (x : result A) m i e :
  ¬ (i >= m.(r) ∨ i < 0) → quiet x → x = Exit e ↔ axis_error m 0 i e.
Proof.
  intros Hi Hq. split; [intros Hx; by destruct (Hq e)|].
  intros Herr. by destruct (axis_error_inside_0 m i e).
Qed.

Lemma axis_error_quiet_1 {A : Type} (x : result A) m i e :
  ¬ (i >= m.(c) ∨ i < 0) → quiet x → x = Exit e ↔ axis_error m 1 i e.
Proof.
  intros Hi Hq. split; [intros Hx; by destruct (Hq e)|].
  intros Herr. by destruct (axis_error_inside_1 m i e).
Qed.

Lemma Sum_exit m axis i e : Sum m [axis; i] = Exit e ↔ axis_error m axis i e.
Proof.
  unfold Sum, printErr. destruct (decide (axis = 0)) as [->|H0].
  { case_decide; [by apply axis_error_index_0|].
    apply axis_error_quiet_0; [done|]. apply quiet_reduce. }
  destruct (decide (axis = 1)) as [->|H1]; [|by apply axis_error_axis].
  case_decide; [by apply axis_error_index_1|].
  apply axis_error_quiet_1; [done|].
  apply (quiet_reduce fadd m.(vals) (λ k, k *! m.(c) +! i)).
Qed.

Lemma Prd_exit m axis i e : Prd m [axis; i] = Exit e ↔ axis_error m axis i e.
Proof.
  unfold Prd, printErr. destruct (decide (axis = 0)) as [->|H0].
  { case_decide; [by apply axis_error_index_0|].
    apply axis_error_quiet_0; [done|]. apply quiet_reduce. }
  destruct (decide (axis = 1)) as [->|H1]; [|by apply axis_error_axis].
  case_decide; [by apply axis_error_index_1|].
  apply axis_error_quiet_1; [done|].
  apply (quiet_reduce fmul m.(vals) (λ k, k *! m.(c) +! i)).
Qed.

Lemma Avg_exit m axis i e : Avg m [axis; i] = Exit e ↔ axis_error m axis i e.
Proof.
  unfold Avg, printErr. destruct (decide (axis = 0)) as [->|H0].
  { case_decide; [by apply axis_error_index_0|].
    apply axis_error_quiet_0; [done|].
    apply quiet_bind; [apply quiet_reduce|]. intros s. apply quiet_Ok. }
  destruct (decide (axis = 1)) as [->|H1]; [|by apply axis_error_axis].
  case_decide; [by apply axis_error_index_1|].
  apply axis_error_quiet_1; [done|].
  apply quiet_bind; [|intros s; apply quiet_Ok].
  apply (quiet_reduce fadd m.(vals) (λ k, k *! m.(c) +! i)).
Qed.

Lemma Std_exit m axis i e : Std m [axis; i] = Exit e ↔ axis_error m axis i e.
Proof.
  unfold Std, printErr. destruct (decide (axis = 0)) as [->|H0].
  { case_decide as Hi; [by apply axis_error_index_0|].
    apply axis_error_quiet_0; [done|].
    apply quiet_bind.
    { intros e' He'%Avg_exit. by destruct (axis_error_inside_0 m i e'). }
    intros avg. apply quiet_bind; [|intros s; apply quiet_Ok].
    apply (quiet_reduce (sq_dev avg)). }
  destruct (decide (axis = 1)) as [->|H1]; [|by apply axis_error_axis].
  case_decide as Hi; [by apply axis_error_index_1|].
  apply axis_error_quiet_1; [done|].
  apply quiet_bind.
  { intros e' He'%Avg_exit. by destruct (axis_error_inside_1 m i e'). }
  intros avg. apply quiet_bind; [|intros s; apply quiet_Ok].
  apply (quiet_reduce (sq_dev avg) m.(vals) (λ k, k *! m.(c) +! i)).
Qed.

Lemma Min_exit m axis i e : Min m [axis; i] = Exit e ↔ axis_error m axis i e.
Proof.
  unfold Min, printErr. destruct (decide (axis = 0)) as [->|H0].
  { case_decide; [by apply axis_error_index_0|].
    apply axis_error_quiet_0; [done|].
    apply quiet_bind; [apply quiet_ld|]. intros v0.
    apply (quiet_scan flt m.(vals) (λ k, i *! m.(c) +! k)). }
  destruct (decide (axis = 1)) as [->|H1]; [|by apply axis_error_axis].
  case_decide; [by apply axis_error_index_1|].
  apply axis_error_quiet_1; [done|].
  apply quiet_bind; [apply quiet_ld|]. intros v0.
  apply (quiet_scan flt m.(vals) (λ k, k *! m.(c) +! i)).
Qed.

Lemma Max_exit m axis i e : Max m [axis; i] = Exit e ↔ axis_error m axis i e.
Proof.
  unfold Max, printErr. destruct (decide (axis = 0)) as [->|H0].
  { case_decide; [by apply axis_error_index_0|].
    apply axis_error_quiet_0; [done|].
    apply quiet_bind; [apply quiet_ld|]. intros v0.
    apply (quiet_scan fgt m.(vals) (λ k, i *! m.(c) +! k)). }
  destruct (decide (axis = 1)) as [->|H1]; [|by apply axis_error_axis].
  case_decide; [by apply axis_error_index_1|].
  apply axis_error_quiet_1; [done|].
  apply quiet_bind; [apply quiet_ld|]. intros v0.
  apply (quiet_scan fgt m.(vals) (λ k, k *! m.(c) +! i)).
Qed.

(** The values, for an index inside the matrix. *)
Lemma Sum_row m i :
  wf m → 0 <= i < m.(r) → Sum m [0; i] = Ok (foldl fadd f0 (row_elems m i)).
Proof.
  intros Hwf Hi. unfold Sum. rewrite decide_True by done.
  rewrite decide_False by lia. by apply row_reduce.
Qed.

Lemma Sum_col m j :
  wf m → 0 <= j < m.(c) → Sum m [1; j] = Ok (foldl fadd f0 (col_elems m j)).
Proof.
  intros Hwf Hj. unfold Sum. rewrite decide_False by done.
  rewrite decide_True by done. rewrite decide_False by lia.
  by apply col_reduce.
Qed.

Lemma Prd_row m i :
  wf m → 0 <= i < m.(r) → Prd m [0; i] = Ok (foldl fmul f1 (row_elems m i)).
Proof.
  intros Hwf Hi. unfold Prd. rewrite decide_True by done.
  rewrite decide_False by lia. by apply row_reduce.
Qed.

Lemma Prd_col m j :
  wf m → 0 <= j < m.(c) → Prd m [1; j] = Ok (foldl fmul f1 (col_elems m j)).
Proof.
  intros Hwf Hj. unfold Prd. rewrite decide_False by done.
  rewrite decide_True by done. rewrite decide_False by lia.
  by apply col_reduce.
Qed.

Lemma Avg_row m i :
  wf m → 0 <= i < m.(r) →
  Avg m [0; i] = Ok (fdiv (foldl fadd f0 (row_elems m i)) (of_int m.(c))).
Proof.
  intros Hwf Hi. unfold Avg. rewrite decide_True by done.
  rewrite decide_False by lia. by rewrite row_reduce.
Qed.

Lemma Avg_col m j :
  wf m → 0 <= j < m.(c) →
  Avg m [1; j] = Ok (fdiv (foldl fadd f0 (col_elems m j)) (of_int m.(r))).
Proof.
  intros Hwf Hj. unfold Avg. rewrite decide_False by done.
  rewrite decide_True by done. rewrite decide_False by lia.
  by rewrite col_reduce.
Qed.

Lemma Std_row m i :
  wf m → 0 <= i < m.(r) →
  Std m [0; i] =
    Ok (root_mean
          (foldl (sq_dev (fdiv (foldl fadd f0 (row_elems m i)) (of_int m.(c))))
                 f0 (row_elems m i))
          (len m.(vals))).
Proof.
  intros Hwf Hi. unfold Std. rewrite decide_True by done.
  rewrite decide_False by lia. rewrite Avg_row by done.
  cbn [mbind result_bind]. by rewrite row_reduce.
Qed.

Lemma Std_col m j :
  wf m → 0 <= j < m.(c) →
  Std m [1; j] =
    Ok (root_mean
          (foldl (sq_dev (fdiv (foldl fadd f0 (col_elems m j)) (of_int m.(r))))
                 f0 (col_elems m j))
          (len m.(vals))).
Proof.
  intros Hwf Hj. unfold Std. rewrite decide_False by done.
  rewrite decide_True by done. rewrite decide_False by lia.
  rewrite Avg_col by done.
  cbn [mbind result_bind]. by rewrite col_reduce.
Qed.

Lemma Prd_whole m : Prd m [] = Ok (foldl fmul f1 m.(vals)).
Proof. unfold Prd. apply whole_reduce. Qed.

End AxisFacts.

(** ** The order of the floats, and the searches *)

Lemma lex_lt_trans (e1 e2 e3 : Z) (m1 m2 m3 : positive) :
  match e1 ?= e2 with
  | Lt => Lt | Gt => Gt | Eq => Pos.compare_cont Eq m1 m2
  end = Lt →
  match e2 ?= e3 with
  | Lt => Lt | Gt => Gt | Eq => Pos.compare_cont Eq m2 m3
  end = Lt →
  match e1 ?= e3 with
  | Lt => Lt | Gt => Gt | Eq => Pos.compare_cont Eq m1 m3
  end = Lt.
Proof.
  change (Pos.compare_cont Eq m1 m2) with (Pos.compare m1 m2).
  change (Pos.compare_cont Eq m2 m3) with (Pos.compare m2 m3).
  change (Pos.compare_cont Eq m1 m3) with (Pos.compare m1 m3).
  destruct (Z.compare_spec e1 e2), (Z.compare_spec e2 e3), (Z.compare_spec e1 e3);
    try done; try lia.
  destruct (Pos.compare_spec m1 m2), (Pos.compare_spec m2 m3),
    (Pos.compare_spec m1 m3); try done; lia.
Qed.

Lemma lex_gt_trans (e1 e2 e3 : Z) (m1 m2 m3 : positive) :
  match e1 ?= e2 with
  | Lt => Gt | Gt => Lt | Eq => CompOpp (Pos.compare_cont Eq m1 m2)
  end = Lt →
  match e2 ?= e3 with
  | Lt => Gt | Gt => Lt | Eq => CompOpp (Pos.compare_cont Eq m2 m3)
  end = Lt →
  match e1 ?= e3 with
  | Lt => Gt | Gt => Lt | Eq => CompOpp (Pos.compare_cont Eq m1 m3)
  end = Lt.
Proof.
  change (Pos.compare_cont Eq m1 m2) with (Pos.compare m1 m2).
  change (Pos.compare_cont Eq m2 m3) with (Pos.compare m2 m3).
  change (Pos.compare_cont Eq m1 m3) with (Pos.compare m1 m3).
  destruct (Z.compare_spec e1 e2), (Z.compare_spec e2 e3), (Z.compare_spec e1 e3);
    try done; try lia.
  destruct (Pos.compare_spec m1 m2), (Pos.compare_spec m2 m3),
    (Pos.compare_spec m1 m3); try done; lia.
Qed.

Lemma SFltb_irrefl x : SFltb x x = false.
Proof.
  unfold SFltb.
  destruct x as [s|s| |s m e]; try destruct s; cbn; try done.
  - rewrite Z.compare_refl.
    change (Pos.compare_cont Eq m m) with (Pos.compare m m).
    by rewrite Pos.compare_refl.
  - rewrite Z.compare_refl.
    change (Pos.compare_cont Eq m m) with (Pos.compare m m).
    by rewrite Pos.compare_refl.
Qed.

Lemma SFltb_Lt x y : SFltb x y = true ↔ SFcompare x y = Some Lt.
Proof. unfold SFltb. destruct (SFcompare x y) as [[]|]; split; done. Qed.

Lemma SFltb_trans x y z :
  SFltb x y = true → SFltb y z = true → SFltb x z = true.
Proof.
  rewrite !SFltb_Lt.
  destruct x as [sx|sx| |sx mx ex], y as [sy|sy| |sy my ey],
    z as [sz|sz| |sz mz ez];
    try destruct sx; try destruct sy; try destruct sz; cbn; try done.
  - intros [= H1] [= H2]. f_equal. by apply (lex_gt_trans ex ey ez mx my mz).
  - intros [= H1] [= H2]. f_equal. by apply (lex_lt_trans ex ey ez mx my mz).
Qed.

(** [<] on [float32] and on [float64] is a strict order, and so is [>]. *)
Lemma float32_lt_strict : strict (flt (F:=float32)).
Proof. split; [apply SFltb_irrefl | apply SFltb_trans]. Qed.

Lemma float64_lt_strict : strict (flt (F:=float64)).
Proof.
  split.
  - intros x. cbn. rewrite ltb_spec. apply SFltb_irrefl.
  - intros x y z. cbn. rewrite !ltb_spec. apply SFltb_trans.
Qed.

Lemma fgt_strict {F : Type} `{FloatOps F} : strict (flt (F:=F)) → strict (fgt (F:=F)).
Proof.
  intros [Hirr Htr]. unfold fgt. split; [done|].
  intros x y z Hxy Hyz. by apply (Htr z y x).
Qed.

Section SearchOrderFacts.
Context {F : Type} `{FloatOps F}.
Implicit Types (m : Mat F).

(** The scan of [Min] and [Max] along a line, for a strict order: the
    result is the first position of an extreme element. *)
Lemma scan_line_extreme (cmp : F → F → bool) (l : list F) (off : Z → Z) n :
  strict cmp → 0 < n →
  (∀ k, 0 <= k < n → 0 <= off k < len l) →
  ∃ i v,
    (best ← ld l (off 0);
     for_range 1 n (λ i '(index, best),
       x ← ld l (off i);
       if cmp x best then x ← ld l (off i); Ok (i, x) else Ok (index, best))
       (0, best)) = Ok (i, v) ∧
    line_extreme cmp (λ k, default f0 (l !! Z.to_nat (off k))) n i v.
Proof.
  intros [Hirr Htr] Hn Hoff.
  set (g := λ k, default f0 (l !! Z.to_nat (off k))).
  assert (∀ k, 0 <= k < n → ld l (off k) = Ok (g k)) as Hld.
  { intros k Hk. apply ld_default. by apply Hoff. }
  rewrite Hld by lia. cbn [mbind result_bind].
  destruct (for_range_inv
    (λ (k : Z) (s : Z * F),
       0 <= s.1 < k ∧ g s.1 = s.2 ∧
       (∀ q, 0 <= q < k → cmp (g q) s.2 = false) ∧
       (∀ q, 0 <= q < s.1 → g q ≠ s.2))
    (λ i '(index, best),
      x ← ld l (off i);
      if cmp x best then x ← ld l (off i); Ok (i, x) else Ok (index, best))
    1 n (0, g 0)) as ([i v] & Hrun & Hi & Hv & Hleast & Hfirst).
  - lia.
  - cbn [fst snd]. split; [lia|]. split; [done|]. split.
    + intros q Hq. replace q with 0 by lia. apply Hirr.
    + intros q Hq. lia.
  - intros k [index best] Hk (Hidx & Hbest & Hleast & Hfirst);
      cbn [fst snd] in *.
    rewrite Hld by lia. cbn [mbind result_bind].
    destruct (cmp (g k) best) eqn:Hcmp.
    + eexists. split; [done|]. cbn [fst snd].
      split; [lia|]. split; [done|]. split.
      * intros q Hq. destruct (decide (q = k)) as [->|Hne]; [apply Hirr|].
        destruct (cmp (g q) (g k)) eqn:Hqk; [|done].
        rewrite <- (Hleast q) by lia. symmetry. by apply (Htr _ (g k)).
      * intros q Hq Heq. specialize (Hleast q). rewrite Heq in Hleast.
        rewrite Hleast in Hcmp by lia. done.
    + eexists. split; [done|]. cbn [fst snd].
      split; [lia|]. split; [done|]. split; [|done].
      intros q Hq. destruct (decide (q = k)) as [->|Hne]; [done|].
      apply Hleast. lia.
  - exists i, v. split; [exact Hrun|]. cbn [fst snd] in *. done.
Qed.

Lemma line_extreme_ext (cmp : F → F → bool) (g g' : Z → F) n k v :
  (∀ q, 0 <= q < n → g q = g' q) →
  line_extreme cmp g n k v → line_extreme cmp g' n k v.
Proof.
  intros Hext (Hk & Hv & Hleast & Hfirst). split; [done|].
  split; [by rewrite <- Hext|]. split.
  - intros q Hq. rewrite <- Hext by done. by apply Hleast.
  - intros q Hq. rewrite <- Hext by lia. by apply Hfirst.
Qed.

Lemma search_whole (cmp : F → F → bool) (l : list F) :
  strict cmp → 0 < len l →
  ∃ i v,
    (best ← ld l 0;
     for_range 1 (len l) (λ i '(index, best),
       x ← ld l i;
       if cmp x best then x ← ld l i; Ok (i, x) else Ok (index, best))
       (0, best)) = Ok (i, v) ∧
    line_extreme cmp (λ k, default f0 (l !! Z.to_nat k)) (len l) i v.
Proof.
  intros Hs Hl. by apply (scan_line_extreme cmp l (λ k, k) (len l)).
Qed.

Lemma search_row (cmp : F → F → bool) m i :
  strict cmp → wf m → 0 <= i < m.(r) → 0 < m.(c) →
  ∃ k v,
    (best ← ld m.(vals) (i *! m.(c));
     for_range 1 m.(c) (λ k '(index, best),
       x ← ld m.(vals) (i *! m.(c) +! k);
       if cmp x best then x ← ld m.(vals) (i *! m.(c) +! k); Ok (k, x)
       else Ok (index, best)) (0, best)) = Ok (k, v) ∧
    line_extreme cmp (entry m i) m.(c) k v.
Proof.
  intros Hs Hwf Hi Hc0. pose proof Hwf as (Hr & Hc & Hl & Hrm & Hcm & Hm).
  assert (0 <= 0 < m.(c)) as H0 by lia.
  pose proof (offset_bounds _ _ _ _ Hi H0) as Hb0.
  destruct (scan_line_extreme cmp m.(vals) (λ k, i *! m.(c) +! k) m.(c))
    as (k & v & Hrun & Hext); [done|done| |].
  - intros k Hk. pose proof (offset_bounds _ _ _ _ Hi Hk).
    rewrite row_offset by done. lia.
  - exists k, v. split.
    + rewrite <- Hrun. f_equal.
      rewrite row_offset by done. rewrite mul_id by (apply in_range_nonneg; nia).
      f_equal; lia.
    + eapply line_extreme_ext; [|exact Hext].
      intros q Hq. cbn beta. rewrite row_offset by done. done.
Qed.

Lemma search_col (cmp : F → F → bool) m j :
  strict cmp → wf m → 0 <= j < m.(c) → 0 < m.(r) →
  ∃ k v,
    (best ← ld m.(vals) j;
     for_range 1 m.(r) (λ k '(index, best),
       x ← ld m.(vals) (k *! m.(c) +! j);
       if cmp x best then x ← ld m.(vals) (k *! m.(c) +! j); Ok (k, x)
       else Ok (index, best)) (0, best)) = Ok (k, v) ∧
    line_extreme cmp (λ k, entry m k j) m.(r) k v.
Proof.
  intros Hs Hwf Hj Hr0. pose proof Hwf as (Hr & Hc & Hl & Hrm & Hcm & Hm).
  assert (0 <= 0 < m.(r)) as H0 by lia.
  destruct (scan_line_extreme cmp m.(vals) (λ k, k *! m.(c) +! j) m.(r))
    as (k & v & Hrun & Hext); [done|done| |].
  - intros k Hk. pose proof (offset_bounds _ _ _ _ Hk Hj).
    rewrite row_offset by done. lia.
  - exists k, v. split.
    + rewrite <- Hrun. f_equal.
      rewrite row_offset by done. f_equal; lia.
    + eapply line_extreme_ext; [|exact Hext].
      intros q Hq. cbn beta. rewrite row_offset by done. done.
Qed.

End SearchOrderFacts.

Section SearchTheorems.
Context {F : Type} `{FloatOps F}.
Implicit Types (m : Mat F).

Lemma searches_of_the_buffer m :
  strict (flt (F:=F)) → 0 < len m.(vals) →
  Forall (λ '(search, cmp),
            ∃ i v, search m [] = Ok (i, v) ∧
                   line_extreme cmp (λ k, default f0 (m.(vals) !! Z.to_nat k))
                                (len m.(vals)) i v)
         [(Min, flt); (Max, fgt)].
Proof.
  intros Hs Hl. repeat first [apply Forall_nil_2 | apply Forall_cons_2].
  - by apply (search_whole flt).
  - apply (search_whole fgt); [by apply fgt_strict|done].
Qed.

Lemma searches_of_the_lines m i j :
  strict (flt (F:=F)) → wf m → 0 <= i < m.(r) → 0 <= j < m.(c) →
  Forall (λ '(search, cmp),
            (∃ k v, search m [0; i] = Ok (k, v) ∧
                    line_extreme cmp (entry m i) m.(c) k v) ∧
            (∃ k v, search m [1; j] = Ok (k, v) ∧
                    line_extreme cmp (λ k, entry m k j) m.(r) k v))
         [(Min, flt); (Max, fgt)].
Proof.
  intros Hs Hwf Hi Hj. pose proof (fgt_strict Hs) as Hs'.
  repeat first [apply Forall_nil_2 | apply Forall_cons_2]; split.
  - unfold Min. rewrite decide_True by done. rewrite decide_False by lia.
    apply (search_row flt); [done|done|done|lia].
  - unfold Min. rewrite decide_False by done. rewrite decide_True by done.
    rewrite decide_False by lia. apply (search_col flt); [done|done|done|lia].
  - unfold Max. rewrite decide_True by done. rewrite decide_False by lia.
    apply (search_row fgt); [done|done|done|lia].
  - unfold Max. rewrite decide_False by done. rewrite decide_True by done.
    rewrite decide_False by lia. apply (search_col fgt); [done|done|done|lia].
Qed.

End SearchTheorems.

(** * The claims *)

(** Closing a well-formedness goal on a literal matrix. *)
Ltac wf_literal :=
  unfold wf, len_invariant, len, GoInt.max_int; cbn; repeat split; lia.

(** C1. The length invariant [len(buffer) = rows * cols] does not survive
    [Append]: on the example of the method's own documentation, a 1x2
    matrix of 2.0 with a 2x2 matrix of 3.0 appended, the receiver is left
    with one row, two columns and six elements. *)
Example Append_breaks_len_invariant :
  ∃ m n m',
    filled64 1 2 2 = Ok m ∧ filled64 2 2 3 = Ok n ∧
    len_invariant m ∧ len_invariant n ∧
    Append m n = Ok m' ∧
    m'.(r) * m'.(c) = 2 ∧ len m'.(vals) = 6 ∧ ¬ len_invariant m'.
Proof.
  do 3 eexists. repeat split; try reflexivity.
  unfold len_invariant. vm_compute. discriminate.
Qed.

(** C2. [Append] concatenates the two buffers and leaves the row count
    of the receiver as it was: the 1x2 matrix of 2.0 with the 2x2 matrix
    of 3.0 appended still has one row, not three, in either width. *)
Example Append_keeps_row_count :
  (m ← filled64 1 2 2; n ← filled64 2 2 3; Append m n) =
    Ok {| r := 1; c := 2; vals := [2; 2; 3; 3; 3; 3]%float |} ∧
  (m ← filled32 1 2 2; n ← filled32 2 2 3; Append m n) =
    Ok {| r := 1; c := 2;
          vals := float32_of_int <$> [2; 2; 3; 3; 3; 3] |}.
Proof. split; reflexivity. Qed.

(** C3. [m.Dot(m)], receiver and argument one object, is not the product
    of [m] with itself: for [[1, 2], [3, 4]] the method returns
    [[10, 14], [14, 20]], the product of the transpose of [m] with [m],
    where the sum over [k] of [m(i,k) * m(k,j)] gives
    [[7, 10], [15, 22]], the result for two distinct objects. *)
Example Dot_of_an_object_with_itself :
  Dot_result (<[0%nat := square22]> ∅) [] 0%nat 0%nat =
    Ok {| r := 2; c := 2; vals := [10; 14; 14; 20]%float |} ∧
  (λ ij, dot_entry square22 square22 ij.1 ij.2) <$> [(0, 0); (0, 1); (1, 0); (1, 1)] =
    [7; 10; 15; 22]%float ∧
  Dot_result (<[1%nat := square22]> (<[0%nat := square22]> ∅)) [] 0%nat 1%nat =
    Ok {| r := 2; c := 2; vals := [7; 10; 15; 22]%float |}.
Proof. repeat split; vm_compute; reflexivity. Qed.

(** C4. [m.Dot(n)] leaves its argument as it found it: for two distinct
    well-formed objects with [m.cols = n.rows], the capacities of the
    result and of the copy (twice their lengths) fitting a slice, the call
    returns and the object [n] has the shape and the elements it had
    before, although it is transposed in between.  It [Equals] a copy
    taken before the call exactly when none of its elements is a NaN: a
    NaN differs from itself. *)
Theorem Dot_leaves_argument_unchanged {F : Type} `{FloatOps F}
    (h : gmap nat (Mat F)) (p : list (list F)) (pm pn : nat) (m n : Mat F) :
  h !! pm = Some m → h !! pn = Some n → pm ≠ pn →
  wf m → wf n → m.(c) = n.(r) →
  2 * (m.(r) * n.(c)) <= GoInt.max_int →
  2 * (n.(r) * n.(c)) <= GoInt.max_int →
  ∃ n0 h' p' o n',
    Copy n = Ok n0 ∧
    Dot h p pm pn = Ok (h', p', o) ∧
    h' !! pn = Some n' ∧ n' = n ∧
    ∃ b, Equals n' n0 = Ok b ∧ (b = true ↔ self_equal n.(vals)).
Proof.
  intros Hm Hn Hne Hwm Hwn Hcr Hfit _.
  destruct (Dot_distinct h p pm pn m n) as (p' & o & Hdot & _); try done.
  { destruct Hwm as (? & _), Hwn as (_ & ? & _). nia. }
  exists n, h, p', o, n. repeat split; try done.
  - by apply Copy_wf.
  - by apply Equals_self.
Qed.

Lemma Dot_leaves_argument_unchanged_witness :
  ∃ n0 h' p' o n',
    Copy rect32 = Ok n0 ∧
    Dot (<[1%nat := rect32]> (<[0%nat := rect23]> ∅)) [] 0%nat 1%nat
      = Ok (h', p', o) ∧
    h' !! 1%nat = Some n' ∧ n' = rect32 ∧
    ∃ b, Equals n' n0 = Ok b ∧ (b = true ↔ self_equal rect32.(vals)).
Proof.
  apply (Dot_leaves_argument_unchanged _ [] 0%nat 1%nat rect23 rect32).
  - reflexivity.
  - reflexivity.
  - lia.
  - wf_literal.
  - wf_literal.
  - reflexivity.
  - unfold GoInt.max_int. cbn. lia.
  - unfold GoInt.max_int. cbn. lia.
Defined.

(** Without the proviso on NaN the statement fails: after
    [[[1, 2], [3, 4]].Dot(n)] with [n] the matrix [[NaN, 2], [3, 4]], the
    object [n] is what it was, and [Equals] of it and of the copy taken
    before the call is false. *)
Example Dot_argument_with_NaN_differs_from_its_copy :
  ∃ n0 h' p' o n',
    wf square22 ∧ wf square22_nan ∧
    Copy square22_nan = Ok n0 ∧
    Dot (<[1%nat := square22_nan]> (<[0%nat := square22]> ∅)) [] 0%nat 1%nat
      = Ok (h', p', o) ∧
    h' !! 1%nat = Some n' ∧ n' = square22_nan ∧
    Equals n' n0 = Ok false.
Proof.
  do 5 eexists. split; [wf_literal|]. split; [wf_literal|].
  split; [vm_compute; reflexivity|].
  split; [vm_compute; reflexivity|].
  split; [vm_compute; reflexivity|].
  split; [reflexivity|]. vm_compute. reflexivity.
Qed.

(** C5. [Std(axis, index)] divides the sum of the squared deviations by
    the length of the whole buffer, not by the number of selected
    elements: for the row [1, 3] of a 4x2 matrix it returns 0.5, and for
    the column [1, 3] of a 2x4 matrix as well, where the population
    standard deviation of [1, 3] is 1; in either width. *)
Example Std_of_a_row_or_column :
  Std tall42 [0; 0] = Ok 0.5%float ∧
  population_std (row_elems tall42 0) = 1%float ∧
  Std wide24 [1; 0] = Ok 0.5%float ∧
  population_std (col_elems wide24 0) = 1%float ∧
  Std tall42_f32 [0; 0] = Ok (float32_of_float64 0.5%float) ∧
  population_std (row_elems tall42_f32 0) = float32_of_int 1.
Proof. repeat split; vm_compute; reflexivity. Qed.

(** C6. [Eyef64(x)] is not the identity matrix: it writes 1.0 at the
    offsets [i*i - 1] for [i] from 1 to [x - 1].  [Eyef64(2)] is
    [[1, 0], [0, 0]], and [[1, 2], [3, 4]] dotted with it is
    [[1, 0], [3, 0]]. *)
Example Eye_is_not_the_identity :
  Eye 2 = Ok {| r := 2; c := 2; vals := [1; 0; 0; 0]%float |} ∧
  Eye 3 = Ok {| r := 3; c := 3; vals := [1; 0; 0; 1; 0; 0; 0; 0; 0]%float |} ∧
  (e ← Eye 2;
   Dot_result (<[1%nat := e]> (<[0%nat := square22]> ∅)) [] 0%nat 1%nat) =
    Ok {| r := 2; c := 2; vals := [1; 0; 3; 0]%float |} ∧
  (e ← Eye 2;
   o ← Dot_result (<[1%nat := e]> (<[0%nat := square22]> ∅)) [] 0%nat 1%nat;
   Equals o square22) = Ok false.
Proof. repeat split; vm_compute; reflexivity. Qed.

(** C7. Transposing twice restores the matrix: for a well-formed [m]
    (the capacity of the copy fitting a slice), [m.T().T()] runs and
    leaves [m] with the shape and the elements it had; in between, the
    dimensions are exchanged and the element [(j, i)] is the element
    [(i, j)] of [m].  The result [Equals] a copy taken before exactly when
    no element is a NaN: a NaN differs from itself.  A row or column
    vector takes the fast path both times: the pool is not touched and
    the buffer is not moved. *)
Theorem T_twice_restores {F : Type} `{FloatOps F}
    (p : list (list F)) (m : Mat F) :
  wf m → 2 * (m.(r) * m.(c)) <= GoInt.max_int →
  ∃ m0 p1 m1 p2 m2,
    Copy m = Ok m0 ∧
    T p m = Ok (p1, m1) ∧ T p1 m1 = Ok (p2, m2) ∧
    m2 = m ∧
    Shape m1 = (m.(c), m.(r)) ∧
    (∀ i j, 0 <= i < m.(r) → 0 <= j < m.(c) → entry m1 j i = entry m i j) ∧
    (∃ b, Equals m2 m0 = Ok b ∧ (b = true ↔ self_equal m.(vals))) ∧
    (m.(r) = 1 ∨ m.(c) = 1 → p1 = p ∧ p2 = p ∧ m1.(vals) = m.(vals)).
Proof.
  intros Hwf _. pose proof (wf_transpose m Hwf) as Hwt.
  destruct (T_spec p m Hwf) as (p1 & H1).
  destruct (T_spec p1 (transpose m) Hwt) as (p2 & H2).
  rewrite transpose_involutive in H2 by done.
  exists m, p1, (transpose m), p2, m.
  split; [by apply Copy_wf|]. split; [done|]. split; [done|].
  split; [done|]. split; [done|].
  split; [intros i j Hi Hj; by apply entry_transpose|].
  split; [by apply Equals_self|].
  intros Hv. repeat split.
  - rewrite T_vector in H1 by done. congruence.
  - assert ((transpose m).(r) = 1 ∨ (transpose m).(c) = 1) as Hv'
      by (simpl; tauto).
    rewrite (T_vector p m) in H1 by done.
    assert (p1 = p) as -> by congruence.
    rewrite (T_vector p (transpose m)) in H2 by done. congruence.
  - destruct Hwf as (Hr & Hc & Hl & _). simpl.
    by apply transpose_vals_vector.
Qed.

Lemma T_twice_restores_witness :
  ∃ m0 p1 m1 p2 m2,
    Copy rect23 = Ok m0 ∧
    T [] rect23 = Ok (p1, m1) ∧ T p1 m1 = Ok (p2, m2) ∧
    m2 = rect23 ∧
    Shape m1 = (rect23.(c), rect23.(r)) ∧
    (∀ i j, 0 <= i < rect23.(r) → 0 <= j < rect23.(c) →
            entry m1 j i = entry rect23 i j) ∧
    (∃ b, Equals m2 m0 = Ok b ∧ (b = true ↔ self_equal rect23.(vals))) ∧
    (rect23.(r) = 1 ∨ rect23.(c) = 1 →
     p1 = [] ∧ p2 = [] ∧ m1.(vals) = rect23.(vals)).
Proof.
  apply (T_twice_restores [] rect23).
  - wf_literal.
  - unfold GoInt.max_int. cbn. lia.
Defined.

(** Without the proviso on NaN the statement fails: [m.T().T()] on the
    matrix [[NaN, 2], [3, 4]] leaves the matrix as it was, and [Equals] of
    it and of the copy taken before is false. *)
Example T_twice_with_NaN_differs_from_its_copy :
  ∃ m0 p1 m1 p2 m2,
    wf square22_nan ∧
    Copy square22_nan = Ok m0 ∧
    T [] square22_nan = Ok (p1, m1) ∧ T p1 m1 = Ok (p2, m2) ∧
    m2 = square22_nan ∧
    Equals m2 m0 = Ok false.
Proof.
  do 5 eexists. split; [wf_literal|].
  split; [vm_compute; reflexivity|].
  split; [vm_compute; reflexivity|].
  split; [vm_compute; reflexivity|].
  split; [reflexivity|]. vm_compute. reflexivity.
Qed.

(** C8. [Matf32.Sub] does not take the scalar its siblings take: its type
    switch reads [case float32:], so the float64 scalar of
    [m.Sub(2.0)], the call its documentation gives, falls to the default
    branch and is reported as a wrong type, for every receiver; [Add],
    [Mul] and [Div] of [Matf32], and [Sub] of [Matf64], apply the same
    scalar to every element. *)
Theorem Matf32_Sub_rejects_float64 (m : Matf32) (w : Matf64) (x : float64) :
  Matf32.Sub m (VFloat64 x) = Exit TypeError ∧
  (m ← filled32 2 3 5; Matf32.Sub m (VFloat64 2%float)) = Exit TypeError ∧
  Matf32.Add m (VFloat64 x) = Ok (scalar_op fadd m (float32_of_float64 x)) ∧
  Matf32.Mul m (VFloat64 x) = Ok (scalar_op fmul m (float32_of_float64 x)) ∧
  Matf32.Div m (VFloat64 x) = Ok (scalar_op fdiv m (float32_of_float64 x)) ∧
  Matf64.Sub w (VFloat64 x) = Ok (scalar_op fsub w x) ∧
  (m ← filled64 2 3 5; Matf64.Sub m (VFloat64 2%float)) = filled64 2 3 3.
Proof. repeat split; reflexivity. Qed.

(** C9. [SetCol] and [SetRow] check the index only when the value is one
    float.  With a slice of the right length and a column or row out of
    range nothing is reported: on [[1, 2], [3, 4]], [SetCol(2, 9.0)] is
    reported as an index error, while [SetCol(2, []float64{9, 9})]
    overwrites the element at row 1, column 0 in its first iteration and
    then stops on a run-time bounds failure.  The same holds for [SetRow]
    and for the float32 width. *)
Example SetCol_slice_is_not_checked :
  Matf64.SetCol square22 2 (VFloat64 9%float) = Exit IndexError ∧
  Matf64.SetCol square22 2 (VSliceFloat64 [9; 9]%float) = Panic IndexOutOfRange ∧
  st square22.(vals) (0 *! square22.(c) +! 2) 9%float = Ok [1; 2; 9; 4]%float ∧
  Matf64.SetCol square22 (-3) (VSliceFloat64 [9; 9]%float) = Panic IndexOutOfRange ∧
  Matf64.SetRow square22 2 (VFloat64 9%float) = Exit IndexError ∧
  Matf64.SetRow square22 2 (VSliceFloat64 [9; 9]%float) = Panic IndexOutOfRange ∧
  Matf64.SetRow square22 (-3) (VSliceFloat64 [9; 9]%float) = Panic IndexOutOfRange ∧
  (m ← filled32 2 2 1; Matf32.SetCol m 2 (VFloat64 9%float)) = Exit IndexError ∧
  (m ← filled32 2 2 1;
   Matf32.SetCol m 2 (VSliceFloat32 (float32_of_int <$> [9; 9]))) =
    Panic IndexOutOfRange.
Proof. repeat split; vm_compute; reflexivity. Qed.

(** C10. [Min()] and [Max()] read [m.vals[0]] before they scan.  On a
    matrix that keeps the length invariant and has [rows * cols > 0] they
    return, every read having been inside the buffer, with a position of
    the buffer and the element it holds; on one with [rows * cols = 0],
    such as the matrix of the constructor without arguments, the first read
    is outside the buffer and ends the call with a run-time bounds failure,
    not with a reported error. *)
Theorem Min_Max_without_arguments {F : Type} `{FloatOps F} (m : Mat F) :
  len_invariant m →
  (m.(r) * m.(c) > 0 →
   ∃ i v j w,
     Min m [] = Ok (i, v) ∧ Max m [] = Ok (j, w) ∧
     0 <= i < len m.(vals) ∧ m.(vals) !! Z.to_nat i = Some v ∧
     0 <= j < len m.(vals) ∧ m.(vals) !! Z.to_nat j = Some w) ∧
  (m.(r) * m.(c) = 0 →
   Min m [] = Panic IndexOutOfRange ∧ Max m [] = Panic IndexOutOfRange) ∧
  (∀ e : Mat F, Newf [] = Ok e →
   Min e [] = Panic IndexOutOfRange ∧ Max e [] = Panic IndexOutOfRange).
Proof.
  intros Hinv. unfold len_invariant in Hinv. split; [|split].
  - intros Hpos.
    destruct (Min_nonempty m) as (i & v & Hmin & Hi & Hv); [lia|].
    destruct (Max_nonempty m) as (j & w & Hmax & Hj & Hw); [lia|].
    exists i, v, j, w. done.
  - intros Hzero. split; [apply Min_empty | apply Max_empty]; lia.
  - intros e [= <-]. split; [by apply Min_empty | by apply Max_empty].
Qed.

Lemma Min_Max_without_arguments_witness :
  len_invariant square22 ∧ square22.(r) * square22.(c) > 0 ∧
  ∃ i v j w,
    Min square22 [] = Ok (i, v) ∧ Max square22 [] = Ok (j, w) ∧
    0 <= i < len square22.(vals) ∧ square22.(vals) !! Z.to_nat i = Some v ∧
    0 <= j < len square22.(vals) ∧ square22.(vals) !! Z.to_nat j = Some w.
Proof.
  assert (len_invariant square22) as Hinv by reflexivity.
  assert (square22.(r) * square22.(c) > 0) as Hpos by (cbn; lia).
  split; [exact Hinv|]. split; [exact Hpos|].
  exact (proj1 (Min_Max_without_arguments square22 Hinv) Hpos).
Defined.
(** * Further properties of the engine *)

(** ** Matrix multiplication and transposition *)

(** X1. [m.Dot(n)] on two distinct well-formed objects with
    [m.cols = n.rows], for a result whose capacity, twice its length, fits
    a slice: the call returns a new
    [m.rows] by [n.cols] matrix whose element [(i, j)] is the sum over [k]
    of [m(i,k) * n(k,j)], accumulated from 0.0 in increasing [k], and the
    store is as it was. *)
Theorem Dot_of_distinct_objects {F : Type} `{FloatOps F}
    (h : gmap nat (Mat F)) (p : list (list F)) (pm pn : nat) (m n : Mat F) :
  h !! pm = Some m → h !! pn = Some n → pm ≠ pn →
  wf m → wf n → m.(c) = n.(r) → 2 * (m.(r) * n.(c)) <= GoInt.max_int →
  ∃ p' o,
    Dot h p pm pn = Ok (h, p', o) ∧
    o.(r) = m.(r) ∧ o.(c) = n.(c) ∧ len_invariant o ∧
    ∀ i j, 0 <= i < m.(r) → 0 <= j < n.(c) →
      entry o i j = dot_entry m n i j.
Proof.
  intros Hm Hn Hne Hwm Hwn Hcr Hfit.
  destruct (Dot_distinct h p pm pn m n)
    as (p' & o & Hdot & Hor & Hoc & Hol & Hentries); try done.
  { destruct Hwm as (? & _), Hwn as (_ & ? & _). nia. }
  exists p', o. repeat split; try done.
  - unfold len_invariant. by rewrite Hor, Hoc.
  - intros i j Hi Hj. unfold entry. rewrite Hoc.
    by rewrite Hentries.
Qed.

Lemma Dot_of_distinct_objects_witness :
  ∃ p' o,
    Dot (<[1%nat := rect32]> (<[0%nat := rect23]> ∅)) [] 0%nat 1%nat =
      Ok (<[1%nat := rect32]> (<[0%nat := rect23]> ∅), p', o) ∧
    o.(r) = rect23.(r) ∧ o.(c) = rect32.(c) ∧ len_invariant o ∧
    ∀ i j, 0 <= i < rect23.(r) → 0 <= j < rect32.(c) →
      entry o i j = dot_entry rect23 rect32 i j.
Proof.
  apply (Dot_of_distinct_objects _ [] 0%nat 1%nat rect23 rect32).
  - reflexivity.
  - reflexivity.
  - lia.
  - wf_literal.
  - wf_literal.
  - reflexivity.
  - unfold GoInt.max_int. cbn. lia.
Defined.

(** X2. [m.Dot(m)], the argument being the receiver itself, on a
    well-formed square matrix: transposing the argument transposes the
    receiver, so the call returns the product of the transpose of [m] with
    [m], element [(i, j)] being the sum over [k] of [m(k,i) * m(k,j)], and
    leaves the store as it was (for a result whose capacity fits a
    slice). *)
Theorem Dot_with_the_receiver_as_argument {F : Type} `{FloatOps F}
    (h : gmap nat (Mat F)) (p : list (list F)) (pm : nat) (m : Mat F) :
  h !! pm = Some m → wf m → m.(r) = m.(c) →
  2 * (m.(r) * m.(c)) <= GoInt.max_int →
  ∃ p' o,
    Dot h p pm pm = Ok (h, p', o) ∧
    Shape o = Shape m ∧ len_invariant o ∧
    ∀ i j, 0 <= i < m.(r) → 0 <= j < m.(c) →
      entry o i j =
        foldl (λ sum k, fadd sum (fmul (entry m k i) (entry m k j))) f0
              (seqZ 0 m.(r)).
Proof.
  intros Hm Hwm Hsq Hfit.
  destruct (Dot_self h p pm m)
    as (p' & o & Hdot & Hor & Hoc & Hol & Hentries); try done.
  { destruct Hwm as (? & ? & _). nia. }
  exists p', o. repeat split; try done.
  - unfold Shape. by rewrite Hor, Hoc.
  - unfold len_invariant. by rewrite Hor, Hoc.
  - intros i j Hi Hj. unfold entry. rewrite Hoc.
    by rewrite Hentries.
Qed.

Lemma Dot_with_the_receiver_as_argument_witness :
  ∃ p' o,
    Dot (<[0%nat := square22]> ∅) [] 0%nat 0%nat =
      Ok (<[0%nat := square22]> ∅, p', o) ∧
    Shape o = Shape square22 ∧ len_invariant o ∧
    ∀ i j, 0 <= i < square22.(r) → 0 <= j < square22.(c) →
      entry o i j =
        foldl (λ sum k, fadd sum (fmul (entry square22 k i) (entry square22 k j)))
              f0 (seqZ 0 square22.(r)).
Proof.
  apply (Dot_with_the_receiver_as_argument _ [] 0%nat square22).
  - reflexivity.
  - wf_literal.
  - reflexivity.
  - unfold GoInt.max_int. cbn. lia.
Defined.

(** X3. Whenever [m.Dot(n)] returns, for a well-formed argument [n], the
    store is as it was before the call, also when [m] and [n] are one
    object and whatever the size of the result. *)
Theorem Dot_returns_with_store_unchanged {F : Type} `{FloatOps F}
    (h h' : gmap nat (Mat F)) (p p' : list (list F)) (pm pn : nat)
    (n o : Mat F) :
  h !! pn = Some n → wf n →
  Dot h p pm pn = Ok (h', p', o) → h' = h.
Proof.
  intros Hn Hwn. unfold Dot, deref.
  destruct (h !! pm) as [m|] eqn:Hm; [|done]. rewrite Hn.
  cbn [mbind result_bind]. case_decide; [done|].
  destruct (Newf [m.(r); n.(c)]) as [o0| |]; cbn [mbind result_bind];
    [|done..].
  destruct (T_spec p n Hwn) as (p1 & ->). cbn [mbind result_bind].
  pose proof (wf_transpose n Hwn) as Hwt.
  destruct (<[pn:=transpose n]> h !! pm) as [m1|]; [|done].
  cbn [mbind result_bind]. rewrite lookup_insert_eq.
  cbn [mbind result_bind].
  destruct (Dot_loops m1 (transpose n) o0) as [o1| |];
    cbn [mbind result_bind]; [|done..].
  destruct (T_spec p1 (transpose n) Hwt) as (p2 & ->).
  cbn [mbind result_bind]. rewrite transpose_involutive by done.
  intros [= <- _ _]. by rewrite insert_insert_eq, insert_id.
Qed.

Lemma Dot_returns_with_store_unchanged_witness :
  <[0%nat := square22]> (∅ : gmap nat Matf64) = <[0%nat := square22]> ∅.
Proof.
  apply (Dot_returns_with_store_unchanged
           (<[0%nat := square22]> ∅) (<[0%nat := square22]> ∅)
           [] [[1; 2; 3; 4]%float] 0%nat 0%nat square22
           {| r := 2; c := 2; vals := [10; 14; 14; 20]%float |}).
  - reflexivity.
  - wf_literal.
  - vm_compute. reflexivity.
Defined.

(** X4. The one fatal error [Dot] reports is the dimension error, and it
    reports it exactly when the receiver's column count differs from the
    argument's row count; every other failure of the call is a panic of
    the Go runtime. *)
Theorem Dot_reports_dimension_errors_only {F : Type} `{FloatOps F}
    (h : gmap nat (Mat F)) (p : list (list F)) (pm pn : nat) (m n : Mat F)
    (e : fatal) :
  h !! pm = Some m → h !! pn = Some n →
  Dot h p pm pn = Exit e ↔ e = DimensionError ∧ m.(c) ≠ n.(r).
Proof.
  intros Hm Hn. split.
  - by apply Dot_exit.
  - intros [-> Hne]. by apply (Dot_dimension_mismatch h p pm pn m n).
Qed.

Lemma Dot_reports_dimension_errors_only_witness :
  Dot (<[1%nat := rect23]> (<[0%nat := rect23]> ∅)) [] 0%nat 1%nat =
    Exit DimensionError ↔
  DimensionError = DimensionError ∧ rect23.(c) ≠ rect23.(r).
Proof.
  apply (Dot_reports_dimension_errors_only _ [] 0%nat 1%nat rect23 rect23).
  - reflexivity.
  - reflexivity.
Defined.

(** X5. [T()] on a well-formed matrix, whatever the pool holds: the call
    returns, the receiver has its two dimensions exchanged and its element
    [(j, i)] is the element [(i, j)] it had, and a pool within its capacity
    of ten buckets stays within it. *)
Theorem T_exchanges_rows_and_columns {F : Type} `{FloatOps F}
    (p : list (list F)) (m : Mat F) :
  wf m →
  ∃ p' m',
    T p m = Ok (p', m') ∧
    Shape m' = (m.(c), m.(r)) ∧ len_invariant m' ∧
    (∀ i j, 0 <= i < m.(r) → 0 <= j < m.(c) → entry m' j i = entry m i j) ∧
    ((length p <= pool_capacity)%nat → (length p' <= pool_capacity)%nat).
Proof.
  intros Hwf. destruct (T_spec p m Hwf) as (p' & Hrun).
  exists p', (transpose m). split; [done|]. split; [done|]. split.
  { apply (wf_transpose m Hwf). }
  split.
  - intros i j Hi Hj. by apply entry_transpose.
  - by apply (T_pool_bound p m p' (transpose m)).
Qed.

Lemma T_exchanges_rows_and_columns_witness :
  ∃ p' m',
    T [] rect23 = Ok (p', m') ∧
    Shape m' = (rect23.(c), rect23.(r)) ∧ len_invariant m' ∧
    (∀ i j, 0 <= i < rect23.(r) → 0 <= j < rect23.(c) →
            entry m' j i = entry rect23 i j) ∧
    ((length ([] : list (list float64)) <= pool_capacity)%nat →
     (length p' <= pool_capacity)%nat).
Proof.
  apply (T_exchanges_rows_and_columns [] rect23). wf_literal.
Defined.

(** ** Rows, columns and single elements *)

(** X6. A negative index of [Row], [Col], [SetRow] and [SetCol] counts
    from the end: the call with [i] in [[-rows, 0)] is the call with
    [rows + i], and likewise for columns, for one float and for a slice. *)
Theorem negative_index_counts_from_the_end {F : Type} `{FloatOps F}
    (m : Mat F) (i j : Z) (x : F) (rowval colval : list F) :
  wf m → - m.(r) <= i < 0 → - m.(c) <= j < 0 →
  Row m i = Row m (m.(r) + i) ∧
  Col m j = Col m (m.(c) + j) ∧
  SetRow_float m i x = SetRow_float m (m.(r) + i) x ∧
  SetCol_float m j x = SetCol_float m (m.(c) + j) x ∧
  SetRow_slice m i rowval = SetRow_slice m (m.(r) + i) rowval ∧
  SetCol_slice m j colval = SetCol_slice m (m.(c) + j) colval.
Proof.
  intros Hwf Hi Hj. repeat split.
  - by apply Row_negative.
  - by apply Col_negative.
  - by apply SetRow_float_negative.
  - by apply SetCol_float_negative.
  - by apply SetRow_slice_negative.
  - by apply SetCol_slice_negative.
Qed.

Lemma negative_index_counts_from_the_end_witness :
  Row rect23 (-1) = Row rect23 (rect23.(r) + -1) ∧
  Col rect23 (-1) = Col rect23 (rect23.(c) + -1) ∧
  SetRow_float rect23 (-1) 9%float = SetRow_float rect23 (rect23.(r) + -1) 9%float ∧
  SetCol_float rect23 (-1) 9%float = SetCol_float rect23 (rect23.(c) + -1) 9%float ∧
  SetRow_slice rect23 (-1) [7; 8; 9]%float =
    SetRow_slice rect23 (rect23.(r) + -1) [7; 8; 9]%float ∧
  SetCol_slice rect23 (-1) [7; 8]%float =
    SetCol_slice rect23 (rect23.(c) + -1) [7; 8]%float.
Proof.
  apply (negative_index_counts_from_the_end rect23 (-1) (-1) 9%float
           [7; 8; 9]%float [7; 8]%float).
  - wf_literal.
  - cbn. lia.
  - cbn. lia.
Defined.

(** X7. [Row(i)] and [Col(j)] with an index inside the matrix return a
    new 1 by [cols], respectively [rows] by 1, matrix that holds the
    elements of the row, respectively of the column (the capacity of the
    new matrix, twice its length, fitting a slice). *)
Theorem Row_and_Col_contents {F : Type} `{FloatOps F} (m : Mat F) (i j : Z) :
  wf m → 0 <= i < m.(r) → 0 <= j < m.(c) →
  2 * m.(r) <= GoInt.max_int → 2 * m.(c) <= GoInt.max_int →
  Row m i = Ok {| r := 1; c := m.(c); vals := row_elems m i |} ∧
  Col m j = Ok {| r := m.(r); c := 1; vals := col_elems m j |}.
Proof.
  intros Hwf Hi Hj _ _. split; [by apply Row_spec | by apply Col_spec].
Qed.

Lemma Row_and_Col_contents_witness :
  Row rect23 1 = Ok {| r := 1; c := rect23.(c); vals := row_elems rect23 1 |} ∧
  Col rect23 2 = Ok {| r := rect23.(r); c := 1; vals := col_elems rect23 2 |}.
Proof.
  apply (Row_and_Col_contents rect23 1 2).
  - wf_literal.
  - cbn. lia.
  - cbn. lia.
  - unfold GoInt.max_int. cbn. lia.
  - unfold GoInt.max_int. cbn. lia.
Defined.

(** X8. On a well-formed matrix, [Row], [Col] and the one-float branches
    of [SetRow] and [SetCol] report an index error exactly when the index
    is outside [[-dimension, dimension)]. *)
Theorem index_error_exactly_outside_the_range {F : Type} `{FloatOps F}
    (m : Mat F) (i j : Z) (x : F) :
  wf m →
  (Row m i = Exit IndexError ↔ i >= m.(r) ∨ i < - m.(r)) ∧
  (Col m j = Exit IndexError ↔ j >= m.(c) ∨ j < - m.(c)) ∧
  (SetRow_float m i x = Exit IndexError ↔ i >= m.(r) ∨ i < - m.(r)) ∧
  (SetCol_float m j x = Exit IndexError ↔ j >= m.(c) ∨ j < - m.(c)).
Proof.
  intros Hwf. repeat split.
  - intros Hrun. destruct (decide (i >= m.(r) ∨ i < - m.(r))); [done|].
    destruct (Row_in_range m i) as [v Hv]; [done|lia|]. congruence.
  - by apply Row_out_of_range.
  - intros Hrun. destruct (decide (j >= m.(c) ∨ j < - m.(c))); [done|].
    destruct (Col_in_range m j) as [v Hv]; [done|lia|]. congruence.
  - by apply Col_out_of_range.
  - intros Hrun. destruct (decide (i >= m.(r) ∨ i < - m.(r))); [done|].
    destruct (SetRow_float_in_range m i x) as [v Hv]; [done|lia|]. congruence.
  - by apply SetRow_float_out_of_range.
  - intros Hrun. destruct (decide (j >= m.(c) ∨ j < - m.(c))); [done|].
    destruct (SetCol_float_in_range m j x) as [v Hv]; [done|lia|]. congruence.
  - by apply SetCol_float_out_of_range.
Qed.

Lemma index_error_exactly_outside_the_range_witness :
  (Row rect23 2 = Exit IndexError ↔ 2 >= rect23.(r) ∨ 2 < - rect23.(r)) ∧
  (Col rect23 (-4) = Exit IndexError ↔ -4 >= rect23.(c) ∨ -4 < - rect23.(c)) ∧
  (SetRow_float rect23 2 9%float = Exit IndexError ↔
     2 >= rect23.(r) ∨ 2 < - rect23.(r)) ∧
  (SetCol_float rect23 (-4) 9%float = Exit IndexError ↔
     -4 >= rect23.(c) ∨ -4 < - rect23.(c)).
Proof.
  apply (index_error_exactly_outside_the_range rect23 2 (-4) 9%float).
  wf_literal.
Defined.

(** X9. [SetRow] and [SetCol] with an index inside a well-formed matrix,
    with one float or with a slice of the length of the line: the call
    returns, the shape is kept, the row (the column) holds the float at
    every position, respectively the elements of the slice in order, and
    every element outside the row (the column) is as it was. *)
Theorem SetRow_and_SetCol_replace_one_line {F : Type} `{FloatOps F}
    (m : Mat F) (i j : Z) (x : F) (rowval colval : list F) :
  wf m → 0 <= i < m.(r) → 0 <= j < m.(c) →
  len rowval = m.(c) → len colval = m.(r) →
  (∃ m', SetRow_float m i x = Ok m' ∧ row_replaced m m' i (λ _, x)) ∧
  (∃ m', SetCol_float m j x = Ok m' ∧ col_replaced m m' j (λ _, x)) ∧
  (∃ m', SetRow_slice m i rowval = Ok m' ∧
         row_replaced m m' i (λ b, default f0 (rowval !! Z.to_nat b))) ∧
  (∃ m', SetCol_slice m j colval = Ok m' ∧
         col_replaced m m' j (λ a, default f0 (colval !! Z.to_nat a))).
Proof.
  intros Hwf Hi Hj Hrow Hcol. repeat split.
  - by apply SetRow_float_spec.
  - by apply SetCol_float_spec.
  - by apply SetRow_slice_spec.
  - by apply SetCol_slice_spec.
Qed.

Lemma SetRow_and_SetCol_replace_one_line_witness :
  (∃ m', SetRow_float rect23 1 9%float = Ok m' ∧
         row_replaced rect23 m' 1 (λ _, 9%float)) ∧
  (∃ m', SetCol_float rect23 2 9%float = Ok m' ∧
         col_replaced rect23 m' 2 (λ _, 9%float)) ∧
  (∃ m', SetRow_slice rect23 1 [7; 8; 9]%float = Ok m' ∧
         row_replaced rect23 m' 1
           (λ b, default f0 ([7; 8; 9]%float !! Z.to_nat b))) ∧
  (∃ m', SetCol_slice rect23 2 [7; 8]%float = Ok m' ∧
         col_replaced rect23 m' 2
           (λ a, default f0 ([7; 8]%float !! Z.to_nat a))).
Proof.
  apply (SetRow_and_SetCol_replace_one_line rect23 1 2 9%float
           [7; 8; 9]%float [7; 8]%float).
  - wf_literal.
  - cbn. lia.
  - cbn. lia.
  - reflexivity.
  - reflexivity.
Defined.

(** X10. A row set from a slice and read back with [Row] is the slice,
    as a 1 by [cols] matrix; a column set from a slice and read back with
    [Col] is the slice, as a [rows] by 1 matrix (the capacity of the new
    matrix fitting a slice). *)
Theorem Row_after_SetRow_and_Col_after_SetCol {F : Type} `{FloatOps F}
    (m : Mat F) (i j : Z) (rowval colval : list F) :
  wf m → 0 <= i < m.(r) → 0 <= j < m.(c) →
  len rowval = m.(c) → len colval = m.(r) →
  2 * m.(r) <= GoInt.max_int → 2 * m.(c) <= GoInt.max_int →
  (∃ m', SetRow_slice m i rowval = Ok m' ∧
         Row m' i = Ok {| r := 1; c := m.(c); vals := rowval |}) ∧
  (∃ m', SetCol_slice m j colval = Ok m' ∧
         Col m' j = Ok {| r := m.(r); c := 1; vals := colval |}).
Proof.
  intros Hwf Hi Hj Hrow Hcol _ _. split.
  - destruct (SetRow_slice_spec m i rowval) as (m' & Hrun & Hrep); try done.
    exists m'. split; [done|].
    pose proof (row_replaced_wf m m' i _ Hwf Hrep) as Hwf'.
    pose proof (row_replaced_elems m m' i rowval Hrow Hrep) as Helems.
    destruct Hrep as ([= Hsr Hsc] & _).
    rewrite Row_spec by (done || lia). by rewrite Helems, Hsc.
  - destruct (SetCol_slice_spec m j colval) as (m' & Hrun & Hrep); try done.
    exists m'. split; [done|].
    pose proof (col_replaced_wf m m' j _ Hwf Hrep) as Hwf'.
    pose proof (col_replaced_elems m m' j colval Hcol Hrep) as Helems.
    destruct Hrep as ([= Hsr Hsc] & _).
    rewrite Col_spec by (done || lia). by rewrite Helems, Hsr.
Qed.

Lemma Row_after_SetRow_and_Col_after_SetCol_witness :
  (∃ m', SetRow_slice rect23 1 [7; 8; 9]%float = Ok m' ∧
         Row m' 1 = Ok {| r := 1; c := rect23.(c); vals := [7; 8; 9]%float |}) ∧
  (∃ m', SetCol_slice rect23 2 [7; 8]%float = Ok m' ∧
         Col m' 2 = Ok {| r := rect23.(r); c := 1; vals := [7; 8]%float |}).
Proof.
  apply (Row_after_SetRow_and_Col_after_SetCol rect23 1 2
           [7; 8; 9]%float [7; 8]%float).
  - wf_literal.
  - cbn. lia.
  - cbn. lia.
  - reflexivity.
  - reflexivity.
  - unfold GoInt.max_int. cbn. lia.
  - unfold GoInt.max_int. cbn. lia.
Defined.

(** X11. [Set(i, j, x)] with both indices inside a well-formed matrix
    returns; afterwards [Get(i, j)] is [x], and [Get] at every other
    position inside the matrix is what it was. *)
Theorem Get_after_Set {F : Type} `{FloatOps F} (m : Mat F) (i j : Z) (x : F) :
  wf m → 0 <= i < m.(r) → 0 <= j < m.(c) →
  ∃ m', Set_ m i j x = Ok m' ∧
        Shape m' = Shape m ∧ len_invariant m' ∧
        Get m' i j = Ok x ∧
        ∀ a b, 0 <= a < m.(r) → 0 <= b < m.(c) → (a, b) ≠ (i, j) →
               Get m' a b = Get m a b.
Proof.
  intros Hwf Hi Hj.
  destruct (Set_spec m i j x Hwf Hi Hj)
    as (m' & Hrun & Hwf' & Hshape & Hnew & Hold).
  exists m'. split; [done|]. split; [done|]. split; [apply Hwf'|].
  injection Hshape as Hsr Hsc. split.
  - rewrite Get_entry by (done || lia). by rewrite Hnew.
  - intros a b Ha Hb Hne.
    rewrite !Get_entry by (done || lia). by rewrite Hold.
Qed.

Lemma Get_after_Set_witness :
  ∃ m', Set_ rect23 1 2 9%float = Ok m' ∧
        Shape m' = Shape rect23 ∧ len_invariant m' ∧
        Get m' 1 2 = Ok 9%float ∧
        ∀ a b, 0 <= a < rect23.(r) → 0 <= b < rect23.(c) → (a, b) ≠ (1, 2) →
               Get m' a b = Get rect23 a b.
Proof.
  apply (Get_after_Set rect23 1 2 9%float).
  - wf_literal.
  - cbn. lia.
  - cbn. lia.
Defined.

(** X12. [Get] and [Set] check the flat offset [i * cols + j] against the
    buffer, and neither index against its dimension: when the offset is
    inside the buffer the call reads, respectively writes, that position
    (a column index equal to [cols] reaches the next row), and when it is
    outside the call panics with an index out of range; no index error is
    reported. *)
Theorem Get_and_Set_check_the_flat_offset_only {F : Type} `{FloatOps F}
    (m : Mat F) (i j : Z) (x : F) :
  GoInt.in_range (i * m.(c)) → GoInt.in_range (i * m.(c) + j) →
  (0 <= i * m.(c) + j < len m.(vals) →
   Get m i j = Ok (default f0 (m.(vals) !! Z.to_nat (i * m.(c) + j))) ∧
   Set_ m i j x =
     Ok (with_vals m (<[Z.to_nat (i * m.(c) + j) := x]> m.(vals)))) ∧
  (¬ (0 <= i * m.(c) + j < len m.(vals)) →
   Get m i j = Panic IndexOutOfRange ∧
   Set_ m i j x = Panic IndexOutOfRange).
Proof.
  intros Hi Hj. rewrite Get_flat, Set_flat by done. split; intros Hoff.
  - rewrite (ld_default f0) by done. by rewrite st_Ok by done.
  - rewrite ld_out_of_range by done. by rewrite st_out_of_range by done.
Qed.

Lemma Get_and_Set_check_the_flat_offset_only_witness :
  (0 <= 0 * rect23.(c) + 3 < len rect23.(vals) →
   Get rect23 0 3 =
     Ok (default f0 (rect23.(vals) !! Z.to_nat (0 * rect23.(c) + 3))) ∧
   Set_ rect23 0 3 9%float =
     Ok (with_vals rect23
           (<[Z.to_nat (0 * rect23.(c) + 3) := 9%float]> rect23.(vals)))) ∧
  (¬ (0 <= 0 * rect23.(c) + 3 < len rect23.(vals)) →
   Get rect23 0 3 = Panic IndexOutOfRange ∧
   Set_ rect23 0 3 9%float = Panic IndexOutOfRange).
Proof.
  apply (Get_and_Set_check_the_flat_offset_only rect23 0 3 9%float).
  - unfold GoInt.in_range, GoInt.min_int, GoInt.max_int. cbn. lia.
  - unfold GoInt.in_range, GoInt.min_int, GoInt.max_int. cbn. lia.
Defined.

(** ** The length invariant, and growth *)

(** X13. Every operation the data model lists, [Append] apart, leaves
    [len(buffer) = rows * cols] behind when it completes (on buffers a Go
    slice can hold): the constructor, [Reshape], [Set], [SetAll], [SetRow]
    and [SetCol] in both branches, the arithmetic with a scalar, [T],
    [Copy], [AppendRow], [AppendCol], [Concat], and the result of [Dot]. *)
Theorem operations_keep_the_length_invariant {F : Type} `{FloatOps F}
    (m n : Mat F) :
  wf m → wf n →
  (∀ x y m', GoInt.in_range (x * y) → Newf [x; y] = Ok m' → len_invariant m') ∧
  (∀ rows cols m', GoInt.in_range (rows * cols) →
     Reshape m rows cols = Ok m' → len_invariant m') ∧
  (∀ i j x m', Set_ m i j x = Ok m' → len_invariant m') ∧
  (∀ x, len_invariant (SetAll m x)) ∧
  (∀ i x m', SetRow_float m i x = Ok m' → len_invariant m') ∧
  (∀ j x m', SetCol_float m j x = Ok m' → len_invariant m') ∧
  (∀ i val m', SetRow_slice m i val = Ok m' → len_invariant m') ∧
  (∀ j val m', SetCol_slice m j val = Ok m' → len_invariant m') ∧
  (∀ op x, len_invariant (scalar_op op m x)) ∧
  (∀ p p' m', T p m = Ok (p', m') → len_invariant m') ∧
  (∀ m', Copy m = Ok m' → len_invariant m') ∧
  (∀ val m', len (m.(vals) ++ val) <= GoInt.max_int →
     AppendRow m val = Ok m' → len_invariant m') ∧
  (∀ val m', len (m.(vals) ++ val) <= GoInt.max_int →
     AppendCol m val = Ok m' → len_invariant m') ∧
  (∀ m', len (m.(vals) ++ n.(vals)) <= GoInt.max_int →
     Concat m n = Ok m' → len_invariant m') ∧
  (∀ (h h' : gmap nat (Mat F)) p p' pm pn o,
     h !! pm = Some m → h !! pn = Some n → pm ≠ pn →
     m.(r) * n.(c) <= GoInt.max_int →
     Dot h p pm pn = Ok (h', p', o) → len_invariant o).
Proof.
  intros Hwm Hwn.
  assert (len_invariant m) as Hm by apply Hwm.
  assert (len_invariant n) as Hn by apply Hwn.
  repeat split.
  - intros x y m' Hfit Hrun. by apply (Newf_len_invariant [x; y]).
  - intros rows cols m' Hfit Hrun.
    apply (Reshape_len_invariant m rows cols); try done.
    by apply wf_in_range.
  - intros i j x m' Hrun. by apply (Set_len_invariant m i j x).
  - intros x. by apply SetAll_len_invariant.
  - intros i x m' Hrun. by apply (SetRow_float_len_invariant m i x).
  - intros j x m' Hrun. by apply (SetCol_float_len_invariant m j x).
  - intros i val m' Hrun. by apply (SetRow_slice_len_invariant m i val).
  - intros j val m' Hrun. by apply (SetCol_slice_len_invariant m j val).
  - intros op x. by apply scalar_op_len_invariant.
  - intros p p' m' Hrun. by apply (T_len_invariant p m p' m').
  - intros m' Hrun. by apply (Copy_len_invariant m m').
  - intros val m' Hfit Hrun. by apply (AppendRow_len_invariant m val).
  - intros val m' Hfit Hrun. by apply (AppendCol_len_invariant m val).
  - intros m' Hfit Hrun. by apply (Concat_len_invariant m n).
  - intros h h' p p' pm pn o Hpm Hpn Hne Hfit Hrun.
    destruct (decide (m.(c) = n.(r))) as [Hcr|Hcr].
    + destruct (Dot_distinct h p pm pn m n)
        as (p1 & o1 & Hdot & Hor & Hoc & Hol & _); try done.
      rewrite Hdot in Hrun. injection Hrun as _ _ <-.
      unfold len_invariant. by rewrite Hor, Hoc.
    + rewrite (Dot_dimension_mismatch h p pm pn m n) in Hrun by done. done.
Qed.

Lemma operations_keep_the_length_invariant_witness :
  len_invariant (SetAll rect23 9%float) ∧
  (∀ p p' m', T p rect23 = Ok (p', m') → len_invariant m') ∧
  (∀ m', len (rect23.(vals) ++ rect32.(vals)) <= GoInt.max_int →
     Concat rect23 rect32 = Ok m' → len_invariant m').
Proof.
  destruct (operations_keep_the_length_invariant rect23 rect32)
    as (_ & _ & _ & Hall & _ & _ & _ & _ & _ & HT & _ & _ & _ & Hcat & _).
  - wf_literal.
  - wf_literal.
  - split; [apply Hall|]. split; [exact HT | exact Hcat].
Defined.

(** X14. [Append] on a well-formed receiver with an argument of its
    column count that holds at least one element: the call returns, the
    buffer is the receiver's followed by the argument's, the row and
    column counts are the receiver's, and so the buffer is longer than
    [rows * cols]. *)
Theorem Append_leaves_the_row_count {F : Type} `{FloatOps F} (m n : Mat F) :
  wf m → m.(c) = n.(c) → n.(vals) ≠ [] →
  ∃ m', Append m n = Ok m' ∧
        Shape m' = Shape m ∧ m'.(vals) = m.(vals) ++ n.(vals) ∧
        m'.(r) * m'.(c) < len m'.(vals) ∧ ¬ len_invariant m'.
Proof.
  intros (Hr & Hc & Hl & _) Hcc Hne. unfold Append.
  rewrite decide_False by (intros E; by apply E).
  eexists. split; [done|]. split; [done|]. split; [done|].
  assert (0 < len n.(vals)) as Hpos.
  { destruct n.(vals); [done|]. unfold len. simpl. lia. }
  unfold len_invariant, with_vals. cbn [r c vals]. rewrite len_app.
  split; lia.
Qed.

Lemma Append_leaves_the_row_count_witness :
  ∃ m', Append rect23 rowvec3 = Ok m' ∧
        Shape m' = Shape rect23 ∧ m'.(vals) = rect23.(vals) ++ rowvec3.(vals) ∧
        m'.(r) * m'.(c) < len m'.(vals) ∧ ¬ len_invariant m'.
Proof.
  apply (Append_leaves_the_row_count rect23 rowvec3).
  - wf_literal.
  - reflexivity.
  - discriminate.
Defined.

(** X15. [AppendRow(v)] with a slice of the length of a row, on a
    well-formed matrix that can grow by two rows (the capacity asked for
    a new buffer): the call returns a
    well-formed matrix with one row more, whose last row read with
    [Row(-1)] is [v] and whose other rows are the rows it had.  With a
    slice of another length it reports an arity error, so that no
    non-empty row can be appended to the matrix of [Newf64()], which has
    no columns. *)
Theorem AppendRow_adds_a_last_row {F : Type} `{FloatOps F}
    (m : Mat F) (v : list F) :
  wf m → m.(r) < GoInt.max_int → (m.(r) + 2) * m.(c) <= GoInt.max_int →
  (len v = m.(c) →
   ∃ m', AppendRow m v = Ok m' ∧ wf m' ∧
         Shape m' = (m.(r) + 1, m.(c)) ∧
         Row m' (-1) = Ok {| r := 1; c := m.(c); vals := v |} ∧
         ∀ i, 0 <= i < m.(r) → Row m' i = Row m i) ∧
  (len v ≠ m.(c) → AppendRow m v = Exit ArityError).
Proof.
  intros Hwf Hfit Hfit2. pose proof Hwf as (Hr & Hc & _).
  assert ((m.(r) + 1) * m.(c) <= GoInt.max_int) as Hfit' by nia.
  split.
  - intros Hv.
    destruct (AppendRow_spec m v Hwf Hv Hfit Hfit') as [Hrun Hwf'].
    eexists. split; [exact Hrun|]. split; [done|]. split; [done|]. split.
    + rewrite Row_negative by (done || (cbn [r]; lia)). cbn [r].
      replace (m.(r) + 1 + -1) with m.(r) by lia.
      rewrite Row_spec by (done || (cbn [r]; lia)). cbn [c].
      by rewrite row_elems_last.
    + intros i Hi. rewrite !Row_spec by (done || (cbn [r]; lia)). cbn [c].
      by rewrite row_elems_kept.
  - intros Hv. unfold AppendRow. rewrite decide_True; [done|].
    intros E. by apply Hv.
Qed.

Lemma AppendRow_adds_a_last_row_witness :
  (len [7; 8; 9]%float = rect23.(c) →
   ∃ m', AppendRow rect23 [7; 8; 9]%float = Ok m' ∧ wf m' ∧
         Shape m' = (rect23.(r) + 1, rect23.(c)) ∧
         Row m' (-1) = Ok {| r := 1; c := rect23.(c); vals := [7; 8; 9]%float |} ∧
         ∀ i, 0 <= i < rect23.(r) → Row m' i = Row rect23 i) ∧
  (len [7; 8; 9]%float ≠ rect23.(c) →
   AppendRow rect23 [7; 8; 9]%float = Exit ArityError).
Proof.
  apply (AppendRow_adds_a_last_row rect23 [7; 8; 9]%float).
  - wf_literal.
  - unfold GoInt.max_int. cbn. lia.
  - unfold GoInt.max_int. cbn. lia.
Defined.

(** X16. [AppendCol(v)] with a slice of one element per row, and
    [m.Concat(n)] with a matrix of the same number of rows, on well-formed
    matrices whose widened buffer fits a slice: the call returns a matrix
    with the same rows and the new columns to the right of its own, which
    keeps the length invariant; every row is the row it was followed by
    its element of [v], respectively by the row of [n].  A slice of
    another length is an arity error, another row count a row mismatch. *)
Theorem AppendCol_and_Concat_add_columns {F : Type} `{FloatOps F}
    (m n : Mat F) (v : list F) :
  wf m → wf n → len v = m.(r) →
  m.(c) + 1 <= GoInt.max_int → m.(r) * (m.(c) + 1) <= GoInt.max_int →
  m.(c) + n.(c) <= GoInt.max_int →
  m.(r) * (m.(c) + n.(c)) <= GoInt.max_int →
  (∃ m', AppendCol m v = Ok m' ∧
         widened m m' 1 (λ i _, default f0 (v !! Z.to_nat i))) ∧
  (m.(r) = n.(r) →
   ∃ m', Concat m n = Ok m' ∧ widened m m' n.(c) (λ i j, entry n i j)) ∧
  (∀ u : list F, len u ≠ m.(r) → AppendCol m u = Exit ArityError) ∧
  (m.(r) ≠ n.(r) → Concat m n = Exit RowMismatchError).
Proof.
  intros Hwm Hwn Hv Hfit1 Hfit2 Hfit3 Hfit4. split; [|split; [|split]].
  - apply AppendCol_spec; [done|done|lia|done].
  - intros Hrr. by apply Concat_spec.
  - intros u Hu. unfold AppendCol. rewrite decide_True; [done|].
    intros E. by apply Hu.
  - intros Hrr. unfold Concat. by rewrite decide_True.
Qed.

Lemma AppendCol_and_Concat_add_columns_witness :
  (∃ m', AppendCol rect23 [7; 8]%float = Ok m' ∧
         widened rect23 m' 1 (λ i _, default f0 ([7; 8]%float !! Z.to_nat i))) ∧
  (rect23.(r) = square22.(r) →
   ∃ m', Concat rect23 square22 = Ok m' ∧
         widened rect23 m' square22.(c) (λ i j, entry square22 i j)) ∧
  (∀ u : list float64, len u ≠ rect23.(r) →
     AppendCol rect23 u = Exit ArityError) ∧
  (rect23.(r) ≠ square22.(r) →
   Concat rect23 square22 = Exit RowMismatchError).
Proof.
  apply (AppendCol_and_Concat_add_columns rect23 square22 [7; 8]%float).
  - wf_literal.
  - wf_literal.
  - reflexivity.
  - unfold GoInt.max_int. cbn. lia.
  - unfold GoInt.max_int. cbn. lia.
  - unfold GoInt.max_int. cbn. lia.
  - unfold GoInt.max_int. cbn. lia.
Defined.

(** ** Equality, copies and reshaping *)

(** X17. [m.Equals(n)] on two well-formed matrices returns, and it
    returns true exactly when the two have the same shape and their
    elements are pairwise equal under the comparison of floats. *)
Theorem Equals_decides_shape_and_elements {F : Type} `{FloatOps F}
    (m n : Mat F) :
  wf m → wf n →
  ∃ b, Equals m n = Ok b ∧
       (b = true ↔
        Shape m = Shape n ∧ Forall2 (λ x y, feq x y = true) m.(vals) n.(vals)).
Proof.
  intros Hwm Hwn. destruct (decide (Shape m = Shape n)) as [Hs|Hs].
  - rewrite Equals_same_shape by done. eexists. split; [done|].
    rewrite forallb_indices_Forall2.
    + split; [by intros ?|by intros [_ ?]].
    + destruct Hwm as (_ & _ & -> & _), Hwn as (_ & _ & -> & _).
      injection Hs as -> ->. done.
  - rewrite Equals_other_shape by done. exists false. split; [done|].
    split; [done|by intros [? _]].
Qed.

Lemma Equals_decides_shape_and_elements_witness :
  ∃ b, Equals rect23 rect32 = Ok b ∧
       (b = true ↔
        Shape rect23 = Shape rect32 ∧
        Forall2 (λ x y, feq x y = true) rect23.(vals) rect32.(vals)).
Proof.
  apply (Equals_decides_shape_and_elements rect23 rect32).
  - wf_literal.
  - wf_literal.
Defined.

(** X18. [Copy()] of a well-formed matrix, the capacity of the copy
    fitting a slice, returns a matrix with its shape and its elements, and
    the copy [Equals] the original exactly when no
    element differs from itself: a matrix that holds a NaN does not equal
    its own copy. *)
Theorem Copy_equals_the_original_unless_NaN {F : Type} `{FloatOps F}
    (m : Mat F) :
  wf m → 2 * (m.(r) * m.(c)) <= GoInt.max_int →
  ∃ m' b, Copy m = Ok m' ∧
          Shape m' = Shape m ∧ m'.(vals) = m.(vals) ∧
          Equals m' m = Ok b ∧ (b = true ↔ self_equal m.(vals)).
Proof.
  intros Hwf _. exists m. eexists.
  split; [by apply Copy_wf|]. split; [done|]. split; [done|].
  split; [by apply Equals_same_shape|].
  rewrite (forallb_indices f0 (λ x, feq x x)). apply forallb_Forall.
Qed.

Lemma Copy_equals_the_original_unless_NaN_witness :
  ∃ m' b, Copy rect23 = Ok m' ∧
          Shape m' = Shape rect23 ∧ m'.(vals) = rect23.(vals) ∧
          Equals m' rect23 = Ok b ∧ (b = true ↔ self_equal rect23.(vals)).
Proof.
  apply (Copy_equals_the_original_unless_NaN rect23).
  - wf_literal.
  - unfold GoInt.max_int. cbn. lia.
Defined.

(** X19. [Reshape(rows, cols)] on a well-formed matrix, for dimensions a
    Go [int] holds: when [rows * cols] is the number of elements, the call
    returns a well-formed matrix of the new shape with the buffer
    untouched, and reshaping back gives the matrix it was; when the
    product, without overflow, differs, it reports a shape error.  The
    test is on the product alone: the two dimensions negated pass it, and
    leave a matrix with negative dimensions. *)
Theorem Reshape_keeps_the_buffer {F : Type} `{FloatOps F}
    (m : Mat F) (rows cols : Z) :
  wf m → 0 <= rows <= GoInt.max_int → 0 <= cols <= GoInt.max_int →
  (rows * cols = m.(r) * m.(c) →
   ∃ m', Reshape m rows cols = Ok m' ∧ wf m' ∧
         Shape m' = (rows, cols) ∧ m'.(vals) = m.(vals) ∧
         Reshape m' m.(r) m.(c) = Ok m) ∧
  (rows * cols ≠ m.(r) * m.(c) → rows * cols <= GoInt.max_int →
   Reshape m rows cols = Exit ShapeError) ∧
  Reshape m (- m.(r)) (- m.(c)) =
    Ok {| r := - m.(r); c := - m.(c); vals := m.(vals) |}.
Proof.
  intros Hwf Hrows Hcols. pose proof Hwf as (Hr & Hc & Hl & Hrm & Hcm & Hm).
  split; [|split].
  - intros Hprod.
    destruct (Reshape_spec m rows cols Hwf Hrows Hcols Hprod) as [Hrun Hwf'].
    eexists. split; [exact Hrun|]. split; [done|]. split; [done|].
    split; [done|].
    destruct (Reshape_spec _ m.(r) m.(c) Hwf') as [-> _];
      [lia|lia|by cbn [r c]|].
    by destruct m.
  - intros Hne Hfit. apply Reshape_mismatch; [| |done].
    + apply in_range_nonneg. nia.
    + apply in_range_nonneg. nia.
  - by apply Reshape_negated.
Qed.

Lemma Reshape_keeps_the_buffer_witness :
  (3 * 2 = rect23.(r) * rect23.(c) →
   ∃ m', Reshape rect23 3 2 = Ok m' ∧ wf m' ∧
         Shape m' = (3, 2) ∧ m'.(vals) = rect23.(vals) ∧
         Reshape m' rect23.(r) rect23.(c) = Ok rect23) ∧
  (3 * 2 ≠ rect23.(r) * rect23.(c) → 3 * 2 <= GoInt.max_int →
   Reshape rect23 3 2 = Exit ShapeError) ∧
  Reshape rect23 (- rect23.(r)) (- rect23.(c)) =
    Ok {| r := - rect23.(r); c := - rect23.(c); vals := rect23.(vals) |}.
Proof.
  apply (Reshape_keeps_the_buffer rect23 3 2).
  - wf_literal.
  - unfold GoInt.max_int. lia.
  - unfold GoInt.max_int. lia.
Defined.

(** ** Reductions and searches *)

(** X20. [Sum], [Avg] and [Prd] of a row or a column inside a well-formed
    matrix: the elements of the line are accumulated from the first to the
    last, from 0.0 for [Sum] and [Avg] and from 1.0 for [Prd], and [Avg]
    divides the sum by the number of elements of the line.  [Prd()]
    without arguments is the product of all the elements, from 1.0. *)
Theorem reductions_of_a_row_or_column {F : Type} `{FloatOps F}
    (m : Mat F) (i j : Z) :
  wf m → 0 <= i < m.(r) → 0 <= j < m.(c) →
  Sum m [0; i] = Ok (foldl fadd f0 (row_elems m i)) ∧
  Sum m [1; j] = Ok (foldl fadd f0 (col_elems m j)) ∧
  Avg m [0; i] = Ok (fdiv (foldl fadd f0 (row_elems m i)) (of_int m.(c))) ∧
  Avg m [1; j] = Ok (fdiv (foldl fadd f0 (col_elems m j)) (of_int m.(r))) ∧
  Prd m [0; i] = Ok (foldl fmul f1 (row_elems m i)) ∧
  Prd m [1; j] = Ok (foldl fmul f1 (col_elems m j)) ∧
  Prd m [] = Ok (foldl fmul f1 m.(vals)).
Proof.
  intros Hwf Hi Hj. repeat split.
  - by apply Sum_row.
  - by apply Sum_col.
  - by apply Avg_row.
  - by apply Avg_col.
  - by apply Prd_row.
  - by apply Prd_col.
  - by apply Prd_whole.
Qed.

Lemma reductions_of_a_row_or_column_witness :
  Sum rect23 [0; 1] = Ok (foldl fadd f0 (row_elems rect23 1)) ∧
  Sum rect23 [1; 2] = Ok (foldl fadd f0 (col_elems rect23 2)) ∧
  Avg rect23 [0; 1] =
    Ok (fdiv (foldl fadd f0 (row_elems rect23 1)) (of_int rect23.(c))) ∧
  Avg rect23 [1; 2] =
    Ok (fdiv (foldl fadd f0 (col_elems rect23 2)) (of_int rect23.(r))) ∧
  Prd rect23 [0; 1] = Ok (foldl fmul f1 (row_elems rect23 1)) ∧
  Prd rect23 [1; 2] = Ok (foldl fmul f1 (col_elems rect23 2)) ∧
  Prd rect23 [] = Ok (foldl fmul f1 rect23.(vals)).
Proof.
  apply (reductions_of_a_row_or_column rect23 1 2).
  - wf_literal.
  - cbn. lia.
  - cbn. lia.
Defined.

(** X21. [Std] of a row or a column inside a well-formed matrix: the
    squared deviations from the mean of the line are summed over the line,
    and the sum is divided by the number of elements of the whole matrix,
    not of the line, before the root is taken. *)
Theorem Std_of_a_line_divides_by_the_whole_count {F : Type} `{FloatOps F}
    (m : Mat F) (i j : Z) :
  wf m → 0 <= i < m.(r) → 0 <= j < m.(c) →
  Std m [0; i] =
    Ok (root_mean
          (foldl (sq_dev (fdiv (foldl fadd f0 (row_elems m i)) (of_int m.(c))))
                 f0 (row_elems m i))
          (m.(r) * m.(c))) ∧
  Std m [1; j] =
    Ok (root_mean
          (foldl (sq_dev (fdiv (foldl fadd f0 (col_elems m j)) (of_int m.(r))))
                 f0 (col_elems m j))
          (m.(r) * m.(c))).
Proof.
  intros Hwf Hi Hj. pose proof Hwf as (_ & _ & Hl & _). split.
  - rewrite Std_row by done. by rewrite Hl.
  - rewrite Std_col by done. by rewrite Hl.
Qed.

Lemma Std_of_a_line_divides_by_the_whole_count_witness :
  Std rect23 [0; 1] =
    Ok (root_mean
          (foldl (sq_dev (fdiv (foldl fadd f0 (row_elems rect23 1))
                               (of_int rect23.(c))))
                 f0 (row_elems rect23 1))
          (rect23.(r) * rect23.(c))) ∧
  Std rect23 [1; 2] =
    Ok (root_mean
          (foldl (sq_dev (fdiv (foldl fadd f0 (col_elems rect23 2))
                               (of_int rect23.(r))))
                 f0 (col_elems rect23 2))
          (rect23.(r) * rect23.(c))).
Proof.
  apply (Std_of_a_line_divides_by_the_whole_count rect23 1 2).
  - wf_literal.
  - cbn. lia.
  - cbn. lia.
Defined.

(** X22. On a well-formed row vector the reductions of row 0 are the
    reductions of the whole matrix, and on a well-formed column vector so
    are the reductions of column 0: [Sum], [Avg], [Prd] and [Std] return
    what they return without arguments, [Std] the population standard
    deviation of the elements. *)
Theorem reductions_of_a_vector {F : Type} `{FloatOps F} (m n : Mat F) :
  wf m → m.(r) = 1 → wf n → n.(c) = 1 →
  (Sum m [0; 0] = Sum m [] ∧ Avg m [0; 0] = Avg m [] ∧
   Prd m [0; 0] = Prd m [] ∧ Std m [0; 0] = Ok (population_std m.(vals))) ∧
  (Sum n [1; 0] = Sum n [] ∧ Avg n [1; 0] = Avg n [] ∧
   Prd n [1; 0] = Prd n [] ∧ Std n [1; 0] = Ok (population_std n.(vals))).
Proof.
  intros Hwm Hr1 Hwn Hc1.
  pose proof Hwm as (_ & _ & Hlm & _). pose proof Hwn as (_ & _ & Hln & _).
  assert (len m.(vals) = m.(c)) as Hmc by lia.
  assert (len n.(vals) = n.(r)) as Hnr by lia.
  split.
  - rewrite Sum_row, Avg_row, Prd_row, Std_row by (done || lia).
    rewrite Prd_whole, row_elems_vector by done.
    unfold population_std. cbn [Sum Avg]. by rewrite Hmc.
  - rewrite Sum_col, Avg_col, Prd_col, Std_col by (done || lia).
    rewrite Prd_whole, col_elems_vector by done.
    unfold population_std. cbn [Sum Avg]. by rewrite Hnr.
Qed.

Lemma reductions_of_a_vector_witness :
  (Sum rowvec3 [0; 0] = Sum rowvec3 [] ∧ Avg rowvec3 [0; 0] = Avg rowvec3 [] ∧
   Prd rowvec3 [0; 0] = Prd rowvec3 [] ∧
   Std rowvec3 [0; 0] = Ok (population_std rowvec3.(vals))) ∧
  (Sum colvec3 [1; 0] = Sum colvec3 [] ∧ Avg colvec3 [1; 0] = Avg colvec3 [] ∧
   Prd colvec3 [1; 0] = Prd colvec3 [] ∧
   Std colvec3 [1; 0] = Ok (population_std colvec3.(vals))).
Proof.
  apply (reductions_of_a_vector rowvec3 colvec3).
  - wf_literal.
  - reflexivity.
  - wf_literal.
  - reflexivity.
Defined.

(** X23. Called with an axis and an index, [Sum], [Avg], [Prd], [Std],
    [Min] and [Max] report an index error exactly when the axis is 0 or 1
    and the index is outside [[0, dimension)] of that axis (a negative
    index does not count from the end here), an axis error exactly when
    the axis is neither 0 nor 1, and no other fatal error, on any
    matrix. *)
Theorem axis_calls_report_index_and_axis_errors {F : Type} `{FloatOps F}
    (m : Mat F) (axis i : Z) (e : fatal) :
  Forall (λ reduction : Mat F → list Z → result F,
            reduction m [axis; i] = Exit e ↔ axis_error m axis i e)
         [Sum; Avg; Prd; Std] ∧
  Forall (λ search : Mat F → list Z → result (Z * F),
            search m [axis; i] = Exit e ↔ axis_error m axis i e)
         [Min; Max].
Proof.
  split; repeat first [apply Forall_nil_2 | apply Forall_cons_2].
  - apply Sum_exit.
  - apply Avg_exit.
  - apply Prd_exit.
  - apply Std_exit.
  - apply Min_exit.
  - apply Max_exit.
Qed.

(** X24. [Min()] and [Max()] without arguments, on a matrix of either
    width that holds at least one element, return the first position of a
    least, respectively greatest, element of the buffer: the position
    holds the returned value, no element is less (greater) than it, and no
    earlier position holds it. *)
Theorem Min_and_Max_find_the_first_extreme (m : Matf64) (w : Matf32) :
  0 < len m.(vals) → 0 < len w.(vals) →
  Forall (λ '(search, cmp),
            ∃ i v, search m [] = Ok (i, v) ∧
                   line_extreme cmp (λ k, default f0 (m.(vals) !! Z.to_nat k))
                                (len m.(vals)) i v)
         [(Min, flt); (Max, fgt)] ∧
  Forall (λ '(search, cmp),
            ∃ i v, search w [] = Ok (i, v) ∧
                   line_extreme cmp (λ k, default f0 (w.(vals) !! Z.to_nat k))
                                (len w.(vals)) i v)
         [(Min, flt); (Max, fgt)].
Proof.
  intros Hm Hw. split.
  - apply searches_of_the_buffer; [apply float64_lt_strict|done].
  - apply searches_of_the_buffer; [apply float32_lt_strict|done].
Qed.

Lemma Min_and_Max_find_the_first_extreme_witness :
  Forall (λ '(search, cmp),
            ∃ i v, search rect23 [] = Ok (i, v) ∧
                   line_extreme cmp
                     (λ k, default f0 (rect23.(vals) !! Z.to_nat k))
                     (len rect23.(vals)) i v)
         [(Min, flt); (Max, fgt)] ∧
  Forall (λ '(search, cmp),
            ∃ i v, search tall42_f32 [] = Ok (i, v) ∧
                   line_extreme cmp
                     (λ k, default f0 (tall42_f32.(vals) !! Z.to_nat k))
                     (len tall42_f32.(vals)) i v)
         [(Min, flt); (Max, fgt)].
Proof.
  apply (Min_and_Max_find_the_first_extreme rect23 tall42_f32).
  - unfold len. cbn. lia.
  - unfold len. cbn. lia.
Defined.

(** X25. [Min] and [Max] of a row or a column inside a well-formed
    matrix of either width return the first position, counted from the
    start of the line, of a least, respectively greatest, element of the
    line, together with that element. *)
Theorem Min_Max_of_a_row_or_column (m : Matf64) (w : Matf32) (i j i' j' : Z) :
  wf m → 0 <= i < m.(r) → 0 <= j < m.(c) →
  wf w → 0 <= i' < w.(r) → 0 <= j' < w.(c) →
  Forall (λ '(search, cmp),
            (∃ k v, search m [0; i] = Ok (k, v) ∧
                    line_extreme cmp (entry m i) m.(c) k v) ∧
            (∃ k v, search m [1; j] = Ok (k, v) ∧
                    line_extreme cmp (λ k, entry m k j) m.(r) k v))
         [(Min, flt); (Max, fgt)] ∧
  Forall (λ '(search, cmp),
            (∃ k v, search w [0; i'] = Ok (k, v) ∧
                    line_extreme cmp (entry w i') w.(c) k v) ∧
            (∃ k v, search w [1; j'] = Ok (k, v) ∧
                    line_extreme cmp (λ k, entry w k j') w.(r) k v))
         [(Min, flt); (Max, fgt)].
Proof.
  intros Hwm Hi Hj Hww Hi' Hj'. split.
  - apply searches_of_the_lines; [apply float64_lt_strict|done..].
  - apply searches_of_the_lines; [apply float32_lt_strict|done..].
Qed.

Lemma Min_Max_of_a_row_or_column_witness :
  Forall (λ '(search, cmp),
            (∃ k v, search rect23 [0; 1] = Ok (k, v) ∧
                    line_extreme cmp (entry rect23 1) rect23.(c) k v) ∧
            (∃ k v, search rect23 [1; 2] = Ok (k, v) ∧
                    line_extreme cmp (λ k, entry rect23 k 2) rect23.(r) k v))
         [(Min, flt); (Max, fgt)] ∧
  Forall (λ '(search, cmp),
            (∃ k v, search tall42_f32 [0; 3] = Ok (k, v) ∧
                    line_extreme cmp (entry tall42_f32 3) tall42_f32.(c) k v) ∧
            (∃ k v, search tall42_f32 [1; 1] = Ok (k, v) ∧
                    line_extreme cmp (λ k, entry tall42_f32 k 1)
                                 tall42_f32.(r) k v))
         [(Min, flt); (Max, fgt)].
Proof.
  apply (Min_Max_of_a_row_or_column rect23 tall42_f32 1 2 3 1).
  - wf_literal.
  - cbn. lia.
  - cbn. lia.
  - wf_literal.
  - cbn. lia.
  - cbn. lia.
Defined.

(** ** Construction, predicates and maps *)

(** X26. [Eyef64(x)], for [x] at least 1 and twice its square fitting
    a slice, returns an [x] by [x] matrix that holds 1.0 at the flat offsets
    [i*i - 1] for [i] from 1 below [x], and 0.0 at every other offset;
    in particular its last diagonal element is 0.0. *)
Theorem Eye_sets_the_offsets_of_squares {F : Type} `{FloatOps F} (x : Z) :
  1 <= x → 2 * (x * x) <= GoInt.max_int →
  ∃ m, Eye x = Ok m ∧ Shape m = (x, x) ∧ len_invariant m ∧
       (∀ i, 1 <= i < x → m.(vals) !! Z.to_nat (i * i - 1) = Some f1) ∧
       (∀ k, 0 <= k < x * x → (∀ i, 1 <= i < x → k ≠ i * i - 1) →
             m.(vals) !! Z.to_nat k = Some f0) ∧
       entry m (x - 1) (x - 1) = f0.
Proof.
  intros Hx Hfit2. assert (x * x <= GoInt.max_int) as Hfit by nia.
  destruct (Eye_spec x Hx Hfit) as (m & Hrun & Hshape & Hinv & Hone & Hzero).
  exists m. repeat split; try done.
  injection Hshape as Hsr Hsc. unfold entry. rewrite Hsc.
  rewrite Hzero; [done|nia|]. intros i Hi. nia.
Qed.

Lemma Eye_sets_the_offsets_of_squares_witness :
  ∃ m : Matf64,
    Eye 3 = Ok m ∧ Shape m = (3, 3) ∧ len_invariant m ∧
    (∀ i, 1 <= i < 3 → m.(vals) !! Z.to_nat (i * i - 1) = Some f1) ∧
    (∀ k, 0 <= k < 3 * 3 → (∀ i, 1 <= i < 3 → k ≠ i * i - 1) →
          m.(vals) !! Z.to_nat k = Some f0) ∧
    entry m (3 - 1) (3 - 1) = f0.
Proof.
  apply (Eye_sets_the_offsets_of_squares 3).
  - lia.
  - unfold GoInt.max_int. lia.
Defined.

(** X27. [Matf64FromData] on a 1D slice that leaves room for twice its
    length: without dimensions it returns the slice as one row, with its
    length as the one dimension as one column, and with two dimensions
    whose product is its length as a matrix of these dimensions, the
    buffer being a copy of the slice in every case, which [ToSlice1D]
    gives back; two dimensions with another product, without overflow,
    are a shape error. *)
Theorem FromData_of_a_1D_slice {F : Type} `{FloatOps F}
    (s : list F) (rows cols : Z) :
  2 * len s <= GoInt.max_int →
  FromOneDSliceHelper s [] = Ok {| r := 1; c := len s; vals := s |} ∧
  FromOneDSliceHelper s [len s] = Ok {| r := len s; c := 1; vals := s |} ∧
  (rows * cols = len s →
   FromOneDSliceHelper s [rows; cols] =
     Ok {| r := rows; c := cols; vals := s |}) ∧
  (rows * cols ≠ len s → GoInt.in_range (rows * cols) →
   FromOneDSliceHelper s [rows; cols] = Exit ShapeError) ∧
  (m ← FromOneDSliceHelper s []; Ok (ToSlice1D m)) = Ok s.
Proof.
  intros Hfit. split; [|split; [|split; [|split]]].
  - by apply FromOneD_row.
  - by apply FromOneD_column.
  - intros Hprod. by apply FromOneD_shaped.
  - intros Hne Hin. by apply FromOneD_mismatch.
  - rewrite FromOneD_row by done. cbn [mbind result_bind].
    by rewrite ToSlice1D_vals.
Qed.

Lemma FromData_of_a_1D_slice_witness :
  FromOneDSliceHelper [1; 2; 3; 4; 5; 6]%float [] =
    Ok {| r := 1; c := len [1; 2; 3; 4; 5; 6]%float;
          vals := [1; 2; 3; 4; 5; 6]%float |} ∧
  FromOneDSliceHelper [1; 2; 3; 4; 5; 6]%float [len [1; 2; 3; 4; 5; 6]%float] =
    Ok {| r := len [1; 2; 3; 4; 5; 6]%float; c := 1;
          vals := [1; 2; 3; 4; 5; 6]%float |} ∧
  (2 * 3 = len [1; 2; 3; 4; 5; 6]%float →
   FromOneDSliceHelper [1; 2; 3; 4; 5; 6]%float [2; 3] =
     Ok {| r := 2; c := 3; vals := [1; 2; 3; 4; 5; 6]%float |}) ∧
  (2 * 3 ≠ len [1; 2; 3; 4; 5; 6]%float → GoInt.in_range (2 * 3) →
   FromOneDSliceHelper [1; 2; 3; 4; 5; 6]%float [2; 3] = Exit ShapeError) ∧
  (m ← FromOneDSliceHelper [1; 2; 3; 4; 5; 6]%float []; Ok (ToSlice1D m)) =
    Ok [1; 2; 3; 4; 5; 6]%float.
Proof.
  apply (FromData_of_a_1D_slice [1; 2; 3; 4; 5; 6]%float 2 3).
  unfold GoInt.max_int, len. cbn. lia.
Defined.

(** X28. [Matf64FromData] on a non-empty 2D slice whose rows all have
    the same length, without dimensions and with room for twice the
    elements: it returns a well-formed matrix with one row per inner
    slice, whose buffer is the inner slices one behind the other, and
    [ToSlice2D] gives the 2D slice back. *)
Theorem FromData_of_a_2D_slice {F : Type} `{FloatOps F}
    (v : list (list F)) (w : Z) :
  0 < len v → Forall (λ row, len row = w) v →
  len v <= GoInt.max_int → 2 * (len v * w) <= GoInt.max_int →
  ∃ m, FromTwoDSliceHelper v [] = Ok m ∧
       m = {| r := len v; c := w; vals := mjoin v |} ∧
       wf m ∧ ToSlice2D m = Ok v.
Proof.
  intros Hne Hrect Hfit Hfit'.
  assert (0 <= w) as Hw.
  { destruct v as [|row v]; [unfold len in Hne; simpl in Hne; lia|].
    apply Forall_cons in Hrect as [<- _]. apply len_nonneg. }
  assert (wf {| r := len v; c := w; vals := mjoin v |}) as Hwf.
  { unfold wf. cbn [r c vals]. repeat split; try lia; try nia.
    unfold len. rewrite (join_length_same (Z.to_nat w)).
    - unfold len. nia.
    - eapply Forall_impl; [exact Hrect|]. intros l Hl. unfold len in Hl. lia. }
  eexists. split; [by apply FromTwoD_spec|]. split; [done|]. split; [done|].
  rewrite ToSlice2D_spec by done. cbn [r]. by rewrite rows_of_join.
Qed.

Lemma FromData_of_a_2D_slice_witness :
  ∃ m, FromTwoDSliceHelper rows23 [] = Ok m ∧
       m = {| r := len rows23; c := 3; vals := mjoin rows23 |} ∧
       wf m ∧ ToSlice2D m = Ok rows23.
Proof.
  apply (FromData_of_a_2D_slice rows23 3).
  - unfold len. cbn. lia.
  - repeat constructor.
  - unfold GoInt.max_int, len. cbn. lia.
  - unfold GoInt.max_int, len. cbn. lia.
Defined.

(** X29. [All(f)] is true exactly when [f] holds of every element and
    [Any(f)] exactly when it holds of some element, on any matrix: on a
    matrix without elements [All] is true and [Any] is false, and [Any(f)]
    is the negation of [All] of the negated predicate. *)
Theorem All_and_Any_over_the_buffer {F : Type} `{FloatOps F}
    (m : Mat F) (f : F → bool) :
  All m f = Ok (forallb f m.(vals)) ∧
  Any m f = Ok (existsb f m.(vals)) ∧
  (m.(vals) = [] → All m f = Ok true ∧ Any m f = Ok false) ∧
  (b ← All m (λ x, negb (f x)); Ok (negb b)) = Any m f.
Proof.
  rewrite !All_spec, Any_spec.
  split; [done|]. split; [done|]. split.
  - by intros ->.
  - cbn [mbind result_bind]. by rewrite forallb_negb_existsb, negb_involutive.
Qed.

(** X30. [Map(f)] returns on any matrix and leaves the shape as it was
    and [f] of every element in its place; mapping [f] and then [g] is
    mapping their composition, and the arithmetic with a scalar is the
    map of the operation. *)
Theorem Map_applies_to_every_element {F : Type} `{FloatOps F}
    (m : Mat F) (f g : F → F) (op : F → F → F) (x : F) :
  Map m f = Ok (with_vals m (f <$> m.(vals))) ∧
  (m' ← Map m f; Map m' g) = Map m (λ y, g (f y)) ∧
  Map m (λ y, op y x) = Ok (scalar_op op m x).
Proof.
  rewrite !Map_spec. split; [done|]. split; [|done].
  cbn [mbind result_bind]. rewrite Map_spec. cbn [with_vals vals r c].
  by rewrite <- list_fmap_compose.
Qed.

